(** * Generic maps of package [maps]: UnorderedMap, OrderedMap and the
    derived operations of DefaultAbstractMap

    A shallow embedding of [maps/abstract_map.go], [maps/unordered_map.go]
    and [maps/ordered_map.go].

    - A Go method with a pointer receiver becomes a function in the monad
      [M St] of state [St] (the receiver) and of panics.
    - A visitor [func(key K, value V) bool] is a closure: it is modelled
      with the state [S] it captures, [K → V → S → bool * S].  A
      [for ... := range impl.Range { body }] loop is the call of
      [impl.Range] on the loop body, [break] being the answer [false].
      The visitor does not call the map it is shown.
    - Keys are of a [comparable] type whose [==] is the identity of values
      (no NaN among them): [EqDecision] and [Countable].
    - The value type is declared [any].  Values are compared with
      [any(value) == any(old)], which panics at run time when the two values
      are of one dynamic type that is not comparable (a slice, a map, a
      function): [Comparison V], whose [any_eq] answers [None] there.  Where
      the comparison is defined it is the identity of values (no NaN).  A
      comparable value type, as in the test suite, is an [EqDecision V]
      (instance [comparable]); the theorems on sequences of calls are stated
      for these.
    - The zero value of [V] is the inhabitant of [Inhabited V].
    - An [int] that counts pairs is a [nat].
    - abstract_map.go is taken in the form that declares the aborting stubs
      [Delete], [Load] and [Range]; the name [MapOps] of the four primitives
      is the one of the form of the file without them. *)

From stdpp Require Import gmap list strings sorting.

(** ** Results and the state-and-panic monad *)

Inductive result (A : Type) : Type :=
  | Ok (a : A)
  | Panic (msg : string).
Arguments Ok {A} a.
Arguments Panic {A} msg.

Definition M (St A : Type) : Type := St → result (A * St).

Definition ret {St A : Type} (a : A) : M St A := λ s, Ok (a, s).

Definition bind {St A B : Type} (c : M St A) (k : A → M St B) : M St B :=
  λ s, match c s with
       | Ok (a, s') => k a s'
       | Panic msg => Panic msg
       end.

Definition panic {St A : Type} (msg : string) : M St A := λ _, Panic msg.

Notation "'let*' x ':=' c 'in' k" := (bind c (λ x, k))
  (at level 10, x name, c at level 100, k at level 200, only parsing).
Notation "'let*' ' p ':=' c 'in' k" := (bind c (λ x, match x with p => k end))
  (at level 10, p pattern, c at level 100, k at level 200, only parsing).
Notation "c1 ;;; c2" := (bind c1 (λ _, c2))
  (at level 100, c2 at level 200, right associativity, only parsing).

(** [for _, key := range keys { c key }] *)
Fixpoint for_each {St A : Type} (c : A → M St unit) (xs : list A) : M St unit :=
  match xs with
  | [] => ret ()
  | x :: xs' => c x ;;; for_each c xs'
  end.

(** The state a computation ends in, if it does not panic. *)
Definition final {St A : Type} (r : result (A * St)) : result St :=
  match r with
  | Ok (_, s) => Ok s
  | Panic msg => Panic msg
  end.

(** ** [==] on interface values

    [any(x) == any(y)], for [x] and [y] of the value type [V] of a map: the
    answer of [==] when the run time can compare the two values, [None] when
    it panics instead.  Both are converted from [V]: they are of one dynamic
    type unless [V] is itself an interface type. *)

Class Comparison (V : Type) : Type := {
  any_eq : V → V → option bool;
  any_eq_true : ∀ x y, any_eq x y = Some true → x = y;
  any_eq_false : ∀ x y, any_eq x y = Some false → x ≠ y;
}.

(** A comparable type: [==] is defined on every two values. *)
#[global] Instance comparable {V : Type} `{EqDecision V} : Comparison V := {|
  any_eq := λ x y, Some (bool_decide (x = y));
  any_eq_true := λ x y E, bool_decide_eq_true_1 (x = y) (inj Some _ _ E);
  any_eq_false := λ x y E, bool_decide_eq_false_1 (x = y) (inj Some _ _ E);
|}.

(** [[]int]: a type that is not comparable.  A slice is modelled by its
    elements; [==] on two slices boxed in interfaces panics whatever they
    hold. *)
Inductive IntSlice : Type :=
  | SliceOf (xs : list nat).

#[global] Instance IntSlice_inhabited : Inhabited IntSlice := populate (SliceOf []).

#[global] Instance IntSlice_Comparison : Comparison IntSlice := {|
  any_eq := λ _ _, None;
  any_eq_true := λ x y (E : None = Some true), match E with end;
  any_eq_false := λ x y (E : None = Some false), match E with end;
|}.

Definition uncomparable : string := "runtime error: comparing uncomparable type".

(** The comparison as a step of a method. *)
Definition interface_eq {V St : Type} `{Comparison V} (x y : V) : M St bool :=
  match any_eq x y with
  | Some equal => ret equal
  | None => panic uncomparable
  end.

(** ** Visitors *)

Definition visitor (K V S : Type) : Type := K → V → S → bool * S.

(** [for k, v := range pairs { if !f(k, v) { break } }] *)
Fixpoint range_loop {K V S : Type} (f : visitor K V S) (pairs : list (K * V)) (s : S) : S :=
  match pairs with
  | [] => s
  | (k, v) :: rest =>
      let '(continue, s') := f k v s in
      if continue then range_loop f rest s' else s'
  end.

(** A visitor instrumented with the log of its invocations. *)
Definition traced {K V S : Type} (f : visitor K V S) : visitor K V (list (K * V) * S) :=
  λ k v '(log, s), let '(continue, s') := f k v s in (continue, (log ++ [(k, v)], s')).

(** Instrumentation of the visitors of [Keys] and [Values]. *)
Definition traced1 {A S : Type} (f : A → S → bool * S) : A → list A * S → bool * (list A * S) :=
  λ a '(log, s), let '(continue, s') := f a s in (continue, (log ++ [a], s')).

(** The visitor that never stops and collects what it is shown. *)
Definition collect {K V : Type} : visitor K V (list (K * V)) :=
  λ k v acc, (true, acc ++ [(k, v)]).

(** ** abstract_map.go *)

Module DefaultAbstractMap.
Section defs.
Context {K V St : Type} `{Comparison V}.

(** The methods of [impl] that DefaultAbstractMap calls.  The field is
    declared with the whole interface [AbstractMap[K, V]]; only these four
    are ever selected on it. *)
Record MapOps : Type := {
  impl_Delete : K → M St unit;
  impl_Load : K → M St (V * bool);
  impl_Range : ∀ S : Type, visitor K V S → S → M St S;
  impl_Store : K → V → M St unit;
}.

Section methods.
Variable impl : MapOps.

Definition Clear : M St unit :=
  let* keys := impl_Range impl (list K) (λ key _ keys, (true, keys ++ [key])) [] in
  for_each (impl_Delete impl) keys.

Definition CompareAndDelete (key : K) (old : V) : M St bool :=
  let* '(value, ok) := impl_Load impl key in
  if negb ok then ret false
  else
    let* equal := interface_eq value old in
    if equal then impl_Delete impl key ;;; ret true
    else ret false.

Definition CompareAndSwap (key : K) (old new : V) : M St bool :=
  let* '(value, ok) := impl_Load impl key in
  if negb ok then ret false
  else
    let* equal := interface_eq value old in
    if equal then impl_Store impl key new ;;; ret true
    else ret false.

Definition Delete (key : K) : M St unit := panic "not implemented"%string.

Definition Len : M St nat :=
  impl_Range impl nat (λ _ _ len, (true, len + 1)) 0.

Definition Load (key : K) : M St (V * bool) := panic "not implemented"%string.

Definition LoadAndDelete (key : K) : M St (V * bool) :=
  let* '(value, loaded) := impl_Load impl key in
  (if loaded then impl_Delete impl key else ret ()) ;;;
  ret (value, loaded).

Definition LoadOrStore (key : K) (value : V) : M St (V * bool) :=
  let* '(actual, loaded) := impl_Load impl key in
  if negb loaded then
    impl_Store impl key value ;;; ret (value, loaded)
  else ret (actual, loaded).

Definition Range (S : Type) (f : visitor K V S) (s : S) : M St S :=
  panic "not implemented"%string.

Definition Keys (S : Type) (f : K → S → bool * S) (s : S) : M St S :=
  impl_Range impl S (λ key _ s, f key s) s.

Definition Values (S : Type) (f : V → S → bool * S) (s : S) : M St S :=
  impl_Range impl S (λ _ value s, f value s) s.

Definition Swap (key : K) (value : V) : M St (V * bool) :=
  let* '(previous, loaded) := impl_Load impl key in
  impl_Store impl key value ;;; ret (previous, loaded).
End methods.

(** *** Embedding and method sets

    A concrete map is a struct that embeds [*DefaultAbstractMap] and
    declares some methods of its own.  A method the struct declares hides
    the promoted one of the same name.  DefaultAbstractMap has no [Store],
    so a struct must declare it to satisfy the interface; [Delete], [Load]
    and [Range] are promoted as the aborting stubs when not declared. *)
Record Declared : Type := {
  own_Delete : option (K → M St unit);
  own_Len : option (M St nat);
  own_Load : option (K → M St (V * bool));
  own_Range : option (∀ S : Type, visitor K V S → S → M St S);
  own_Store : K → V → M St unit;
}.

Definition selector {A : Type} (own : option A) (promoted : A) : A :=
  match own with
  | Some f => f
  | None => promoted
  end.

(** The interface [AbstractMap[K, V]]. *)
Record AbstractMap : Type := {
  am_Clear : M St unit;
  am_CompareAndDelete : K → V → M St bool;
  am_CompareAndSwap : K → V → V → M St bool;
  am_Delete : K → M St unit;
  am_Len : M St nat;
  am_Load : K → M St (V * bool);
  am_LoadAndDelete : K → M St (V * bool);
  am_LoadOrStore : K → V → M St (V * bool);
  am_Range : ∀ S : Type, visitor K V S → S → M St S;
  am_Keys : ∀ S : Type, (K → S → bool * S) → S → M St S;
  am_Values : ∀ S : Type, (V → S → bool * S) → S → M St S;
  am_Store : K → V → M St unit;
  am_Swap : K → V → M St (V * bool);
}.

(** What [impl] answers once the struct [d] has been wired in with
    [x.DefaultAbstractMap = NewDefaultAbstractMap(x)]. *)
Definition NewDefaultAbstractMap (d : Declared) : MapOps := {|
  impl_Delete := selector (own_Delete d) Delete;
  impl_Load := selector (own_Load d) Load;
  impl_Range := selector (own_Range d) Range;
  impl_Store := own_Store d;
|}.

(** The method set of the struct. *)
Definition method_set (d : Declared) : AbstractMap :=
  let impl := NewDefaultAbstractMap d in {|
  am_Clear := Clear impl;
  am_CompareAndDelete := CompareAndDelete impl;
  am_CompareAndSwap := CompareAndSwap impl;
  am_Delete := impl_Delete impl;
  am_Len := selector (own_Len d) (Len impl);
  am_Load := impl_Load impl;
  am_LoadAndDelete := LoadAndDelete impl;
  am_LoadOrStore := LoadOrStore impl;
  am_Range := impl_Range impl;
  am_Keys := Keys impl;
  am_Values := Values impl;
  am_Store := impl_Store impl;
  am_Swap := Swap impl;
|}.
End defs.
Arguments MapOps : clear implicits.
Arguments Declared : clear implicits.
Arguments AbstractMap : clear implicits.
End DefaultAbstractMap.

(** ** The built-in map of Go, as unordered_map.go and ordered_map.go use it

    A [map[K]V] is a [gmap K V].  [for k, v := range m] visits every pair
    once, in an order that is not specified and that may change from one loop
    to the next: the order is chosen by [range_order], an arbitrary function
    of the map and of the number of loops run before. *)

Module GoMap.
Class Iteration (K V : Type) `{Countable K} : Type := {
  range_order : nat → gmap K V → list (K * V);
  range_order_perm : ∀ n m, range_order n m ≡ₚ map_to_list m;
}.

(** [value, ok = m[key]] *)
Definition index {K V : Type} `{Countable K} `{Inhabited V}
    (m : gmap K V) (key : K) : V * bool :=
  match m !! key with
  | Some value => (value, true)
  | None => (inhabitant, false)
  end.
End GoMap.

(** ** unordered_map.go *)

Module UnorderedMap.
Section defs.
Context {K V : Type} `{Countable K} `{Comparison V} `{Inhabited V}.
Context `{!GoMap.Iteration K V}.

(** [ranges] counts the [range] loops run over [m] so far. *)
Record t : Type := {
  m : gmap K V;
  ranges : nat;
}.

Definition Delete (key : K) : M t unit :=
  λ um, Ok ((), {| m := delete key (m um); ranges := ranges um |}).

Definition Len : M t nat :=
  λ um, Ok (size (m um), um).

Definition Load (key : K) : M t (V * bool) :=
  λ um, Ok (GoMap.index (m um) key, um).

Definition Range (S : Type) (f : visitor K V S) (s : S) : M t S :=
  λ um, Ok (range_loop f (GoMap.range_order (ranges um) (m um)) s,
            {| m := m um; ranges := ranges um + 1 |}).

Definition Store (key : K) (value : V) : M t unit :=
  λ um, Ok ((), {| m := <[key := value]> (m um); ranges := ranges um |}).

Definition declared : DefaultAbstractMap.Declared K V t := {|
  DefaultAbstractMap.own_Delete := Some Delete;
  DefaultAbstractMap.own_Len := Some Len;
  DefaultAbstractMap.own_Load := Some Load;
  DefaultAbstractMap.own_Range := Some Range;
  DefaultAbstractMap.own_Store := Store;
|}.

Definition NewUnorderedMap : t := {| m := ∅; ranges := 0 |}.

(** [um.DefaultAbstractMap = NewDefaultAbstractMap(um)] *)
Definition impl : DefaultAbstractMap.MapOps K V t :=
  DefaultAbstractMap.NewDefaultAbstractMap declared.

Definition methods : DefaultAbstractMap.AbstractMap K V t :=
  DefaultAbstractMap.method_set declared.
End defs.
Arguments t : clear implicits.
Arguments t K V {_ _}.
End UnorderedMap.

(** ** container/list, as ordered_map.go uses it

    An [*Element] is an address.  A list owns the cells of the elements it
    has allocated ([Value] of each) and links some of them, front to back, in
    [order].  [Remove] unlinks an element; its cell stays, as the object does
    for whoever still holds the pointer. *)

Module List_.
Section defs.
Context {A : Type}.

Definition Element : Type := nat.

Record t : Type := {
  cells : gmap Element A;
  order : list Element;
}.

Definition New : t := {| cells := ∅; order := [] |}.

Definition PushBack (v : A) (l : t) : Element * t :=
  let e := fresh (dom (cells l)) in
  (e, {| cells := <[e := v]> (cells l); order := order l ++ [e] |}).

Definition Remove (e : Element) (l : t) : t :=
  {| cells := cells l; order := filter (λ e', e' ≠ e) (order l) |}.

(** [e.Value]; [None] for an address that holds no element, which no
    program comes by: the callers answer it with the panic of a nil
    dereference. *)
Definition Value (e : Element) (l : t) : option A := cells l !! e.

(** Assignment to the object [e.Value] points to. *)
Definition set_Value (e : Element) (v : A) (l : t) : t :=
  {| cells := <[e := v]> (cells l); order := order l |}.
End defs.
Arguments t : clear implicits.
End List_.

(** ** ordered_map.go *)

Module OrderedMap.
Section defs.
Context {K V : Type} `{Countable K} `{Comparison V} `{Inhabited V}.

Record entry : Type := {
  key : K;
  value : V;
}.

Record t : Type := {
  m : gmap K List_.Element;
  l : List_.t entry;
}.

Definition nil_dereference : string :=
  "invalid memory address or nil pointer dereference".

Definition NewOrderedMap : t := {| m := ∅; l := List_.New |}.

Definition Store (k : K) (v : V) : M t unit :=
  λ om,
    match m om !! k with
    | Some element =>
        match List_.Value element (l om) with
        | Some en =>
            Ok ((), {| m := m om;
                       l := List_.set_Value element {| key := key en; value := v |} (l om) |})
        | None => Panic nil_dereference
        end
    | None =>
        let newEntry := {| key := k; value := v |} in
        let '(element, l') := List_.PushBack newEntry (l om) in
        Ok ((), {| m := <[k := element]> (m om); l := l' |})
    end.

Definition Load (k : K) : M t (V * bool) :=
  λ om,
    match m om !! k with
    | Some element =>
        match List_.Value element (l om) with
        | Some en => Ok ((value en, true), om)
        | None => Panic nil_dereference
        end
    | None => Ok ((inhabitant, false), om)
    end.

Definition Delete (k : K) : M t unit :=
  λ om,
    match m om !! k with
    | Some element =>
        Ok ((), {| m := delete k (m om); l := List_.Remove element (l om) |})
    | None => Ok ((), om)
    end.

Definition Len : M t nat :=
  λ om, Ok (size (m om), om).

(** [for element := om.l.Front(); element != nil; element = element.Next()] *)
Fixpoint Range_loop {S : Type} (f : visitor K V S) (lst : List_.t entry)
    (elements : list List_.Element) (s : S) : result S :=
  match elements with
  | [] => Ok s
  | element :: rest =>
      match List_.Value element lst with
      | Some en =>
          let '(continue, s') := f (key en) (value en) s in
          if continue then Range_loop f lst rest s' else Ok s'
      | None => Panic nil_dereference
      end
  end.

Definition Range (S : Type) (f : visitor K V S) (s : S) : M t S :=
  λ om,
    match Range_loop f (l om) (List_.order (l om)) s with
    | Ok s' => Ok (s', om)
    | Panic msg => Panic msg
    end.

Definition declared : DefaultAbstractMap.Declared K V t := {|
  DefaultAbstractMap.own_Delete := Some Delete;
  DefaultAbstractMap.own_Len := Some Len;
  DefaultAbstractMap.own_Load := Some Load;
  DefaultAbstractMap.own_Range := Some Range;
  DefaultAbstractMap.own_Store := Store;
|}.

(** [om.DefaultAbstractMap = NewDefaultAbstractMap(om)] *)
Definition impl : DefaultAbstractMap.MapOps K V t :=
  DefaultAbstractMap.NewDefaultAbstractMap declared.

Definition methods : DefaultAbstractMap.AbstractMap K V t :=
  DefaultAbstractMap.method_set declared.

(** The pairs of the list, front to back. *)
Definition entries_of (cells : gmap List_.Element entry) (elements : list List_.Element)
    : list (K * V) :=
  omap (λ element, (λ en, (key en, value en)) <$> cells !! element) elements.

Definition entries (om : t) : list (K * V) :=
  entries_of (List_.cells (l om)) (List_.order (l om)).

(** Two linked elements do not bear the same key. *)
Definition keyed (cells : gmap List_.Element entry) (elements : list List_.Element) : Prop :=
  ∀ e1 e2 en1 en2, e1 ∈ elements → e2 ∈ elements →
    cells !! e1 = Some en1 → cells !! e2 = Some en2 → key en1 = key en2 → e1 = e2.

(** The index and the list describe one another: no element is linked
    twice; a key of the index points to a linked element whose entry bears
    that key; a linked element has an entry, and the index sends the key of
    this entry back to the element. *)
Record inv (om : t) : Prop := {
  inv_NoDup : NoDup (List_.order (l om));
  inv_index : ∀ k element, m om !! k = Some element →
    element ∈ List_.order (l om) ∧
    ∃ en, List_.Value element (l om) = Some en ∧ key en = k;
  inv_list : ∀ element, element ∈ List_.order (l om) →
    ∃ en, List_.Value element (l om) = Some en ∧ m om !! key en = Some element;
}.

(** The finite map an ordered map stands for. *)
Definition abs (om : t) : gmap K V := list_to_map (entries om).
End defs.
Arguments entry : clear implicits.
Arguments t : clear implicits.
Arguments t K V {_ _}.
End OrderedMap.

(** ** Calls of a client on an [AbstractMap] *)

Section calls.
Context {K V St : Type}.

(** One method call; the visitors of [Range], [Keys] and [Values] only
    decide when to stop. *)
Inductive Op : Type :=
  | OpClear
  | OpCompareAndDelete (key : K) (old : V)
  | OpCompareAndSwap (key : K) (old new : V)
  | OpDelete (key : K)
  | OpLen
  | OpLoad (key : K)
  | OpLoadAndDelete (key : K)
  | OpLoadOrStore (key : K) (value : V)
  | OpRange (f : K → V → bool)
  | OpKeys (f : K → bool)
  | OpValues (f : V → bool)
  | OpStore (key : K) (value : V)
  | OpSwap (key : K) (value : V).

Import DefaultAbstractMap.

Definition call (am : AbstractMap K V St) (op : Op) : M St unit :=
  match op with
  | OpClear => am_Clear am
  | OpCompareAndDelete key old => am_CompareAndDelete am key old ;;; ret ()
  | OpCompareAndSwap key old new => am_CompareAndSwap am key old new ;;; ret ()
  | OpDelete key => am_Delete am key
  | OpLen => am_Len am ;;; ret ()
  | OpLoad key => am_Load am key ;;; ret ()
  | OpLoadAndDelete key => am_LoadAndDelete am key ;;; ret ()
  | OpLoadOrStore key value => am_LoadOrStore am key value ;;; ret ()
  | OpRange f => am_Range am unit (λ k v s, (f k v, s)) ()
  | OpKeys f => am_Keys am unit (λ k s, (f k, s)) ()
  | OpValues f => am_Values am unit (λ v s, (f v, s)) ()
  | OpStore key value => am_Store am key value
  | OpSwap key value => am_Swap am key value ;;; ret ()
  end.

(** The calls of [ops], first to last, on the map [s]. *)
Definition run (am : AbstractMap K V St) (ops : list Op) (s : St) : result St :=
  final (for_each (call am) ops s).
End calls.
Arguments Op : clear implicits.

(** ** An iteration order, to run the unordered map on examples: every
    other loop goes backwards *)

Section iterations.
Context {K V : Type} `{Countable K}.

Definition alternating : GoMap.Iteration K V := {|
  GoMap.range_order := λ n m,
    if Nat.even n then map_to_list m else reverse (map_to_list m);
  GoMap.range_order_perm := λ n m,
    match Nat.even n as b
      return (if b then map_to_list m else reverse (map_to_list m)) ≡ₚ map_to_list m
    with
    | true => reflexivity (map_to_list m)
    | false => reverse_Permutation (map_to_list m)
    end;
|}.
End iterations.

(** ** The finite map a sequence of calls describes

    Written from the description of the operations, not from the code: the
    map after one call, as a function of the map before. *)

Section model.
Context {K V : Type} `{Countable K} `{EqDecision V}.

Definition model_call (op : Op K V) (m : gmap K V) : gmap K V :=
  match op with
  | OpClear => ∅
  | OpCompareAndDelete key old =>
      if bool_decide (m !! key = Some old) then delete key m else m
  | OpCompareAndSwap key old new =>
      if bool_decide (m !! key = Some old) then <[key := new]> m else m
  | OpDelete key => delete key m
  | OpLoadAndDelete key => delete key m
  | OpLoadOrStore key value =>
      match m !! key with
      | Some _ => m
      | None => <[key := value]> m
      end
  | OpStore key value => <[key := value]> m
  | OpSwap key value => <[key := value]> m
  | OpLen | OpLoad _ | OpRange _ | OpKeys _ | OpValues _ => m
  end.

Definition model_run (ops : list (Op K V)) (m : gmap K V) : gmap K V :=
  foldl (λ m op, model_call op m) m ops.

(** The calls that cannot remove [key] nor change what it is bound to,
    when it is bound. *)
Definition keeps (key : K) (op : Op K V) : bool :=
  match op with
  | OpClear => false
  | OpCompareAndDelete k _ | OpCompareAndSwap k _ _ | OpDelete k
  | OpLoadAndDelete k | OpStore k _ | OpSwap k _ => bool_decide (k ≠ key)
  | OpLoadOrStore _ _ | OpLen | OpLoad _ | OpRange _ | OpKeys _ | OpValues _ => true
  end.

(** The same for the sequence of pairs of an ordered map, in the order of
    a traversal: a store to a key that is present replaces the value where
    the key stands, a store to an absent key adds the pair at the end, a
    deletion removes the pair and closes the gap. *)
Fixpoint assoc_store (key : K) (value : V) (pairs : list (K * V)) : list (K * V) :=
  match pairs with
  | [] => [(key, value)]
  | (k, v) :: rest =>
      if decide (k = key) then (k, value) :: rest
      else (k, v) :: assoc_store key value rest
  end.

Definition assoc_delete (key : K) (pairs : list (K * V)) : list (K * V) :=
  filter (λ p, p.1 ≠ key) pairs.

Definition order_call (op : Op K V) (pairs : list (K * V)) : list (K * V) :=
  match op with
  | OpClear => []
  | OpCompareAndDelete key old =>
      if bool_decide ((key, old) ∈ pairs) then assoc_delete key pairs else pairs
  | OpCompareAndSwap key old new =>
      if bool_decide ((key, old) ∈ pairs) then assoc_store key new pairs else pairs
  | OpDelete key => assoc_delete key pairs
  | OpLoadAndDelete key => assoc_delete key pairs
  | OpLoadOrStore key value =>
      if bool_decide (key ∈ pairs.*1) then pairs else assoc_store key value pairs
  | OpStore key value => assoc_store key value pairs
  | OpSwap key value => assoc_store key value pairs
  | OpLen | OpLoad _ | OpRange _ | OpKeys _ | OpValues _ => pairs
  end.

Definition order_run (ops : list (Op K V)) (pairs : list (K * V)) : list (K * V) :=
  foldl (λ pairs op, order_call op pairs) pairs ops.
End model.

(** ** What a backend owes the derived operations

    [Implements impl inv abs]: on the states of [inv], the four primitives of
    [impl] behave as the operations of the finite map [abs s]; a traversal
    shows every pair of it once, in some order. *)

Section refinement.
Context {K V St : Type} `{Countable K} `{Inhabited V}.
Import DefaultAbstractMap.

Record Implements (impl : MapOps K V St) (inv : St → Prop)
    (abs : St → gmap K V) : Prop := {
  Load_abs : ∀ s key, inv s →
    impl_Load impl key s = Ok (GoMap.index (abs s) key, s);
  Store_abs : ∀ s key value, inv s →
    ∃ s', impl_Store impl key value s = Ok ((), s') ∧ inv s' ∧
          abs s' = <[key := value]> (abs s);
  Delete_abs : ∀ s key, inv s →
    ∃ s', impl_Delete impl key s = Ok ((), s') ∧ inv s' ∧
          abs s' = delete key (abs s);
  Range_abs : ∀ s, inv s →
    ∃ pairs s', pairs ≡ₚ map_to_list (abs s) ∧ inv s' ∧ abs s' = abs s ∧
      ∀ (T : Type) (f : visitor K V T) (t : T),
        impl_Range impl T f t s = Ok (range_loop f pairs t, s');
}.
End refinement.

(** ** The keys a sequence of calls leaves, when no call is conditional on
    a value *)

Section live.
Context {K V : Type} `{Countable K}.

(** The keys after one call, from the keys before. *)
Definition live_call (op : Op K V) (X : gset K) : gset K :=
  match op with
  | OpClear => ∅
  | OpDelete key | OpLoadAndDelete key => X ∖ {[key]}
  | OpLoadOrStore key _ | OpStore key _ | OpSwap key _ => {[key]} ∪ X
  | OpCompareAndDelete _ _ | OpCompareAndSwap _ _ _
  | OpLen | OpLoad _ | OpRange _ | OpKeys _ | OpValues _ => X
  end.

(** The keys stored and not deleted or cleared since. *)
Definition live_keys (ops : list (Op K V)) : gset K :=
  foldl (λ X op, live_call op X) ∅ ops.

(** The calls whose effect on the set of the keys does not depend on a
    value. *)
Definition unconditional (op : Op K V) : bool :=
  match op with
  | OpCompareAndDelete _ _ => false
  | _ => true
  end.
End live.

(** The call returned. *)
Definition answers {A : Type} (r : result A) : Prop := ∃ a, r = Ok a.

(** The call reached a stub of DefaultAbstractMap. *)
Definition not_implemented {A : Type} (r : result A) : Prop :=
  r = Panic "not implemented"%string.

(** ** The contracts of the operations, on what a client observes

    [d] is a struct that embeds [*DefaultAbstractMap]; the calls are those of
    its method set. *)

Section contracts.
Context {K V St : Type} `{Countable K} `{Comparison V} `{Inhabited V}.
Import DefaultAbstractMap.
Variable d : Declared K V St.

(** [Load(key)] answers [(value, true)], and leaves the map as it is. *)
Definition found (s : St) (key : K) (value : V) : Prop :=
  am_Load (method_set d) key s = Ok ((value, true), s).

(** [Load(key)] answers the zero value and [false], and leaves the map as
    it is. *)
Definition missing (s : St) (key : K) : Prop :=
  am_Load (method_set d) key s = Ok ((inhabitant, false), s).

(** What [Load] answers on [s'] for the keys other than [key] is what it
    answers on [s]. *)
Definition same_elsewhere (key : K) (s s' : St) : Prop :=
  ∀ key', key' ≠ key →
    ∀ r, am_Load (method_set d) key' s = Ok (r, s) ↔
         am_Load (method_set d) key' s' = Ok (r, s').

(** After [Store(key, value)] on [s0] and calls that keep [key], [Load]
    finds [value] at [key]. *)
Definition Load_after_Store_contract (s0 : St) : Prop :=
  ∀ key value ops, forallb (keeps key) ops = true →
    ∃ s, run (method_set d) (OpStore key value :: ops) s0 = Ok s ∧ found s key value.

(** [CompareAndSwap] stores [new] and answers [true] when [Load] finds
    [old] at [key]; it answers [false] and leaves [s] when it does not. *)
Definition CompareAndSwap_contract (s : St) : Prop :=
  ∀ key old new,
    (found s key old →
       ∃ s', am_CompareAndSwap (method_set d) key old new s = Ok (true, s') ∧
             am_Store (method_set d) key new s = Ok ((), s') ∧
             found s' key new ∧ same_elsewhere key s s') ∧
    (¬ found s key old →
       am_CompareAndSwap (method_set d) key old new s = Ok (false, s)).

(** [CompareAndDelete] deletes [key] and answers [true] when [Load] finds
    [old] at [key]; it answers [false] and leaves [s] when it does not. *)
Definition CompareAndDelete_contract (s : St) : Prop :=
  ∀ key old,
    (found s key old →
       ∃ s', am_CompareAndDelete (method_set d) key old s = Ok (true, s') ∧
             am_Delete (method_set d) key s = Ok ((), s') ∧
             missing s' key ∧ same_elsewhere key s s') ∧
    (¬ found s key old →
       am_CompareAndDelete (method_set d) key old s = Ok (false, s)).

(** [CompareAndSwap] when the values need not be comparable.  [key] is
    bound or absent.  On an absent key the call answers [false] and leaves
    [s].  On a key bound to [cur]: when the run time can compare [cur] and
    [old], the call stores [new] and answers [true] if they are equal, and
    answers [false] and leaves [s] if they are not; when it cannot, the call
    panics. *)
Definition CompareAndSwap_any_contract (s : St) : Prop :=
  ∀ key old new,
    ((∃ cur, found s key cur) ∨ missing s key) ∧
    (missing s key →
       am_CompareAndSwap (method_set d) key old new s = Ok (false, s)) ∧
    (∀ cur, found s key cur →
       (is_Some (any_eq cur old) → cur = old →
          ∃ s', am_CompareAndSwap (method_set d) key old new s = Ok (true, s') ∧
                am_Store (method_set d) key new s = Ok ((), s') ∧
                found s' key new ∧ same_elsewhere key s s') ∧
       (is_Some (any_eq cur old) → cur ≠ old →
          am_CompareAndSwap (method_set d) key old new s = Ok (false, s)) ∧
       (any_eq cur old = None →
          am_CompareAndSwap (method_set d) key old new s = Panic uncomparable)).

(** The same for [CompareAndDelete]. *)
Definition CompareAndDelete_any_contract (s : St) : Prop :=
  ∀ key old,
    ((∃ cur, found s key cur) ∨ missing s key) ∧
    (missing s key →
       am_CompareAndDelete (method_set d) key old s = Ok (false, s)) ∧
    (∀ cur, found s key cur →
       (is_Some (any_eq cur old) → cur = old →
          ∃ s', am_CompareAndDelete (method_set d) key old s = Ok (true, s') ∧
                am_Delete (method_set d) key s = Ok ((), s') ∧
                missing s' key ∧ same_elsewhere key s s') ∧
       (is_Some (any_eq cur old) → cur ≠ old →
          am_CompareAndDelete (method_set d) key old s = Ok (false, s)) ∧
       (any_eq cur old = None →
          am_CompareAndDelete (method_set d) key old s = Panic uncomparable)).

(** [LoadOrStore] answers what is bound to [key] and leaves [s]; on an
    absent key it stores [value]; a second call then answers the first
    value. *)
Definition LoadOrStore_contract (s : St) : Prop :=
  ∀ key value,
    (∀ w, found s key w →
       am_LoadOrStore (method_set d) key value s = Ok ((w, true), s)) ∧
    (missing s key →
       ∃ s', am_LoadOrStore (method_set d) key value s = Ok ((value, false), s') ∧
             am_Store (method_set d) key value s = Ok ((), s') ∧
             found s' key value ∧ same_elsewhere key s s') ∧
    (missing s key → ∀ value2,
       ∃ s', am_LoadOrStore (method_set d) key value s = Ok ((value, false), s') ∧
             am_LoadOrStore (method_set d) key value2 s' = Ok ((value, true), s') ∧
             found s' key value).

(** [key] is bound or absent; [Swap] answers what was bound, or the zero
    value and [false], and stores [value]. *)
Definition Swap_contract (s : St) : Prop :=
  ∀ key value,
    ((∃ w, found s key w) ∨ missing s key) ∧
    (∀ w, found s key w →
       ∃ s', am_Swap (method_set d) key value s = Ok ((w, true), s') ∧
             am_Store (method_set d) key value s = Ok ((), s') ∧
             found s' key value ∧ same_elsewhere key s s') ∧
    (missing s key →
       ∃ s', am_Swap (method_set d) key value s = Ok ((inhabitant, false), s') ∧
             am_Store (method_set d) key value s = Ok ((), s') ∧
             found s' key value ∧ same_elsewhere key s s').

(** No visitor of [Range], [Keys] or [Values] is invoked on [s]. *)
Definition never_visits (s : St) : Prop :=
  (∀ (T : Type) (f : visitor K V T) (t : T),
     ∃ s', am_Range (method_set d) _ (traced f) ([], t) s = Ok (([], t), s')) ∧
  (∀ (T : Type) (f : K → T → bool * T) (t : T),
     ∃ s', am_Keys (method_set d) _ (traced1 f) ([], t) s = Ok (([], t), s')) ∧
  (∀ (T : Type) (f : V → T → bool * T) (t : T),
     ∃ s', am_Values (method_set d) _ (traced1 f) ([], t) s = Ok (([], t), s')).

(** A visitor of [Range], [Keys] or [Values] that answers [false] the first
    time is invoked once on [s]. *)
Definition visits_once (s : St) : Prop :=
  (∀ (T : Type) (f : visitor K V T) (t : T), (∀ k v, (f k v t).1 = false) →
     ∃ log t' s', am_Range (method_set d) _ (traced f) ([], t) s = Ok ((log, t'), s') ∧
                  length log = 1) ∧
  (∀ (T : Type) (f : K → T → bool * T) (t : T), (∀ k, (f k t).1 = false) →
     ∃ log t' s', am_Keys (method_set d) _ (traced1 f) ([], t) s = Ok ((log, t'), s') ∧
                  length log = 1) ∧
  (∀ (T : Type) (f : V → T → bool * T) (t : T), (∀ v, (f v t).1 = false) →
     ∃ log t' s', am_Values (method_set d) _ (traced1 f) ([], t) s = Ok ((log, t'), s') ∧
                  length log = 1).

(** [s] holds [n] pairs, counted by the method [Len] of the struct. *)
Definition holds (s : St) (n : nat) : Prop :=
  ∃ s', am_Len (method_set d) s = Ok (n, s').

(** No invocation on a map that holds no pair; one invocation on a map
    that holds some, when the visitor answers [false] the first time. *)
Definition Range_contract (s : St) : Prop :=
  (holds s 0 → never_visits s) ∧ (∀ n, holds s (S n) → visits_once s).

(** [Clear] is one [Range] that collects the keys, each key [Load] finds
    once, then the [Delete] of each collected key; the map it leaves holds
    no pair. *)
Definition Clear_contract (s : St) : Prop :=
  ∃ keys s1 s',
    am_Range (method_set d) (list K) (λ key _ keys, (true, keys ++ [key])) [] s
      = Ok (keys, s1) ∧
    NoDup keys ∧ (∀ key, key ∈ keys ↔ ∃ w, found s key w) ∧
    for_each (am_Delete (method_set d)) keys s1 = Ok ((), s') ∧
    am_Clear (method_set d) s = Ok ((), s') ∧
    holds s' 0 ∧ (∃ s'', Len (NewDefaultAbstractMap d) s' = Ok (0, s'')) ∧
    (∀ key, missing s' key) ∧ never_visits s'.

(** The method [Len] of the struct and the [Len] of DefaultAbstractMap
    answer the number of the keys [Load] finds. *)
Definition Len_contract (s : St) (n : nat) : Prop :=
  am_Len (method_set d) s = Ok (n, s) ∧
  (∃ s', Len (NewDefaultAbstractMap d) s = Ok (n, s')) ∧
  ∃ keys : list K, NoDup keys ∧ (∀ key, key ∈ keys ↔ ∃ w, found s key w) ∧
                   length keys = n.

(** None of the derived operations panics on [s]. *)
Definition never_aborts (s : St) : Prop :=
  answers (am_Clear (method_set d) s) ∧
  answers (am_Len (method_set d) s) ∧
  answers (Len (NewDefaultAbstractMap d) s) ∧
  (∀ key, answers (am_LoadAndDelete (method_set d) key s)) ∧
  (∀ key value, answers (am_LoadOrStore (method_set d) key value s)) ∧
  (∀ key value, answers (am_Swap (method_set d) key value s)) ∧
  (∀ key old new, answers (am_CompareAndSwap (method_set d) key old new s)) ∧
  (∀ key old, answers (am_CompareAndDelete (method_set d) key old s)) ∧
  (∀ (T : Type) (f : K → T → bool * T) (t : T), answers (am_Keys (method_set d) T f t s)) ∧
  (∀ (T : Type) (f : V → T → bool * T) (t : T), answers (am_Values (method_set d) T f t s)).
End contracts.

(** ** The call that inserted a key of an ordered map *)

Section insertion.
Context {K V : Type} `{Countable K} `{EqDecision V} `{Inhabited V}.

(** [Load] finds [key] on the map the first [n] calls of [ops] build. *)
Definition present_after (ops : list (Op K V)) (n : nat) (key : K) : Prop :=
  ∃ om value,
    run OrderedMap.methods (take n ops) OrderedMap.NewOrderedMap = Ok om ∧
    found OrderedMap.declared om key value.

(** The call number [i] of [ops], counted from 0, found [key] absent and
    left it present, and [key] is present after every later call. *)
Definition inserted_at (ops : list (Op K V)) (i : nat) (key : K) : Prop :=
  i < length ops ∧ ¬ present_after ops i key ∧
  ∀ j, i < j ≤ length ops → present_after ops j key.
End insertion.

(** A struct that declares [Store] alone: the scaffold with no backend. *)
Definition scaffold {K V : Type} : DefaultAbstractMap.Declared K V unit := {|
  DefaultAbstractMap.own_Delete := None;
  DefaultAbstractMap.own_Len := None;
  DefaultAbstractMap.own_Load := None;
  DefaultAbstractMap.own_Range := None;
  DefaultAbstractMap.own_Store := λ _ _, ret ();
|}.

(** ** The bulk loaders [FromGoMaps] and [FromAbstractMap]

    They are declared in the form of abstract_map.go that has [MapOps].  A
    source of [FromAbstractMap] is a map object of its own: its state is
    not the one of the destination. *)

Section bulk.
Context {K V St : Type} `{Countable K} `{!GoMap.Iteration K V}.
Import DefaultAbstractMap.

(** [for k, v := range gm { m.Store(k, v) }], the loop number [n] over a
    built-in map. *)
Definition store_all (m : AbstractMap K V St) (n : nat) (gm : gmap K V) : M St unit :=
  for_each (λ '(k, v), am_Store m k v) (GoMap.range_order n gm).

Fixpoint FromGoMaps_from (m : AbstractMap K V St) (n : nat) (gms : list (gmap K V))
    : M St unit :=
  match gms with
  | [] => ret ()
  | gm :: rest => store_all m n gm ;;; FromGoMaps_from m (n + 1) rest
  end.

Definition FromGoMaps (m : AbstractMap K V St) (gms : list (gmap K V)) : M St unit :=
  FromGoMaps_from m 0 gms.

(** An [AbstractMap[K, V]] value: the method set and the object. *)
Record Source : Type := {
  src_St : Type;
  src_am : AbstractMap K V src_St;
  src_state : src_St;
}.

(** The body [m.Store(k, v)] of the loop over [am.Range], as the visitor
    [am.Range] is given: it captures the destination, and a panic of
    [Store] ends the loop. *)
Definition store_into (m : AbstractMap K V St) : visitor K V (result St) :=
  λ k v r,
    match r with
    | Ok s =>
        match am_Store m k v s with
        | Ok (_, s') => (true, Ok s')
        | Panic msg => (false, Panic msg)
        end
    | Panic msg => (false, Panic msg)
    end.

(** [for k, v := range am.Range { m.Store(k, v) }] *)
Definition load_from (m : AbstractMap K V St) (am : Source) (s : St)
    : result (St * Source) :=
  match am_Range (src_am am) _ (store_into m) (Ok s) (src_state am) with
  | Ok (Ok s', state') =>
      Ok (s', {| src_St := src_St am; src_am := src_am am; src_state := state' |})
  | Ok (Panic msg, _) => Panic msg
  | Panic msg => Panic msg
  end.

(** The destination and the sources after the call. *)
Fixpoint FromAbstractMap (m : AbstractMap K V St) (ams : list Source) (s : St)
    : result (St * list Source) :=
  match ams with
  | [] => Ok (s, [])
  | am :: rest =>
      match load_from m am s with
      | Ok (s', am') =>
          match FromAbstractMap m rest s' with
          | Ok (s'', rest') => Ok (s'', am' :: rest')
          | Panic msg => Panic msg
          end
      | Panic msg => Panic msg
      end
  end.
End bulk.
Arguments Source : clear implicits.

(** The two maps as sources. *)
Definition UnorderedMap_source {K V : Type} `{Countable K} `{EqDecision V} `{Inhabited V}
    `{!GoMap.Iteration K V} (um : UnorderedMap.t K V) : Source K V :=
  {| src_St := UnorderedMap.t K V; src_am := UnorderedMap.methods; src_state := um |}.

Definition OrderedMap_source {K V : Type} `{Countable K} `{EqDecision V} `{Inhabited V}
    (om : OrderedMap.t K V) : Source K V :=
  {| src_St := OrderedMap.t K V; src_am := OrderedMap.methods; src_state := om |}.

(** What the sources of a bulk load leave at each key, over what was there:
    the later source wins. *)
Definition merged {K V : Type} `{Countable K} (base : gmap K V) (srcs : list (gmap K V))
    : gmap K V :=
  foldl (λ acc g, g ∪ acc) base srcs.

(** The same on the sequence of pairs of an ordered destination, for
    sources given as the sequences of pairs they are traversed in. *)
Definition stored_in_turn {K V : Type} `{Countable K}
    (base : list (K * V)) (srcs : list (list (K * V))) : list (K * V) :=
  foldl (λ acc p, assoc_store p.1 p.2 acc) base (concat srcs).

(** ** More instrumentation: the answers of the visitor *)

Definition answered {K V S : Type} (f : visitor K V S)
    : visitor K V (list (K * V * bool) * S) :=
  λ k v '(log, s),
    let '(continue, s') := f k v s in (continue, (log ++ [(k, v, continue)], s')).

(** ** Contracts of the operations the claims leave out *)

Section more_contracts.
Context {K V St : Type} `{Countable K} `{EqDecision V} `{Inhabited V}.
Import DefaultAbstractMap.
Variable d : Declared K V St.

(** [Load(key)] answers [r] on [s]. *)
Definition reads (s : St) (key : K) (r : V * bool) : Prop :=
  am_Load (method_set d) key s = Ok (r, s).

(** The map was reached from [s0] by calls of the methods. *)
Definition reached_from (s0 s : St) : Prop :=
  ∃ ops, run (method_set d) ops s0 = Ok s.

(** [LoadAndDelete] on a bound key answers the value, deletes the key as
    [Delete] does, and a second call finds nothing; on an absent key it
    answers the zero value and [false] and leaves [s]. *)
Definition LoadAndDelete_contract (s : St) : Prop :=
  ∀ key,
    (∀ w, found d s key w →
       ∃ s', am_LoadAndDelete (method_set d) key s = Ok ((w, true), s') ∧
             am_Delete (method_set d) key s = Ok ((), s') ∧
             missing d s' key ∧ same_elsewhere d key s s' ∧
             am_LoadAndDelete (method_set d) key s' = Ok ((inhabitant, false), s')) ∧
    (missing d s key →
       am_LoadAndDelete (method_set d) key s = Ok ((inhabitant, false), s)).

(** [Delete] of an absent key leaves [s]; [Delete] returns, removes the key
    and no other, and deleting again changes nothing. *)
Definition Delete_contract (s : St) : Prop :=
  ∀ key,
    (missing d s key → am_Delete (method_set d) key s = Ok ((), s)) ∧
    ∃ s', am_Delete (method_set d) key s = Ok ((), s') ∧
          missing d s' key ∧ same_elsewhere d key s s' ∧
          am_Delete (method_set d) key s' = Ok ((), s').

(** How [Store] and [Delete] move [Len]. *)
Definition Len_step_contract (s : St) : Prop :=
  ∀ n, holds d s n → ∀ key value,
    (∃ s', am_Store (method_set d) key value s = Ok ((), s') ∧
           ((∃ w, found d s key w) → holds d s' n) ∧
           (missing d s key → holds d s' (n + 1))) ∧
    (∃ s', am_Delete (method_set d) key s = Ok ((), s') ∧
           ((∃ w, found d s key w) → 0 < n ∧ holds d s' (n - 1)) ∧
           (missing d s key → holds d s' n)).

(** [pairs] are the pairs of [s]: each key once, with the value [Load]
    finds. *)
Definition pairs_of (s : St) (pairs : list (K * V)) : Prop :=
  NoDup pairs.*1 ∧ ∀ k v, (k, v) ∈ pairs ↔ found d s k v.

(** A visitor that never answers [false] is shown every pair once, as many
    as [Len] says; [Keys] shows the keys and [Values] the values of such a
    traversal. *)
Definition full_traversal_contract (s : St) : Prop :=
  (∀ (T : Type) (f : visitor K V T) (t : T), (∀ k v t, (f k v t).1 = true) →
     ∃ pairs t' s', am_Range (method_set d) _ (traced f) ([], t) s = Ok ((pairs, t'), s') ∧
                    pairs_of s pairs ∧ holds d s (length pairs)) ∧
  (∀ (T : Type) (f : K → T → bool * T) (t : T), (∀ k t, (f k t).1 = true) →
     ∃ pairs t' s', am_Keys (method_set d) _ (traced1 f) ([], t) s = Ok ((pairs.*1, t'), s') ∧
                    pairs_of s pairs) ∧
  (∀ (T : Type) (f : V → T → bool * T) (t : T), (∀ v t, (f v t).1 = true) →
     ∃ pairs t' s', am_Values (method_set d) _ (traced1 f) ([], t) s = Ok ((pairs.*2, t'), s') ∧
                    pairs_of s pairs).

(** The invocations of a visitor are made on the first pairs of a full
    traversal, in their order; every answer but the last is [true]; pairs
    are left unvisited only after the answer [false]; the visitor ends in
    the state it would end in without the log. *)
Definition early_stop_contract (s : St) : Prop :=
  ∀ (T : Type) (f : visitor K V T) (t : T),
    ∃ pairs log t' s',
      pairs_of s pairs ∧
      am_Range (method_set d) _ (answered f) ([], t) s = Ok ((log, t'), s') ∧
      log.*1 = take (length log) pairs ∧
      Forall (λ e, e.2 = true) (take (length log - 1) log) ∧
      (length log < length pairs → ∃ k v, last log = Some (k, v, false)) ∧
      ∃ s'', am_Range (method_set d) _ f t s = Ok (t', s'').
End more_contracts.

(** ** Comparing maps by what a client reads *)

Section comparing.
Context {K V : Type} `{Countable K} `{EqDecision V} `{Inhabited V}.
Import DefaultAbstractMap.

(** [Load] and [Len] answer on [s1] what they answer on [s2]. *)
Definition same_answers {St1 St2 : Type}
    (d1 : Declared K V St1) (s1 : St1) (d2 : Declared K V St2) (s2 : St2) : Prop :=
  (∀ key r, reads d1 s1 key r ↔ reads d2 s2 key r) ∧
  (∀ n, holds d1 s1 n ↔ holds d2 s2 n).

(** A full [Range] over the ordered map [om] collects [pairs] and leaves
    [om] as it is. *)
Definition traversal (om : OrderedMap.t K V) (pairs : list (K * V)) : Prop :=
  am_Range OrderedMap.methods _ collect [] om = Ok (pairs, om).

(** [Store] then [Delete] of a key that was absent. *)
Definition Store_Delete_contract {St : Type} (d : Declared K V St) (s : St) : Prop :=
  ∀ key value, missing d s key →
    ∃ s1 s2, am_Store (method_set d) key value s = Ok ((), s1) ∧
             am_Delete (method_set d) key s1 = Ok ((), s2) ∧
             same_answers d s d s2.

Context `{!GoMap.Iteration K V}.

(** A map of one of the two kinds, as a source of [FromAbstractMap]. *)
Definition map_source (c : UnorderedMap.t K V + OrderedMap.t K V) : Source K V :=
  match c with
  | inl um => UnorderedMap_source um
  | inr om => OrderedMap_source om
  end.

Definition map_contents (c : UnorderedMap.t K V + OrderedMap.t K V) : gmap K V :=
  match c with
  | inl um => UnorderedMap.m um
  | inr om => OrderedMap.abs om
  end.

(** Any unordered map; an ordered map built by calls on a new one. *)
Definition map_reached (c : UnorderedMap.t K V + OrderedMap.t K V) : Prop :=
  match c with
  | inl _ => True
  | inr om => reached_from OrderedMap.declared OrderedMap.NewOrderedMap om
  end.
End comparing.

(** ** Examples

    The example of the ordered map: "charlie", "alpha", "delta", "beta"
    are stored in this order, "alpha" is updated, "delta" is deleted. *)

Definition example_ops : list (Op string nat) :=
  [OpStore "charlie" 1; OpStore "alpha" 2; OpStore "delta" 3; OpStore "beta" 4;
   OpStore "alpha" 5; OpDelete "delta"]%string.

Definition small_ops : list (Op nat nat) := [OpStore 1 10; OpStore 2 20].

Definition small_um : UnorderedMap.t nat nat :=
  {| UnorderedMap.m := {[1 := 10; 2 := 20]}; UnorderedMap.ranges := 3 |}.

(** Maps of slices, [map-of-int-to-[]int]: the key 1 is bound to the slice
    of the one element 7. *)
Definition slices_um : UnorderedMap.t nat IntSlice :=
  {| UnorderedMap.m := {[1 := SliceOf [7]]}; UnorderedMap.ranges := 0 |}.

Definition slices_ops : list (Op nat IntSlice) := [OpStore 1 (SliceOf [7])].

(** Calls that keep the key 1. *)
Definition keeping_ops : list (Op nat nat) :=
  [OpStore 2 21; OpLoadOrStore 1 7; OpDelete 2; OpLen; OpCompareAndSwap 3 0 1;
   OpKeys (λ _, false)].

(** A visitor that counts its invocations and answers [false]. *)
Definition stop_at_once : visitor nat nat nat := λ _ _ n, (false, n + 1).

(** An ordered map of two pairs, a visitor that counts and never stops,
    and sources for the bulk loaders. *)
Definition small_om : OrderedMap.t nat nat :=
  match run OrderedMap.methods small_ops OrderedMap.NewOrderedMap with
  | Ok om => om
  | Panic _ => OrderedMap.NewOrderedMap
  end.

Definition count_all : visitor nat nat nat := λ _ _ n, (true, n + 1).

Definition example_gms : list (gmap nat nat) := [{[1 := 100; 3 := 30]}; {[3 := 31]}].

(** * Properties *)

(** ** Loops *)

Section loops.
Context {K V T : Type}.
Implicit Types (f : visitor K V T) (pairs : list (K * V)).

Lemma range_loop_collect_keys pairs (acc : list K) :
  range_loop (λ key _ keys, (true, keys ++ [key])) pairs acc = acc ++ pairs.*1.
Proof.
  revert acc. induction pairs as [|[k v] rest IH]; intros acc; simpl.
  - by rewrite app_nil_r.
  - rewrite IH. by rewrite <- app_assoc.
Qed.

Lemma range_loop_collect pairs (acc : list (K * V)) :
  range_loop collect pairs acc = acc ++ pairs.
Proof.
  revert acc. induction pairs as [|[k v] rest IH]; intros acc; simpl.
  - by rewrite app_nil_r.
  - rewrite IH. by rewrite <- app_assoc.
Qed.

Lemma range_loop_count pairs (n : nat) :
  range_loop (λ (_ : K) (_ : V) len, (true, len + 1)) pairs n = n + length pairs.
Proof.
  revert n. induction pairs as [|[k v] rest IH]; intros n; simpl.
  - lia.
  - rewrite IH. lia.
Qed.

(** Logging the invocations does not change what the visitor does. *)
Lemma range_loop_traced_snd f pairs log s :
  (range_loop (traced f) pairs (log, s)).2 = range_loop f pairs s.
Proof.
  revert log s. induction pairs as [|[k v] rest IH]; intros log s; simpl; [done|].
  destruct (f k v s) as [[] s']; simpl; [apply IH | done].
Qed.

(** The invocations are made on a prefix of the pairs, in their order. *)
Lemma range_loop_traced_prefix f pairs log s :
  ∃ n, (range_loop (traced f) pairs (log, s)).1 = log ++ take n pairs.
Proof.
  revert log s. induction pairs as [|[k v] rest IH]; intros log s; simpl.
  - exists 0. by rewrite app_nil_r.
  - destruct (f k v s) as [[] s']; simpl.
    + destruct (IH (log ++ [(k, v)]) s') as [n Hn]. exists (S n).
      rewrite Hn. by rewrite <- app_assoc.
    + by exists 1.
Qed.

(** A visitor that never stops is shown every pair. *)
Lemma range_loop_traced_full f pairs log s :
  (∀ k v s, (f k v s).1 = true) →
  (range_loop (traced f) pairs (log, s)).1 = log ++ pairs.
Proof.
  intros Hf. revert log s. induction pairs as [|[k v] rest IH]; intros log s; simpl.
  - by rewrite app_nil_r.
  - specialize (Hf k v s). destruct (f k v s) as [c s']; simpl in *; subst c.
    rewrite IH. by rewrite <- app_assoc.
Qed.

(** A visitor that answers [false] at once is invoked on the first pair only. *)
Lemma range_loop_traced_stop f pairs s :
  (∀ k v, (f k v s).1 = false) →
  (range_loop (traced f) pairs ([], s)).1 = take 1 pairs.
Proof.
  intros Hf. destruct pairs as [|[k v] rest]; simpl; [done|].
  specialize (Hf k v). destruct (f k v s) as [c s']; simpl in *; by subst c.
Qed.

Lemma range_loop_traced1_keys (f : K → T → bool * T) pairs s :
  (∀ k, (f k s).1 = false) →
  (range_loop (λ key (_ : V) st, traced1 f key st) pairs ([], s)).1 = take 1 pairs.*1.
Proof.
  intros Hf. destruct pairs as [|[k v] rest]; simpl; [done|].
  specialize (Hf k). destruct (f k s) as [c s']; simpl in *; by subst c.
Qed.

Lemma range_loop_traced1_values (f : V → T → bool * T) pairs s :
  (∀ v, (f v s).1 = false) →
  (range_loop (λ (_ : K) value st, traced1 f value st) pairs ([], s)).1 = take 1 pairs.*2.
Proof.
  intros Hf. destruct pairs as [|[k v] rest]; simpl; [done|].
  specialize (Hf v). destruct (f v s) as [c s']; simpl in *; by subst c.
Qed.
End loops.

(** ** The derived operations, over any backend *)

Section derived.
Context {K V St : Type} `{Countable K} `{EqDecision V} `{Inhabited V}.
Import DefaultAbstractMap.

Variables (impl : MapOps K V St) (inv : St → Prop) (abs : St → gmap K V).
Hypothesis Himpl : Implements impl inv abs.

Lemma index_Some (m : gmap K V) key value :
  m !! key = Some value → GoMap.index m key = (value, true).
Proof. unfold GoMap.index. by intros ->. Qed.

Lemma index_None (m : gmap K V) key :
  m !! key = None → GoMap.index m key = (inhabitant, false).
Proof. unfold GoMap.index. by intros ->. Qed.

Lemma index_found (m : gmap K V) key :
  (GoMap.index m key).2 = bool_decide (is_Some (m !! key)).
Proof.
  unfold GoMap.index. by destruct (m !! key).
Qed.

Lemma for_each_Delete_abs keys s :
  inv s →
  ∃ s', for_each (impl_Delete impl) keys s = Ok ((), s') ∧ inv s' ∧
        abs s' = foldl (λ m key, delete key m) (abs s) keys.
Proof.
  revert s. induction keys as [|key keys IH]; intros s Hs; simpl.
  - by exists s.
  - destruct (Delete_abs _ _ _ Himpl s key Hs) as (s1 & E1 & Hs1 & A1).
    destruct (IH s1 Hs1) as (s2 & E2 & Hs2 & A2).
    exists s2. unfold bind. rewrite E1, E2, A2, A1. done.
Qed.

Lemma foldl_delete_lookup (keys : list K) (m : gmap K V) key :
  foldl (λ m key, delete key m) m keys !! key =
    if decide (key ∈ keys) then None else m !! key.
Proof.
  revert m. induction keys as [|k keys IH]; intros m; cbn [foldl].
  - rewrite decide_False; [done|]. by intros ?%elem_of_nil.
  - rewrite IH. destruct (decide (key ∈ keys)) as [Hin|Hin].
    + rewrite decide_True; [done|]. by right.
    + destruct (decide (k = key)) as [->|Hne].
      * rewrite lookup_delete_eq. rewrite decide_True; [done|]. by left.
      * rewrite lookup_delete_ne by done.
        rewrite decide_False; [done|]. by intros [?|?]%elem_of_cons.
Qed.

Lemma foldl_delete_all (pairs : list (K * V)) (m : gmap K V) :
  pairs ≡ₚ map_to_list m → foldl (λ m key, delete key m) m pairs.*1 = ∅.
Proof.
  intros Hp. apply map_eq. intros key. rewrite foldl_delete_lookup, lookup_empty.
  destruct (decide (key ∈ pairs.*1)) as [|Hnot]; [done|].
  destruct (m !! key) as [value|] eqn:E; [|done].
  exfalso. apply Hnot. apply list_elem_of_fmap. exists (key, value). split; [done|].
  rewrite Hp. by apply elem_of_map_to_list.
Qed.

Lemma length_pairs (pairs : list (K * V)) (m : gmap K V) :
  pairs ≡ₚ map_to_list m → length pairs = size m.
Proof. intros ->. by rewrite length_map_to_list. Qed.

(** [Clear] is the deletion, one by one, of the keys one full traversal
    shows, and it leaves the empty map. *)
Lemma Clear_abs s :
  inv s →
  ∃ pairs s1 s', pairs ≡ₚ map_to_list (abs s) ∧
    impl_Range impl (list K) (λ key _ keys, (true, keys ++ [key])) [] s
      = Ok (pairs.*1, s1) ∧
    for_each (impl_Delete impl) pairs.*1 s1 = Ok ((), s') ∧
    Clear impl s = Ok ((), s') ∧ inv s' ∧ abs s' = ∅.
Proof.
  intros Hs.
  destruct (Range_abs _ _ _ Himpl s Hs) as (pairs & s1 & Hp & Hs1 & A1 & R).
  destruct (for_each_Delete_abs pairs.*1 s1 Hs1) as (s' & E & Hs' & A').
  exists pairs, s1, s'. unfold Clear, bind.
  rewrite R, range_loop_collect_keys. simpl.
  repeat split; try done.
  rewrite A', A1. by apply foldl_delete_all.
Qed.

Lemma Len_abs s :
  inv s →
  ∃ s', Len impl s = Ok (size (abs s), s') ∧ inv s' ∧ abs s' = abs s.
Proof.
  intros Hs.
  destruct (Range_abs _ _ _ Himpl s Hs) as (pairs & s1 & Hp & Hs1 & A1 & R).
  exists s1. unfold Len. rewrite R, range_loop_count. simpl.
  by rewrite (length_pairs _ _ Hp).
Qed.

Lemma CompareAndSwap_hit s key old new :
  inv s → abs s !! key = Some old →
  ∃ s', CompareAndSwap impl key old new s = Ok (true, s') ∧
        impl_Store impl key new s = Ok ((), s') ∧ inv s' ∧
        abs s' = <[key := new]> (abs s).
Proof.
  intros Hs Hk.
  destruct (Store_abs _ _ _ Himpl s key new Hs) as (s' & E & Hs' & A).
  exists s'. unfold CompareAndSwap, bind, ret.
  rewrite (Load_abs _ _ _ Himpl s key Hs), (index_Some _ _ _ Hk). simpl.
  rewrite bool_decide_eq_true_2 by done. by rewrite E.
Qed.

Lemma CompareAndSwap_miss s key old new :
  inv s → abs s !! key ≠ Some old →
  CompareAndSwap impl key old new s = Ok (false, s).
Proof.
  intros Hs Hk. unfold CompareAndSwap, bind, ret.
  rewrite (Load_abs _ _ _ Himpl s key Hs). unfold GoMap.index.
  destruct (abs s !! key) as [cur|] eqn:E; simpl; [|done].
  rewrite bool_decide_eq_false_2; [done|]. congruence.
Qed.

Lemma CompareAndDelete_hit s key old :
  inv s → abs s !! key = Some old →
  ∃ s', CompareAndDelete impl key old s = Ok (true, s') ∧
        impl_Delete impl key s = Ok ((), s') ∧ inv s' ∧
        abs s' = delete key (abs s).
Proof.
  intros Hs Hk.
  destruct (Delete_abs _ _ _ Himpl s key Hs) as (s' & E & Hs' & A).
  exists s'. unfold CompareAndDelete, bind, ret.
  rewrite (Load_abs _ _ _ Himpl s key Hs), (index_Some _ _ _ Hk). simpl.
  rewrite bool_decide_eq_true_2 by done. by rewrite E.
Qed.

Lemma CompareAndDelete_miss s key old :
  inv s → abs s !! key ≠ Some old →
  CompareAndDelete impl key old s = Ok (false, s).
Proof.
  intros Hs Hk. unfold CompareAndDelete, bind, ret.
  rewrite (Load_abs _ _ _ Himpl s key Hs). unfold GoMap.index.
  destruct (abs s !! key) as [cur|] eqn:E; simpl; [|done].
  rewrite bool_decide_eq_false_2; [done|]. congruence.
Qed.

Lemma LoadAndDelete_abs s key :
  inv s →
  ∃ s', LoadAndDelete impl key s = Ok (GoMap.index (abs s) key, s') ∧ inv s' ∧
        abs s' = delete key (abs s).
Proof.
  intros Hs. unfold LoadAndDelete, bind, ret.
  rewrite (Load_abs _ _ _ Himpl s key Hs). unfold GoMap.index.
  destruct (abs s !! key) as [cur|] eqn:E; simpl.
  - destruct (Delete_abs _ _ _ Himpl s key Hs) as (s' & E' & Hs' & A).
    exists s'. by rewrite E'.
  - exists s. repeat split; try done. by rewrite delete_id.
Qed.

Lemma LoadOrStore_present s key value (w : V) :
  inv s → abs s !! key = Some w →
  LoadOrStore impl key value s = Ok ((w, true), s).
Proof.
  intros Hs Hk. unfold LoadOrStore, bind, ret.
  by rewrite (Load_abs _ _ _ Himpl s key Hs), (index_Some _ _ _ Hk).
Qed.

Lemma LoadOrStore_absent s key value :
  inv s → abs s !! key = None →
  ∃ s', LoadOrStore impl key value s = Ok ((value, false), s') ∧
        impl_Store impl key value s = Ok ((), s') ∧ inv s' ∧
        abs s' = <[key := value]> (abs s).
Proof.
  intros Hs Hk.
  destruct (Store_abs _ _ _ Himpl s key value Hs) as (s' & E & Hs' & A).
  exists s'. unfold LoadOrStore, bind, ret.
  rewrite (Load_abs _ _ _ Himpl s key Hs), (index_None _ _ Hk). simpl.
  by rewrite E.
Qed.

Lemma Swap_abs s key value :
  inv s →
  ∃ s', Swap impl key value s = Ok (GoMap.index (abs s) key, s') ∧
        impl_Store impl key value s = Ok ((), s') ∧ inv s' ∧
        abs s' = <[key := value]> (abs s).
Proof.
  intros Hs.
  destruct (Store_abs _ _ _ Himpl s key value Hs) as (s' & E & Hs' & A).
  exists s'. unfold Swap, bind, ret.
  rewrite (Load_abs _ _ _ Himpl s key Hs).
  destruct (GoMap.index (abs s) key) as [previous loaded]. by rewrite E.
Qed.

Lemma Keys_abs s :
  inv s →
  ∃ pairs s', pairs ≡ₚ map_to_list (abs s) ∧ inv s' ∧ abs s' = abs s ∧
    ∀ (T : Type) (f : K → T → bool * T) (t : T),
      Keys impl T f t s = Ok (range_loop (λ key _ t, f key t) pairs t, s').
Proof.
  intros Hs.
  destruct (Range_abs _ _ _ Himpl s Hs) as (pairs & s1 & Hp & Hs1 & A1 & R).
  exists pairs, s1. repeat split; try done. intros T f t. unfold Keys. apply R.
Qed.

Lemma Values_abs s :
  inv s →
  ∃ pairs s', pairs ≡ₚ map_to_list (abs s) ∧ inv s' ∧ abs s' = abs s ∧
    ∀ (T : Type) (f : V → T → bool * T) (t : T),
      Values impl T f t s = Ok (range_loop (λ _ value t, f value t) pairs t, s').
Proof.
  intros Hs.
  destruct (Range_abs _ _ _ Himpl s Hs) as (pairs & s1 & Hp & Hs1 & A1 & R).
  exists pairs, s1. repeat split; try done. intros T f t. unfold Values. apply R.
Qed.
End derived.

(** ** Sequences of calls *)

Section sequences.
Context {K V St : Type} `{Countable K} `{EqDecision V} `{Inhabited V}.
Import DefaultAbstractMap.

Lemma run_nil (am : AbstractMap K V St) s : run am [] s = Ok s.
Proof. done. Qed.

Lemma run_cons (am : AbstractMap K V St) op ops s :
  run am (op :: ops) s =
    match call am op s with
    | Ok (_, s') => run am ops s'
    | Panic msg => Panic msg
    end.
Proof. unfold run. simpl. unfold bind. by destruct (call am op s) as [[[] s']|]. Qed.

Lemma run_app (am : AbstractMap K V St) ops1 ops2 s :
  run am (ops1 ++ ops2) s =
    match run am ops1 s with
    | Ok s' => run am ops2 s'
    | Panic msg => Panic msg
    end.
Proof.
  revert s. induction ops1 as [|op ops1 IH]; intros s; [done|].
  rewrite <- app_comm_cons, !run_cons.
  destruct (call am op s) as [[[] s']|]; [apply IH | done].
Qed.

Lemma model_run_app (ops1 ops2 : list (Op K V)) (m : gmap K V) :
  model_run (ops1 ++ ops2) m = model_run ops2 (model_run ops1 m).
Proof. apply foldl_app. Qed.

Lemma model_call_keeps (op : Op K V) (m : gmap K V) key value :
  keeps key op = true → m !! key = Some value →
  model_call op m !! key = Some value.
Proof.
  intros Hop Hm. destruct op; simpl in *; try done;
    try (apply bool_decide_eq_true_1 in Hop).
  - case_bool_decide; [by rewrite lookup_delete_ne | done].
  - case_bool_decide; [by rewrite lookup_insert_ne | done].
  - by rewrite lookup_delete_ne.
  - by rewrite lookup_delete_ne.
  - destruct (m !! key0) eqn:E; [done|].
    rewrite lookup_insert_ne; [done|]. congruence.
  - by rewrite lookup_insert_ne.
  - by rewrite lookup_insert_ne.
Qed.

Lemma model_run_keeps (ops : list (Op K V)) (m : gmap K V) key value :
  forallb (keeps key) ops = true → m !! key = Some value →
  model_run ops m !! key = Some value.
Proof.
  revert m. induction ops as [|op ops IH]; intros m Hops Hm; [done|].
  simpl in Hops. apply andb_prop in Hops as [Hop Hops].
  apply IH; [done|]. by apply model_call_keeps.
Qed.

Variables (d : Declared K V St) (inv : St → Prop) (abs : St → gmap K V).
Hypothesis Himpl : Implements (NewDefaultAbstractMap d) inv abs.
Hypothesis HLen : ∀ s, inv s →
  ∃ s', am_Len (method_set d) s = Ok (size (abs s), s') ∧ inv s' ∧ abs s' = abs s.

Lemma call_abs op s :
  inv s →
  ∃ s', call (method_set d) op s = Ok ((), s') ∧ inv s' ∧
        abs s' = model_call op (abs s).
Proof.
  intros Hs. destruct op; cbn [call method_set am_Clear am_CompareAndDelete
    am_CompareAndSwap am_Delete am_Load am_LoadAndDelete am_LoadOrStore
    am_Range am_Keys am_Values am_Store am_Swap model_call].
  - destruct (Clear_abs _ _ _ Himpl s Hs) as (? & ? & s' & _ & _ & _ & E & ? & ?).
    by exists s'.
  - unfold bind, ret. case_bool_decide as Hk.
    + destruct (CompareAndDelete_hit _ _ _ Himpl s key old Hs Hk) as (s' & E & _ & ? & ?).
      exists s'. by rewrite E.
    + rewrite (CompareAndDelete_miss _ _ _ Himpl s key old Hs Hk). by exists s.
  - unfold bind, ret. case_bool_decide as Hk.
    + destruct (CompareAndSwap_hit _ _ _ Himpl s key old new Hs Hk) as (s' & E & _ & ? & ?).
      exists s'. by rewrite E.
    + rewrite (CompareAndSwap_miss _ _ _ Himpl s key old new Hs Hk). by exists s.
  - apply (Delete_abs _ _ _ Himpl s key Hs).
  - unfold bind, ret. destruct (HLen s Hs) as (s' & E & ? & ?).
    exists s'. by rewrite E.
  - unfold bind, ret. rewrite (Load_abs _ _ _ Himpl s key Hs). by exists s.
  - unfold bind, ret.
    destruct (LoadAndDelete_abs _ _ _ Himpl s key Hs) as (s' & E & ? & ?).
    exists s'. by rewrite E.
  - unfold bind, ret. destruct (abs s !! key) as [w|] eqn:Hk.
    + rewrite (LoadOrStore_present _ _ _ Himpl s key value w Hs Hk). by exists s.
    + destruct (LoadOrStore_absent _ _ _ Himpl s key value Hs Hk) as (s' & E & _ & ? & ?).
      exists s'. by rewrite E.
  - destruct (Range_abs _ _ _ Himpl s Hs) as (pairs & s' & _ & ? & ? & R).
    exists s'. rewrite R. by destruct (range_loop _ pairs ()).
  - destruct (Keys_abs _ _ _ Himpl s Hs) as (pairs & s' & _ & ? & ? & R).
    exists s'. rewrite R. by destruct (range_loop _ pairs ()).
  - destruct (Values_abs _ _ _ Himpl s Hs) as (pairs & s' & _ & ? & ? & R).
    exists s'. rewrite R. by destruct (range_loop _ pairs ()).
  - apply (Store_abs _ _ _ Himpl s key value Hs).
  - unfold bind, ret.
    destruct (Swap_abs _ _ _ Himpl s key value Hs) as (s' & E & _ & ? & ?).
    exists s'. by rewrite E.
Qed.

Lemma run_abs ops s :
  inv s →
  ∃ s', run (method_set d) ops s = Ok s' ∧ inv s' ∧
        abs s' = model_run ops (abs s).
Proof.
  revert s. induction ops as [|op ops IH]; intros s Hs.
  - by exists s.
  - destruct (call_abs op s Hs) as (s1 & E1 & Hs1 & A1).
    destruct (IH s1 Hs1) as (s2 & E2 & Hs2 & A2).
    exists s2. rewrite run_cons, E1, E2, A2, A1. done.
Qed.
End sequences.

(** ** UnorderedMap implements the finite map it holds *)

Section unordered.
Context {K V : Type} `{Countable K} `{EqDecision V} `{Inhabited V}.
Context `{!GoMap.Iteration K V}.
Import DefaultAbstractMap.

Lemma UnorderedMap_Implements :
  Implements (UnorderedMap.impl (K:=K) (V:=V)) (λ _, True) UnorderedMap.m.
Proof.
  split.
  - intros s key _. done.
  - intros s key value _. eexists. by repeat split.
  - intros s key _. eexists. by repeat split.
  - intros s _.
    exists (GoMap.range_order (UnorderedMap.ranges s) (UnorderedMap.m s)).
    exists {| UnorderedMap.m := UnorderedMap.m s;
              UnorderedMap.ranges := UnorderedMap.ranges s + 1 |}.
    split; [apply GoMap.range_order_perm|]. by repeat split.
Qed.

Lemma UnorderedMap_Len_abs (s : UnorderedMap.t K V) :
  True →
  ∃ s', am_Len UnorderedMap.methods s = Ok (size (UnorderedMap.m s), s') ∧ True ∧
        UnorderedMap.m s' = UnorderedMap.m s.
Proof. intros _. by exists s. Qed.
End unordered.

(** ** The association lists of the ordered model *)

Section assoc.
Context {K V : Type} `{Countable K} `{EqDecision V}.
Implicit Types (pairs : list (K * V)).

Lemma assoc_store_absent key value pairs :
  key ∉ pairs.*1 → assoc_store key value pairs = pairs ++ [(key, value)].
Proof.
  induction pairs as [|[k v] rest IH]; intros Hk; simpl; [done|].
  rewrite fmap_cons, not_elem_of_cons in Hk. destruct Hk as [Hne Hk].
  rewrite decide_False by done. by rewrite IH.
Qed.

Lemma assoc_store_keys_present key value pairs :
  key ∈ pairs.*1 → (assoc_store key value pairs).*1 = pairs.*1.
Proof.
  induction pairs as [|[k v] rest IH]; intros Hk; simpl.
  - by apply elem_of_nil in Hk.
  - destruct (decide (k = key)) as [->|Hne]; [done|].
    simpl. f_equal. apply IH. rewrite fmap_cons, elem_of_cons in Hk.
    by destruct Hk as [->|].
Qed.

Lemma assoc_delete_keys key pairs :
  (assoc_delete key pairs).*1 = filter (λ k, k ≠ key) pairs.*1.
Proof.
  unfold assoc_delete. induction pairs as [|[k v] rest IH]; [done|].
  rewrite fmap_cons, !filter_cons. cbn [fst].
  destruct (decide (k ≠ key)); [rewrite fmap_cons; cbn [fst]|]; by rewrite IH.
Qed.

Lemma assoc_delete_absent key pairs :
  key ∉ pairs.*1 → assoc_delete key pairs = pairs.
Proof.
  unfold assoc_delete. induction pairs as [|[k v] rest IH]; intros Hk; [done|].
  rewrite fmap_cons, not_elem_of_cons in Hk. destruct Hk as [Hne Hk].
  rewrite filter_cons. cbn [fst]. rewrite decide_True by done. by rewrite IH.
Qed.

Lemma list_to_map_assoc_store key value pairs :
  list_to_map (assoc_store key value pairs) =@{gmap K V} <[key := value]> (list_to_map pairs).
Proof.
  induction pairs as [|[k v] rest IH]; simpl; [done|].
  destruct (decide (k = key)) as [->|Hne]; simpl.
  - by rewrite insert_insert_eq.
  - rewrite IH. by apply insert_insert_ne.
Qed.

Lemma list_to_map_assoc_delete key pairs :
  list_to_map (assoc_delete key pairs) =@{gmap K V} delete key (list_to_map pairs).
Proof.
  unfold assoc_delete. induction pairs as [|[k v] rest IH]; simpl.
  - by rewrite delete_empty.
  - rewrite filter_cons. cbn [fst]. destruct (decide (k ≠ key)) as [Hne|Heq]; simpl.
    + rewrite IH. by rewrite delete_insert_ne.
    + apply dec_stable in Heq. subst k. rewrite IH. by rewrite delete_insert_eq.
Qed.

Lemma list_to_map_empty_inv pairs :
  list_to_map pairs =@{gmap K V} ∅ → pairs = [].
Proof.
  destruct pairs as [|[k v] rest]; [done|]. simpl. intros E.
  by apply insert_non_empty in E.
Qed.
End assoc.

(** ** The list of an ordered map *)

Section entries.
Context {K V : Type} `{Countable K} `{EqDecision V} `{Inhabited V}.
Import OrderedMap.
Implicit Types (cells : gmap List_.Element (entry K V)) (elements : list List_.Element).

Lemma entries_of_cons cells element elements :
  entries_of cells (element :: elements) =
    match cells !! element with
    | Some en => (key en, value en) :: entries_of cells elements
    | None => entries_of cells elements
    end.
Proof. unfold entries_of. simpl. by destruct (cells !! element). Qed.

Lemma elem_of_entries_of cells elements p :
  p ∈ entries_of cells elements ↔
  ∃ element en, element ∈ elements ∧ cells !! element = Some en ∧ p = (key en, value en).
Proof.
  unfold entries_of. rewrite list_elem_of_omap. split.
  - intros (element & Hin & E). destruct (cells !! element) as [en|] eqn:C; [|done].
    simpl in E. exists element, en. by simplify_eq.
  - intros (element & en & Hin & C & ->). exists element. by rewrite C.
Qed.

Lemma entries_of_insert_fresh cells elements element en :
  element ∉ elements →
  entries_of (<[element := en]> cells) elements = entries_of cells elements.
Proof.
  induction elements as [|a rest IH]; intros Hnot; [done|].
  apply not_elem_of_cons in Hnot as [Hne Hnot].
  rewrite !entries_of_cons, lookup_insert_ne by done. by rewrite IH.
Qed.

Lemma entries_of_snoc cells elements element en :
  element ∉ elements →
  entries_of (<[element := en]> cells) (elements ++ [element]) =
    entries_of cells elements ++ [(key en, value en)].
Proof.
  intros Hnot. unfold entries_of at 1. rewrite omap_app.
  fold (entries_of (<[element := en]> cells) elements).
  rewrite entries_of_insert_fresh by done. simpl. by rewrite lookup_insert_eq.
Qed.

Lemma keyed_tail cells a rest : keyed cells (a :: rest) → keyed cells rest.
Proof.
  intros Hk e1 e2 en1 en2 H1 H2. apply Hk; by right.
Qed.

Lemma entries_of_set_value cells elements element en v :
  NoDup elements → keyed cells elements →
  element ∈ elements → cells !! element = Some en →
  entries_of (<[element := {| key := key en; value := v |}]> cells) elements =
    assoc_store (key en) v (entries_of cells elements).
Proof.
  induction elements as [|a rest IH]; intros Hnd Hk Hin C.
  - by apply elem_of_nil in Hin.
  - apply NoDup_cons in Hnd as [Ha Hnd]. rewrite !entries_of_cons.
    destruct (decide (a = element)) as [->|Hne].
    + rewrite lookup_insert_eq, C. simpl. rewrite decide_True by done.
      by rewrite entries_of_insert_fresh.
    + rewrite lookup_insert_ne by done.
      apply elem_of_cons in Hin as [?|Hin]; [congruence|].
      destruct (cells !! a) as [ena|] eqn:Ca.
      * simpl. rewrite decide_False.
        { f_equal. apply IH; [done|by eapply keyed_tail|done..]. }
        intros Heq. apply Hne. eapply (Hk a element ena en); [by left|by right|done..].
      * apply IH; [done|by eapply keyed_tail|done..].
Qed.

Lemma entries_of_remove cells elements element en :
  cells !! element = Some en →
  (∀ a ena, a ∈ elements → cells !! a = Some ena → key ena = key en → a = element) →
  entries_of cells (filter (λ e', e' ≠ element) elements) =
    assoc_delete (key en) (entries_of cells elements).
Proof.
  intros C. induction elements as [|a rest IH]; intros Hk; [done|].
  rewrite filter_cons, entries_of_cons.
  assert (IH' : entries_of cells (filter (λ e', e' ≠ element) rest) =
                assoc_delete (key en) (entries_of cells rest)).
  { apply IH. intros a' ena' Hin. apply Hk. by right. }
  destruct (decide (a ≠ element)) as [Hne|Heq].
  - rewrite entries_of_cons. destruct (cells !! a) as [ena|] eqn:Ca; [|done].
    unfold assoc_delete. rewrite filter_cons. cbn [fst].
    rewrite decide_True.
    { f_equal. apply IH'. }
    intros Heq. apply Hne. eapply Hk; [by left|done..].
  - apply dec_stable in Heq. subst a. rewrite C.
    unfold assoc_delete. rewrite filter_cons. cbn [fst].
    rewrite decide_False by (intros ?; done). apply IH'.
Qed.

Lemma entries_of_keys_NoDup cells elements :
  NoDup elements → keyed cells elements → NoDup (entries_of cells elements).*1.
Proof.
  induction elements as [|a rest IH]; intros Hnd Hk; [constructor|].
  apply NoDup_cons in Hnd as [Ha Hnd]. rewrite entries_of_cons.
  destruct (cells !! a) as [ena|] eqn:Ca; [|apply IH; [done|by eapply keyed_tail]].
  rewrite fmap_cons. apply NoDup_cons. split; [|apply IH; [done|by eapply keyed_tail]].
  cbn [fst]. intros Hin. apply list_elem_of_fmap in Hin as ([k v] & Ek & Hin).
  simpl in Ek. subst k.
  apply elem_of_entries_of in Hin as (e' & en' & Hin' & C' & E'). simplify_eq.
  apply Ha. replace a with e'; [done|].
  eapply (Hk e' a en' ena); [by right|by left|done..].
Qed.

Lemma Range_loop_entries {T : Type} (f : visitor K V T) (lst : List_.t (entry K V)) elements t :
  (∀ element, element ∈ elements → is_Some (List_.Value element lst)) →
  Range_loop f lst elements t = Ok (range_loop f (entries_of (List_.cells lst) elements) t).
Proof.
  revert t. induction elements as [|a rest IH]; intros t Hall; [done|].
  rewrite entries_of_cons. cbn [Range_loop].
  destruct (Hall a) as [ena Ca]; [by left|].
  unfold List_.Value in *. rewrite Ca. cbn [range_loop].
  destruct (f (key ena) (value ena) t) as [[] t']; [|done].
  apply IH. intros e He. apply Hall. by right.
Qed.
End entries.

(** ** The primitives of OrderedMap *)

Section ordered.
Context {K V : Type} `{Countable K} `{EqDecision V} `{Inhabited V}.
Import OrderedMap.
Implicit Types (om : OrderedMap.t K V).

Lemma inv_New : inv (NewOrderedMap (K:=K) (V:=V)).
Proof.
  split; simpl.
  - constructor.
  - intros k element E. by rewrite lookup_empty in E.
  - intros element Hin. by apply elem_of_nil in Hin.
Qed.

Lemma inv_keyed om : inv om → keyed (List_.cells (l om)) (List_.order (l om)).
Proof.
  intros Hinv e1 e2 en1 en2 H1 H2 C1 C2 Hkey.
  destruct (inv_list om Hinv e1 H1) as (en1' & C1' & M1).
  destruct (inv_list om Hinv e2 H2) as (en2' & C2' & M2).
  unfold List_.Value in *. simplify_eq. congruence.
Qed.

Lemma inv_keys_NoDup om : inv om → NoDup (entries om).*1.
Proof.
  intros Hinv. apply entries_of_keys_NoDup; [apply (inv_NoDup om Hinv)|by apply inv_keyed].
Qed.

Lemma elem_of_entries om k v :
  inv om →
  (k, v) ∈ entries om ↔
  ∃ element en, m om !! k = Some element ∧
    List_.Value element (l om) = Some en ∧ key en = k ∧ value en = v.
Proof.
  intros Hinv. unfold entries. rewrite elem_of_entries_of. split.
  - intros (element & en & Hin & C & E). simplify_eq.
    destruct (inv_list om Hinv element Hin) as (en' & C' & M').
    unfold List_.Value in *. simplify_eq. by exists element, en.
  - intros (element & en & M' & C & <- & <-).
    destruct (inv_index om Hinv _ _ M') as (Hin & _). by exists element, en.
Qed.

Lemma abs_lookup_Some om k element en :
  inv om → m om !! k = Some element → List_.Value element (l om) = Some en →
  abs om !! k = Some (value en).
Proof.
  intros Hinv M' C. unfold abs.
  apply elem_of_list_to_map_1; [by apply inv_keys_NoDup|].
  apply elem_of_entries; [done|]. exists element, en. repeat split; try done.
  destruct (inv_index om Hinv _ _ M') as (_ & en' & C' & Hk). congruence.
Qed.

Lemma abs_lookup_None om k :
  inv om → m om !! k = None → abs om !! k = None.
Proof.
  intros Hinv M'. unfold abs. apply not_elem_of_list_to_map_1.
  intros Hin. apply list_elem_of_fmap in Hin as ([k' v] & E & Hin). simpl in E. subst k'.
  apply elem_of_entries in Hin as (element & en & M'' & _); [congruence|done].
Qed.

Lemma abs_dom om k : inv om → is_Some (abs om !! k) ↔ is_Some (m om !! k).
Proof.
  intros Hinv. destruct (m om !! k) as [element|] eqn:M'.
  - destruct (inv_index om Hinv _ _ M') as (_ & en & C & _).
    rewrite (abs_lookup_Some om k element en) by done. split; eauto.
  - rewrite abs_lookup_None by done. done.
Qed.

Lemma OrderedMap_Load_abs om k :
  inv om → Load k om = Ok (GoMap.index (abs om) k, om).
Proof.
  intros Hinv. unfold Load. destruct (m om !! k) as [element|] eqn:M'.
  - destruct (inv_index om Hinv _ _ M') as (_ & en & C & _).
    rewrite C. by rewrite (index_Some _ _ _ (abs_lookup_Some om k element en Hinv M' C)).
  - by rewrite (index_None _ _ (abs_lookup_None om k Hinv M')).
Qed.

Lemma OrderedMap_Range_entries om (T : Type) (f : visitor K V T) (t : T) :
  inv om → Range T f t om = Ok (range_loop f (entries om) t, om).
Proof.
  intros Hinv. unfold Range. rewrite Range_loop_entries; [done|].
  intros element Hin. destruct (inv_list om Hinv element Hin) as (en & C & _). eauto.
Qed.

Lemma fresh_not_linked om :
  inv om → fresh (dom (List_.cells (l om))) ∉ List_.order (l om).
Proof.
  intros Hinv Hin. destruct (inv_list om Hinv _ Hin) as (en & C & _).
  apply (is_fresh (dom (List_.cells (l om)))). apply elem_of_dom. eauto.
Qed.

Lemma OrderedMap_Store_entries om k v :
  inv om →
  ∃ om', Store k v om = Ok ((), om') ∧ inv om' ∧
         entries om' = assoc_store k v (entries om).
Proof.
  intros Hinv. unfold Store. destruct (m om !! k) as [element|] eqn:M'.
  - destruct (inv_index om Hinv _ _ M') as (Hin & en & C & Hk).
    rewrite C. eexists. split; [done|]. unfold List_.Value in *. split.
    + split; simpl.
      * apply (inv_NoDup om Hinv).
      * intros k' e' M''. destruct (inv_index om Hinv _ _ M'') as (Hin' & en' & C' & Hk').
        split; [done|]. unfold List_.Value in *. simpl.
        destruct (decide (e' = element)) as [->|Hne].
        -- rewrite lookup_insert_eq. eexists. split; [done|]. simpl. congruence.
        -- rewrite lookup_insert_ne by done. eauto.
      * intros e' Hin'. destruct (inv_list om Hinv _ Hin') as (en' & C' & M'').
        unfold List_.Value in *. simpl.
        destruct (decide (e' = element)) as [->|Hne].
        -- rewrite lookup_insert_eq. eexists. split; [done|]. simpl. congruence.
        -- rewrite lookup_insert_ne by done. eauto.
    + unfold entries. simpl. subst k.
      apply entries_of_set_value; [apply (inv_NoDup om Hinv)|by apply inv_keyed|done..].
  - unfold List_.PushBack.
    set (element := fresh (dom (List_.cells (l om)))).
    assert (Hfresh : element ∉ List_.order (l om)) by by apply fresh_not_linked.
    assert (Hcell : List_.cells (l om) !! element = None).
    { apply not_elem_of_dom. apply is_fresh. }
    eexists. split; [done|]. split.
    + split; simpl.
      * apply NoDup_app. split; [apply (inv_NoDup om Hinv)|]. split.
        -- intros e' Hin' ->%list_elem_of_singleton. done.
        -- apply NoDup_singleton.
      * intros k' e'. unfold List_.Value. simpl.
        destruct (decide (k' = k)) as [->|Hne].
        -- rewrite lookup_insert_eq. intros [= <-]. split.
           ++ apply elem_of_app. right. by apply list_elem_of_singleton.
           ++ rewrite lookup_insert_eq. by eexists.
        -- rewrite lookup_insert_ne by done. intros M''.
           destruct (inv_index om Hinv _ _ M'') as (Hin' & en' & C' & Hk').
           split; [apply elem_of_app; by left|].
           unfold List_.Value in *. rewrite lookup_insert_ne; [eauto|].
           intros <-. congruence.
      * intros e' Hin'. unfold List_.Value. simpl.
        apply elem_of_app in Hin' as [Hin'| ->%list_elem_of_singleton].
        -- destruct (inv_list om Hinv _ Hin') as (en' & C' & M'').
           unfold List_.Value in *.
           rewrite lookup_insert_ne by (intros <-; congruence).
           exists en'. split; [done|]. rewrite lookup_insert_ne; [done|].
           intros E. rewrite E in M'. congruence.
        -- rewrite lookup_insert_eq. eexists. split; [done|]. simpl.
           by rewrite lookup_insert_eq.
    + unfold entries. simpl. rewrite entries_of_snoc by done. simpl.
      rewrite assoc_store_absent; [done|].
      intros Hin. apply list_elem_of_fmap in Hin as ([k' v'] & E & Hin). simpl in E. subst k'.
      apply elem_of_entries in Hin as (e' & en' & M'' & _); [congruence|done].
Qed.

Lemma OrderedMap_Delete_entries om k :
  inv om →
  ∃ om', Delete k om = Ok ((), om') ∧ inv om' ∧
         entries om' = assoc_delete k (entries om).
Proof.
  intros Hinv. unfold Delete. destruct (m om !! k) as [element|] eqn:M'.
  - destruct (inv_index om Hinv _ _ M') as (Hin & en & C & Hk).
    eexists. split; [done|]. unfold List_.Value in *. split.
    + split; simpl.
      * apply NoDup_filter, (inv_NoDup om Hinv).
      * intros k' e' M''. apply lookup_delete_Some in M'' as [Hne M''].
        destruct (inv_index om Hinv _ _ M'') as (Hin' & en' & C' & Hk').
        split; [|eauto]. apply list_elem_of_filter. split; [|done].
        intros ->. unfold List_.Value in *. congruence.
      * intros e' [Hne Hin']%list_elem_of_filter.
        destruct (inv_list om Hinv _ Hin') as (en' & C' & M'').
        exists en'. split; [done|]. rewrite lookup_delete_ne; [done|].
        intros E. rewrite E in M'. congruence.
    + unfold entries. simpl. subst k. apply entries_of_remove; [done|].
      intros a ena Ha Ca Hkey.
      destruct (inv_list om Hinv _ Ha) as (ena' & Ca' & Ma).
      unfold List_.Value in *. simplify_eq. congruence.
  - exists om. split; [done|]. split; [done|].
    rewrite assoc_delete_absent; [done|].
    intros Hin. apply list_elem_of_fmap in Hin as ([k' v'] & E & Hin). simpl in E. subst k'.
    apply elem_of_entries in Hin as (e' & en' & M'' & _); [congruence|done].
Qed.

(** The index has as many keys as the list has elements. *)
Lemma inv_size om : inv om → size (m om) = length (List_.order (l om)).
Proof.
  intros Hinv.
  assert (Hlen : length (entries om) = length (List_.order (l om))).
  { unfold entries. generalize (inv_list om Hinv).
    induction (List_.order (l om)) as [|a rest IH]; intros Hall; [done|].
    rewrite entries_of_cons. destruct (Hall a) as (en & C & _); [by left|].
    unfold List_.Value in C. rewrite C. simpl. f_equal. apply IH.
    intros e He. apply Hall. by right. }
  rewrite <- Hlen, <- (length_fmap fst), <- size_dom.
  unfold size, set_size. simpl. apply Permutation_length, NoDup_Permutation.
  - apply NoDup_elements.
  - by apply inv_keys_NoDup.
  - intros k. rewrite elem_of_elements, elem_of_dom, <- abs_dom by done.
    unfold abs. rewrite <- elem_of_dom, dom_list_to_map_L, elem_of_list_to_set. done.
Qed.

Lemma abs_size om : inv om → size (abs om) = size (m om).
Proof.
  intros Hinv. rewrite <- !size_dom. f_equal. apply set_eq. intros k.
  rewrite !elem_of_dom. by apply abs_dom.
Qed.

Lemma OrderedMap_Implements :
  Implements (OrderedMap.impl (K:=K) (V:=V)) inv abs.
Proof.
  split.
  - intros om k Hinv. by apply OrderedMap_Load_abs.
  - intros om k v Hinv.
    destruct (OrderedMap_Store_entries om k v Hinv) as (om' & E & Hinv' & En).
    exists om'. split; [done|]. split; [done|].
    unfold abs. rewrite En. apply list_to_map_assoc_store.
  - intros om k Hinv.
    destruct (OrderedMap_Delete_entries om k Hinv) as (om' & E & Hinv' & En).
    exists om'. split; [done|]. split; [done|].
    unfold abs. rewrite En. apply list_to_map_assoc_delete.
  - intros om Hinv. exists (entries om), om.
    split; [|split; [done|split; [done|]]].
    + unfold abs. symmetry. apply map_to_list_to_map. by apply inv_keys_NoDup.
    + intros T f t. by apply OrderedMap_Range_entries.
Qed.

Lemma OrderedMap_Len_abs om :
  inv om →
  ∃ om', DefaultAbstractMap.am_Len OrderedMap.methods om = Ok (size (abs om), om') ∧
         inv om' ∧ abs om' = abs om.
Proof.
  intros Hinv. exists om. split; [|done].
  simpl. unfold Len. by rewrite abs_size.
Qed.
End ordered.

(** ** Every call on an OrderedMap, on the sequence of its pairs *)

Section ordered_calls.
Context {K V : Type} `{Countable K} `{EqDecision V} `{Inhabited V}.
Import DefaultAbstractMap OrderedMap.
Implicit Types (om : OrderedMap.t K V).

Lemma impl_Store_entries om k v om' :
  inv om → impl_Store OrderedMap.impl k v om = Ok ((), om') →
  entries om' = assoc_store k v (entries om).
Proof.
  intros Hinv E. destruct (OrderedMap_Store_entries om k v Hinv) as (om'' & E' & _ & En).
  change (Store k v om = Ok ((), om')) in E. congruence.
Qed.

Lemma impl_Delete_entries om k om' :
  inv om → impl_Delete OrderedMap.impl k om = Ok ((), om') →
  entries om' = assoc_delete k (entries om).
Proof.
  intros Hinv E. destruct (OrderedMap_Delete_entries om k Hinv) as (om'' & E' & _ & En).
  change (Delete k om = Ok ((), om')) in E. congruence.
Qed.

Lemma elem_of_entries_abs om k v :
  inv om → (k, v) ∈ entries om ↔ abs om !! k = Some v.
Proof.
  intros Hinv. unfold abs. apply elem_of_list_to_map. by apply inv_keys_NoDup.
Qed.

Lemma elem_of_keys_abs om k :
  inv om → k ∈ (entries om).*1 ↔ is_Some (abs om !! k).
Proof.
  intros Hinv. unfold abs.
  rewrite <- elem_of_dom, dom_list_to_map_L, elem_of_list_to_set. done.
Qed.

Lemma OrderedMap_call_entries op om :
  inv om →
  ∃ om', call OrderedMap.methods op om = Ok ((), om') ∧ inv om' ∧
         entries om' = order_call op (entries om).
Proof.
  intros Hinv. pose proof (OrderedMap_Implements (K:=K) (V:=V)) as Himpl.
  unfold impl in Himpl.
  destruct op as [|k old|k old new|k| |k|k|k v|f|f|f|k v|k v];
    cbn [call methods method_set am_Clear am_CompareAndDelete
    am_CompareAndSwap am_Delete am_Len am_Load am_LoadAndDelete am_LoadOrStore
    am_Range am_Keys am_Values am_Store am_Swap order_call].
  - destruct (Clear_abs _ _ _ Himpl om Hinv) as (? & ? & om' & _ & _ & _ & E & Hinv' & A).
    exists om'. split; [done|]. split; [done|]. by apply list_to_map_empty_inv.
  - unfold bind, ret. case_bool_decide as Hk; rewrite elem_of_entries_abs in Hk by done.
    + destruct (CompareAndDelete_hit _ _ _ Himpl om k old Hinv Hk) as (om' & E & ED & ? & ?).
      exists om'. rewrite E. split; [done|]. split; [done|]. by eapply impl_Delete_entries.
    + rewrite (CompareAndDelete_miss _ _ _ Himpl om k old Hinv Hk). by exists om.
  - unfold bind, ret. case_bool_decide as Hk; rewrite elem_of_entries_abs in Hk by done.
    + destruct (CompareAndSwap_hit _ _ _ Himpl om k old new Hinv Hk) as (om' & E & ES & ? & ?).
      exists om'. rewrite E. split; [done|]. split; [done|]. by eapply impl_Store_entries.
    + rewrite (CompareAndSwap_miss _ _ _ Himpl om k old new Hinv Hk). by exists om.
  - apply (OrderedMap_Delete_entries om k Hinv).
  - exists om. done.
  - unfold bind, ret.
    change (impl_Load (NewDefaultAbstractMap declared) k om) with (Load k om).
    rewrite OrderedMap_Load_abs by done. by exists om.
  - unfold bind, ret, LoadAndDelete, bind, ret.
    change (impl_Load (NewDefaultAbstractMap declared) k om) with (Load k om).
    rewrite OrderedMap_Load_abs by done.
    destruct (GoMap.index (abs om) k) as [cur []] eqn:EL.
    + destruct (OrderedMap_Delete_entries om k Hinv) as (om' & E & ? & ?).
      change (impl_Delete (NewDefaultAbstractMap declared) k om) with (Delete k om).
      rewrite E. by exists om'.
    + exists om. split; [done|]. split; [done|].
      rewrite assoc_delete_absent; [done|]. rewrite elem_of_keys_abs by done.
      unfold GoMap.index in EL. destruct (abs om !! k); [done|]. by intros [? ?].
  - unfold bind, ret. case_bool_decide as Hk; rewrite elem_of_keys_abs in Hk by done.
    + destruct Hk as [w Hk].
      rewrite (LoadOrStore_present _ _ _ Himpl om k v w Hinv Hk). by exists om.
    + assert (Hk' : abs om !! k = None).
      { destruct (abs om !! k) eqn:E; [|done]. exfalso. apply Hk. eauto. }
      destruct (LoadOrStore_absent _ _ _ Himpl om k v Hinv Hk') as (om' & E & ES & ? & ?).
      exists om'. rewrite E. split; [done|]. split; [done|]. by eapply impl_Store_entries.
  - exists om. split; [|done].
    change (Range unit (λ k v s, (f k v, s)) () om = Ok ((), om)).
    rewrite OrderedMap_Range_entries by done. by destruct (range_loop _ _ _).
  - exists om. split; [|done]. unfold Keys.
    change (Range unit (λ k (_ : V) s, (f k, s)) () om = Ok ((), om)).
    rewrite OrderedMap_Range_entries by done. by destruct (range_loop _ _ _).
  - exists om. split; [|done]. unfold Values.
    change (Range unit (λ (_ : K) v s, (f v, s)) () om = Ok ((), om)).
    rewrite OrderedMap_Range_entries by done. by destruct (range_loop _ _ _).
  - apply (OrderedMap_Store_entries om k v Hinv).
  - unfold bind, ret.
    destruct (Swap_abs _ _ _ Himpl om k v Hinv) as (om' & E & ES & ? & ?).
    exists om'. rewrite E. split; [done|]. split; [done|]. by eapply impl_Store_entries.
Qed.

Lemma order_run_app (ops1 ops2 : list (Op K V)) pairs :
  order_run (ops1 ++ ops2) pairs = order_run ops2 (order_run ops1 pairs).
Proof. apply foldl_app. Qed.

Lemma OrderedMap_run_entries ops om :
  inv om →
  ∃ om', run OrderedMap.methods ops om = Ok om' ∧ inv om' ∧
         entries om' = order_run ops (entries om).
Proof.
  revert om. induction ops as [|op ops IH]; intros om Hinv.
  - by exists om.
  - destruct (OrderedMap_call_entries op om Hinv) as (om1 & E1 & Hinv1 & En1).
    destruct (IH om1 Hinv1) as (om2 & E2 & Hinv2 & En2).
    exists om2. rewrite run_cons, E1, E2, En2, En1. done.
Qed.
End ordered_calls.

(** ** The laws of the derived operations, told by what [Load] answers *)

Section laws.
Context {K V St : Type} `{Countable K} `{EqDecision V} `{Inhabited V}.
Import DefaultAbstractMap.
Variables (d : Declared K V St) (inv : St → Prop) (abs : St → gmap K V).
Local Abbreviation impl := (NewDefaultAbstractMap d).
Hypothesis Himpl : Implements impl inv abs.

Lemma index_inv_true (m : gmap K V) key value :
  GoMap.index m key = (value, true) → m !! key = Some value.
Proof. unfold GoMap.index. destruct (m !! key); naive_solver. Qed.

Lemma index_inv_false (m : gmap K V) key value :
  GoMap.index m key = (value, false) → m !! key = None ∧ value = inhabitant.
Proof. unfold GoMap.index. destruct (m !! key); naive_solver. Qed.

Lemma Load_true_abs s key value :
  inv s → impl_Load impl key s = Ok ((value, true), s) ↔ abs s !! key = Some value.
Proof.
  intros Hs. rewrite (Load_abs _ _ _ Himpl s key Hs). split.
  - intros [= E]. by apply index_inv_true.
  - intros E. by rewrite (index_Some _ _ _ E).
Qed.

Lemma Load_false_abs s key value :
  inv s → impl_Load impl key s = Ok ((value, false), s) ↔
          abs s !! key = None ∧ value = inhabitant.
Proof.
  intros Hs. rewrite (Load_abs _ _ _ Himpl s key Hs). split.
  - intros [= E]. by apply index_inv_false.
  - intros [E ->]. by rewrite (index_None _ _ E).
Qed.

Lemma same_elsewhere_abs key s s' :
  inv s → inv s' → (∀ key', key' ≠ key → abs s' !! key' = abs s !! key') →
  same_elsewhere d key s s'.
Proof.
  intros Hs Hs' A key' Hne r. cbn [method_set am_Load].
  rewrite (Load_abs _ _ _ Himpl s key' Hs), (Load_abs _ _ _ Himpl s' key' Hs').
  unfold GoMap.index. rewrite A by done. naive_solver.
Qed.

Lemma Load_after_Store s s' key value :
  inv s → impl_Store impl key value s = Ok ((), s') →
  inv s' ∧ impl_Load impl key s' = Ok ((value, true), s') ∧ same_elsewhere d key s s'.
Proof.
  intros Hs E. destruct (Store_abs _ _ _ Himpl s key value Hs) as (s'' & E' & Hs' & A).
  assert (s'' = s') as -> by congruence.
  split; [done|]. split.
  - apply Load_true_abs; [done|]. by rewrite A, lookup_insert_eq.
  - apply same_elsewhere_abs; [done..|]. intros key' Hne. by rewrite A, lookup_insert_ne.
Qed.

Lemma Load_after_Delete s s' key :
  inv s → impl_Delete impl key s = Ok ((), s') →
  inv s' ∧ impl_Load impl key s' = Ok ((inhabitant, false), s') ∧ same_elsewhere d key s s'.
Proof.
  intros Hs E. destruct (Delete_abs _ _ _ Himpl s key Hs) as (s'' & E' & Hs' & A).
  assert (s'' = s') as -> by congruence.
  split; [done|]. split.
  - apply Load_false_abs; [done|]. by rewrite A, lookup_delete_eq.
  - apply same_elsewhere_abs; [done..|]. intros key' Hne. by rewrite A, lookup_delete_ne.
Qed.

Lemma CompareAndSwap_law s key old new :
  inv s →
  (impl_Load impl key s = Ok ((old, true), s) →
   ∃ s', CompareAndSwap impl key old new s = Ok (true, s') ∧
         impl_Store impl key new s = Ok ((), s') ∧
         impl_Load impl key s' = Ok ((new, true), s') ∧ same_elsewhere d key s s') ∧
  (impl_Load impl key s ≠ Ok ((old, true), s) →
   CompareAndSwap impl key old new s = Ok (false, s)).
Proof.
  intros Hs. split.
  - intros HL%Load_true_abs; [|done].
    destruct (CompareAndSwap_hit _ _ _ Himpl s key old new Hs HL) as (s' & E & ES & _ & _).
    exists s'. destruct (Load_after_Store s s' key new Hs ES) as (_ & ? & ?). done.
  - intros HL. apply (CompareAndSwap_miss _ _ _ Himpl); [done|].
    intros E. apply HL. by apply Load_true_abs.
Qed.

Lemma CompareAndDelete_law s key old :
  inv s →
  (impl_Load impl key s = Ok ((old, true), s) →
   ∃ s', CompareAndDelete impl key old s = Ok (true, s') ∧
         impl_Delete impl key s = Ok ((), s') ∧
         impl_Load impl key s' = Ok ((inhabitant, false), s') ∧ same_elsewhere d key s s') ∧
  (impl_Load impl key s ≠ Ok ((old, true), s) →
   CompareAndDelete impl key old s = Ok (false, s)).
Proof.
  intros Hs. split.
  - intros HL%Load_true_abs; [|done].
    destruct (CompareAndDelete_hit _ _ _ Himpl s key old Hs HL) as (s' & E & ED & _ & _).
    exists s'. destruct (Load_after_Delete s s' key Hs ED) as (_ & ? & ?). done.
  - intros HL. apply (CompareAndDelete_miss _ _ _ Himpl); [done|].
    intros E. apply HL. by apply Load_true_abs.
Qed.

Lemma Load_total s key :
  inv s →
  (∃ w, impl_Load impl key s = Ok ((w, true), s)) ∨
  impl_Load impl key s = Ok ((inhabitant, false), s).
Proof.
  intros Hs. rewrite (Load_abs _ _ _ Himpl s key Hs). unfold GoMap.index.
  destruct (abs s !! key); eauto.
Qed.

Lemma LoadOrStore_law s key value :
  inv s →
  (∀ w, impl_Load impl key s = Ok ((w, true), s) →
        LoadOrStore impl key value s = Ok ((w, true), s)) ∧
  (∀ z, impl_Load impl key s = Ok ((z, false), s) →
   ∃ s', LoadOrStore impl key value s = Ok ((value, false), s') ∧
         impl_Store impl key value s = Ok ((), s') ∧ inv s' ∧
         impl_Load impl key s' = Ok ((value, true), s') ∧ same_elsewhere d key s s').
Proof.
  intros Hs. split.
  - intros w HL%Load_true_abs; [|done]. by apply (LoadOrStore_present _ _ _ Himpl).
  - intros z [HL _]%Load_false_abs; [|done].
    destruct (LoadOrStore_absent _ _ _ Himpl s key value Hs HL) as (s' & E & ES & _ & _).
    exists s'. destruct (Load_after_Store s s' key value Hs ES) as (? & ? & ?). done.
Qed.

Lemma LoadOrStore_twice s key v1 v2 z :
  inv s → impl_Load impl key s = Ok ((z, false), s) →
  ∃ s', LoadOrStore impl key v1 s = Ok ((v1, false), s') ∧
        LoadOrStore impl key v2 s' = Ok ((v1, true), s') ∧
        impl_Load impl key s' = Ok ((v1, true), s').
Proof.
  intros Hs HL.
  destruct (LoadOrStore_law s key v1 Hs) as [_ Habsent].
  destruct (Habsent z HL) as (s' & E & _ & Hs' & HL' & _).
  exists s'. split; [done|]. split; [|done].
  destruct (LoadOrStore_law s' key v2 Hs') as [Hpresent _]. by apply Hpresent.
Qed.

Lemma Swap_law s key value :
  inv s →
  ∃ previous loaded s',
    impl_Load impl key s = Ok ((previous, loaded), s) ∧
    (loaded = false → previous = inhabitant) ∧
    Swap impl key value s = Ok ((previous, loaded), s') ∧
    impl_Store impl key value s = Ok ((), s') ∧
    impl_Load impl key s' = Ok ((value, true), s') ∧ same_elsewhere d key s s'.
Proof.
  intros Hs. destruct (Swap_abs _ _ _ Himpl s key value Hs) as (s' & E & ES & _ & _).
  destruct (GoMap.index (abs s) key) as [previous loaded] eqn:EI.
  exists previous, loaded, s'.
  destruct (Load_after_Store s s' key value Hs ES) as (_ & ? & ?).
  rewrite (Load_abs _ _ _ Himpl s key Hs), EI. split; [done|]. split; [|done].
  intros ->. by apply index_inv_false in EI as [_ ->].
Qed.

(** The keys [Load] finds, without repetition, are as many as [Len] says. *)
Lemma Len_law s :
  inv s →
  ∃ s' (keys : list K), Len impl s = Ok (length keys, s') ∧ inv s' ∧ abs s' = abs s ∧
    length keys = size (abs s) ∧ NoDup keys ∧
    ∀ key, key ∈ keys ↔ ∃ w, impl_Load impl key s = Ok ((w, true), s).
Proof.
  intros Hs. destruct (Len_abs _ _ _ Himpl s Hs) as (s' & E & Hs' & A).
  exists s', (elements (dom (abs s))).
  assert (length (elements (dom (abs s))) = size (abs s)) as El.
  { by rewrite <- size_dom. }
  rewrite El. repeat split; try done.
  - apply NoDup_elements.
  - rewrite elem_of_elements, elem_of_dom. intros [w Hw]. exists w. by apply Load_true_abs.
  - intros [w Hw%Load_true_abs]; [|done]. rewrite elem_of_elements, elem_of_dom. eauto.
Qed.

(** After [Clear]: nothing is found, and no visitor is invoked. *)
Lemma Clear_law s :
  inv s →
  ∃ keys s1 s',
    impl_Range impl (list K) (λ key _ keys, (true, keys ++ [key])) [] s = Ok (keys, s1) ∧
    NoDup keys ∧ (∀ key, key ∈ keys ↔ ∃ w, impl_Load impl key s = Ok ((w, true), s)) ∧
    for_each (impl_Delete impl) keys s1 = Ok ((), s') ∧
    Clear impl s = Ok ((), s') ∧ inv s' ∧ abs s' = ∅.
Proof.
  intros Hs.
  destruct (Clear_abs _ _ _ Himpl s Hs) as (pairs & s1 & s' & Hp & R & D & E & Hs' & A).
  exists pairs.*1, s1, s'. repeat split; try done.
  - rewrite Hp. apply NoDup_fst_map_to_list.
  - intros [[k v] [-> Hin]]%list_elem_of_fmap. simpl.
    rewrite Hp in Hin. apply elem_of_map_to_list in Hin. exists v. by apply Load_true_abs.
  - intros [w Hw%Load_true_abs]; [|done]. apply list_elem_of_fmap. exists (key, w).
    split; [done|]. rewrite Hp. by apply elem_of_map_to_list.
Qed.

(** On a state that stands for the empty map: [Len] is 0, [Load] finds
    nothing, and [Range], [Keys] and [Values] invoke no visitor. *)
Lemma empty_law s :
  inv s → abs s = ∅ →
  (∃ s', Len impl s = Ok (0, s')) ∧
  (∀ key, impl_Load impl key s = Ok ((inhabitant, false), s)) ∧
  (∀ (T : Type) (f : visitor K V T) (t : T),
     ∃ s', impl_Range impl _ (traced f) ([], t) s = Ok (([], t), s')) ∧
  (∀ (T : Type) (f : K → T → bool * T) (t : T),
     ∃ s', Keys impl _ (traced1 f) ([], t) s = Ok (([], t), s')) ∧
  (∀ (T : Type) (f : V → T → bool * T) (t : T),
     ∃ s', Values impl _ (traced1 f) ([], t) s = Ok (([], t), s')).
Proof.
  intros Hs A.
  destruct (Len_abs _ _ _ Himpl s Hs) as (s1 & E1 & _).
  destruct (Range_abs _ _ _ Himpl s Hs) as (pairs & s2 & Hp & _ & _ & R).
  rewrite A, map_to_list_empty in Hp. apply Permutation_nil_r in Hp. subst pairs.
  rewrite A, map_size_empty in E1.
  split; [by exists s1|]. split.
  { intros key. apply Load_false_abs; [done|]. by rewrite A, lookup_empty. }
  split; [|split]; intros T f t; exists s2; unfold Keys, Values; by rewrite R.
Qed.

(** A visitor that answers [false] at once is invoked once, whatever the
    size of a map that is not empty. *)
Lemma stop_law s :
  inv s → abs s ≠ ∅ →
  (∀ (T : Type) (f : visitor K V T) (t : T), (∀ k v, (f k v t).1 = false) →
     ∃ log t' s', impl_Range impl _ (traced f) ([], t) s = Ok ((log, t'), s') ∧
                  length log = 1) ∧
  (∀ (T : Type) (f : K → T → bool * T) (t : T), (∀ k, (f k t).1 = false) →
     ∃ log t' s', Keys impl _ (traced1 f) ([], t) s = Ok ((log, t'), s') ∧
                  length log = 1) ∧
  (∀ (T : Type) (f : V → T → bool * T) (t : T), (∀ v, (f v t).1 = false) →
     ∃ log t' s', Values impl _ (traced1 f) ([], t) s = Ok ((log, t'), s') ∧
                  length log = 1).
Proof.
  intros Hs A.
  destruct (Range_abs _ _ _ Himpl s Hs) as (pairs & s2 & Hp & _ & _ & R).
  assert (Hlen : 0 < length pairs).
  { rewrite (length_pairs _ _ Hp). by apply map_size_non_empty_iff, Nat.neq_0_lt_0 in A. }
  destruct pairs as [|[k0 v0] rest]; [simpl in Hlen; lia|].
  split; [|split]; intros T f t Hf; unfold Keys, Values; rewrite R.
  - pose proof (range_loop_traced_stop f ((k0, v0) :: rest) t Hf) as E.
    destruct (range_loop _ _ _) as [log t']. exists log, t', s2. simpl in E. by subst log.
  - pose proof (range_loop_traced1_keys (V:=V) f ((k0, v0) :: rest) t Hf) as E.
    destruct (range_loop _ _ _) as [log t']. exists log, t', s2. simpl in E. by subst log.
  - pose proof (range_loop_traced1_values (K:=K) f ((k0, v0) :: rest) t Hf) as E.
    destruct (range_loop _ _ _) as [log t']. exists log, t', s2. simpl in E. by subst log.
Qed.
End laws.

(** ** The contracts hold on every backend that implements a finite map *)

Section contracts_hold.
Context {K V St : Type} `{Countable K} `{EqDecision V} `{Inhabited V}.
Import DefaultAbstractMap.
Variables (d : Declared K V St) (inv : St → Prop) (abs : St → gmap K V).
Hypothesis Himpl : Implements (NewDefaultAbstractMap d) inv abs.
Hypothesis HLen : ∀ s, inv s → am_Len (method_set d) s = Ok (size (abs s), s).

Lemma HLen_run s :
  inv s →
  ∃ s', am_Len (method_set d) s = Ok (size (abs s), s') ∧ inv s' ∧ abs s' = abs s.
Proof. intros Hs. exists s. by rewrite HLen. Qed.

Lemma found_abs s key value :
  inv s → found d s key value ↔ abs s !! key = Some value.
Proof. intros Hs. apply (Load_true_abs _ _ _ Himpl s key value Hs). Qed.

Lemma missing_abs s key :
  inv s → missing d s key ↔ abs s !! key = None.
Proof.
  intros Hs. unfold missing.
  pose proof (Load_false_abs _ _ _ Himpl s key inhabitant Hs) as E.
  cbn [method_set am_Load]. rewrite E. by split; [intros [? _]|].
Qed.

Lemma holds_abs s n : inv s → holds d s n ↔ size (abs s) = n.
Proof.
  intros Hs. unfold holds. rewrite HLen by done. split.
  - intros [s' E]. congruence.
  - intros <-. by exists s.
Qed.

Lemma Load_after_Store_contract_holds s0 :
  inv s0 → Load_after_Store_contract d s0.
Proof.
  intros Hs key value ops Hops.
  destruct (run_abs d inv abs Himpl HLen_run (OpStore key value :: ops) s0 Hs)
    as (s & E & Hs' & A).
  exists s. split; [done|]. apply found_abs; [done|]. rewrite A.
  unfold model_run. simpl. apply model_run_keeps; [done|]. apply lookup_insert_eq.
Qed.

Lemma CompareAndSwap_contract_holds s : inv s → CompareAndSwap_contract d s.
Proof.
  intros Hs key old new.
  apply (CompareAndSwap_law _ _ _ Himpl s key old new Hs).
Qed.

Lemma CompareAndDelete_contract_holds s : inv s → CompareAndDelete_contract d s.
Proof.
  intros Hs key old.
  apply (CompareAndDelete_law _ _ _ Himpl s key old Hs).
Qed.

Lemma LoadOrStore_contract_holds s : inv s → LoadOrStore_contract d s.
Proof.
  intros Hs key value.
  destruct (LoadOrStore_law _ _ _ Himpl s key value Hs) as [Hp Ha].
  split; [exact Hp|]. split.
  - intros Hm. destruct (Ha _ Hm) as (s' & ? & ? & _ & ? & ?). by exists s'.
  - intros Hm value2. apply (LoadOrStore_twice _ _ _ Himpl s key value value2 _ Hs Hm).
Qed.

Lemma Swap_contract_holds s : inv s → Swap_contract d s.
Proof.
  intros Hs key value.
  destruct (Swap_law _ _ _ Himpl s key value Hs)
    as (previous & loaded & s' & HL & Hz & E & ES & HL' & Hse).
  split; [apply (Load_total _ _ _ Himpl s key Hs)|]. split.
  - intros w Hw.
    assert (Ok (previous, loaded, s) = Ok (w, true, s)) as [= -> ->]
      by (rewrite <- HL; exact Hw).
    by exists s'.
  - intros Hm.
    assert (Ok (previous, loaded, s) = Ok (inhabitant, false, s)) as [= -> ->]
      by (rewrite <- HL; exact Hm).
    by exists s'.
Qed.

Lemma never_visits_empty s : inv s → abs s = ∅ → never_visits d s.
Proof.
  intros Hs A. destruct (empty_law _ _ _ Himpl s Hs A) as (_ & _ & ? & ? & ?).
  by repeat split.
Qed.

Lemma Range_contract_holds s : inv s → Range_contract d s.
Proof.
  intros Hs. split.
  - intros Hn%holds_abs; [|done]. apply never_visits_empty; [done|].
    by apply map_size_empty_inv.
  - intros n Hn%holds_abs; [|done].
    apply (stop_law _ _ _ Himpl s Hs). intros A. by rewrite A, map_size_empty in Hn.
Qed.

Lemma Clear_contract_holds s : inv s → Clear_contract d s.
Proof.
  intros Hs.
  destruct (Clear_law _ _ _ Himpl s Hs) as (keys & s1 & s' & R & Hnd & Hk & D & E & Hs' & A).
  exists keys, s1, s'. split; [done|]. split; [done|]. split; [done|].
  split; [done|]. split; [done|].
  destruct (empty_law _ _ _ Himpl s' Hs' A) as (HL & HM & _).
  split; [apply holds_abs; [done|]; by rewrite A, map_size_empty|].
  split; [done|]. split; [done|]. by apply never_visits_empty.
Qed.

Lemma Len_contract_holds s : inv s → Len_contract d s (size (abs s)).
Proof.
  intros Hs. destruct (Len_law _ _ _ Himpl s Hs) as (s' & keys & E & _ & _ & El & Hnd & Hk).
  split; [by apply HLen|]. rewrite <- El. split; [by exists s'|]. by exists keys.
Qed.
End contracts_hold.

(** ** No panic on a backend that implements a finite map *)

Section no_panic.
Context {K V St : Type} `{Countable K} `{EqDecision V} `{Inhabited V}.
Import DefaultAbstractMap.
Variables (d : Declared K V St) (inv : St → Prop) (abs : St → gmap K V).
Hypothesis Himpl : Implements (NewDefaultAbstractMap d) inv abs.
Hypothesis HLen : ∀ s, inv s → am_Len (method_set d) s = Ok (size (abs s), s).

Lemma never_aborts_holds s : inv s → never_aborts d s.
Proof.
  intros Hs. unfold never_aborts, answers. cbn [method_set am_Clear am_CompareAndDelete
    am_CompareAndSwap am_LoadAndDelete am_LoadOrStore am_Keys am_Values am_Swap].
  split.
  { destruct (Clear_abs _ _ _ Himpl s Hs) as (? & ? & s' & _ & _ & _ & E & _). eauto. }
  split.
  { rewrite HLen by done. eauto. }
  split.
  { destruct (Len_abs _ _ _ Himpl s Hs) as (s' & E & _). eauto. }
  split.
  { intros key. destruct (LoadAndDelete_abs _ _ _ Himpl s key Hs) as (s' & E & _). eauto. }
  split.
  { intros key value. destruct (abs s !! key) as [w|] eqn:Hk.
    - rewrite (LoadOrStore_present _ _ _ Himpl s key value w Hs Hk). eauto.
    - destruct (LoadOrStore_absent _ _ _ Himpl s key value Hs Hk) as (s' & E & _). eauto. }
  split.
  { intros key value. destruct (Swap_abs _ _ _ Himpl s key value Hs) as (s' & E & _). eauto. }
  split.
  { intros key old new. destruct (decide (abs s !! key = Some old)) as [Hk|Hk].
    - destruct (CompareAndSwap_hit _ _ _ Himpl s key old new Hs Hk) as (s' & E & _). eauto.
    - rewrite (CompareAndSwap_miss _ _ _ Himpl s key old new Hs Hk). eauto. }
  split.
  { intros key old. destruct (decide (abs s !! key = Some old)) as [Hk|Hk].
    - destruct (CompareAndDelete_hit _ _ _ Himpl s key old Hs Hk) as (s' & E & _). eauto.
    - rewrite (CompareAndDelete_miss _ _ _ Himpl s key old Hs Hk). eauto. }
  split.
  { intros T f t. destruct (Keys_abs _ _ _ Himpl s Hs) as (pairs & s' & _ & _ & _ & R).
    rewrite R. eauto. }
  intros T f t. destruct (Values_abs _ _ _ Himpl s Hs) as (pairs & s' & _ & _ & _ & R).
  rewrite R. eauto.
Qed.
End no_panic.

(** ** [CompareAndSwap] and [CompareAndDelete] when the values need not be
    comparable *)

Section any_values.
Context {K V St : Type} `{Countable K} `{Comparison V} `{Inhabited V}.
Import DefaultAbstractMap.
Variables (d : Declared K V St) (inv : St → Prop) (abs : St → gmap K V).
Local Abbreviation impl := (NewDefaultAbstractMap d).
Hypothesis Himpl : Implements impl inv abs.
Hypothesis HLen : ∀ s, inv s → ∃ n, am_Len (method_set d) s = Ok (n, s).

Lemma any_eq_equal (x y : V) : is_Some (any_eq x y) → x = y → any_eq x y = Some true.
Proof.
  intros [[|] E] Hxy; [done|]. by destruct (any_eq_false x y E).
Qed.

Lemma any_eq_differ (x y : V) : is_Some (any_eq x y) → x ≠ y → any_eq x y = Some false.
Proof.
  intros [[|] E] Hxy; [|done]. by destruct (Hxy (any_eq_true x y E)).
Qed.

Lemma CompareAndSwap_absent s key old new :
  inv s → abs s !! key = None → CompareAndSwap impl key old new s = Ok (false, s).
Proof.
  intros Hs Hk. unfold CompareAndSwap, bind, ret.
  by rewrite (Load_abs _ _ _ Himpl s key Hs), (index_None _ _ Hk).
Qed.

Lemma CompareAndSwap_bound s key cur old new :
  inv s → abs s !! key = Some cur →
  CompareAndSwap impl key old new s =
    match any_eq cur old with
    | Some true =>
        match impl_Store impl key new s with
        | Ok (_, s') => Ok (true, s')
        | Panic msg => Panic msg
        end
    | Some false => Ok (false, s)
    | None => Panic uncomparable
    end.
Proof.
  intros Hs Hk. unfold CompareAndSwap, interface_eq, bind, ret.
  rewrite (Load_abs _ _ _ Himpl s key Hs), (index_Some _ _ _ Hk). cbn [negb].
  by destruct (any_eq cur old) as [[|]|].
Qed.

Lemma CompareAndDelete_absent s key old :
  inv s → abs s !! key = None → CompareAndDelete impl key old s = Ok (false, s).
Proof.
  intros Hs Hk. unfold CompareAndDelete, bind, ret.
  by rewrite (Load_abs _ _ _ Himpl s key Hs), (index_None _ _ Hk).
Qed.

Lemma CompareAndDelete_bound s key cur old :
  inv s → abs s !! key = Some cur →
  CompareAndDelete impl key old s =
    match any_eq cur old with
    | Some true =>
        match impl_Delete impl key s with
        | Ok (_, s') => Ok (true, s')
        | Panic msg => Panic msg
        end
    | Some false => Ok (false, s)
    | None => Panic uncomparable
    end.
Proof.
  intros Hs Hk. unfold CompareAndDelete, interface_eq, bind, ret.
  rewrite (Load_abs _ _ _ Himpl s key Hs), (index_Some _ _ _ Hk). cbn [negb].
  by destruct (any_eq cur old) as [[|]|].
Qed.

(** A call that returns leaves a state of [inv]; a call that does not is a
    comparison of two values the run time cannot compare. *)
Lemma call_returns_or_cannot_compare op s :
  inv s →
  (∃ s', call (method_set d) op s = Ok ((), s') ∧ inv s') ∨
  call (method_set d) op s = Panic uncomparable.
Proof.
  intros Hs. destruct op; cbn [call method_set am_Clear am_CompareAndDelete
    am_CompareAndSwap am_Delete am_Load am_LoadAndDelete am_LoadOrStore
    am_Range am_Keys am_Values am_Store am_Swap].
  - left. destruct (Clear_abs _ _ _ Himpl s Hs) as (? & ? & s' & _ & _ & _ & E & ? & _).
    by exists s'.
  - unfold bind, ret. destruct (abs s !! key) as [cur|] eqn:Hk.
    + rewrite (CompareAndDelete_bound s key cur old Hs Hk).
      destruct (any_eq cur old) as [[|]|]; [|left; by exists s|by right].
      destruct (Delete_abs _ _ _ Himpl s key Hs) as (s' & E & ? & _).
      left. exists s'. by rewrite E.
    + rewrite (CompareAndDelete_absent s key old Hs Hk). left. by exists s.
  - unfold bind, ret. destruct (abs s !! key) as [cur|] eqn:Hk.
    + rewrite (CompareAndSwap_bound s key cur old new Hs Hk).
      destruct (any_eq cur old) as [[|]|]; [|left; by exists s|by right].
      destruct (Store_abs _ _ _ Himpl s key new Hs) as (s' & E & ? & _).
      left. exists s'. by rewrite E.
    + rewrite (CompareAndSwap_absent s key old new Hs Hk). left. by exists s.
  - left. destruct (Delete_abs _ _ _ Himpl s key Hs) as (s' & E & ? & _). by exists s'.
  - left. unfold bind, ret. destruct (HLen s Hs) as (n & E). exists s. by rewrite E.
  - left. unfold bind, ret. rewrite (Load_abs _ _ _ Himpl s key Hs). by exists s.
  - left. unfold bind, ret.
    destruct (LoadAndDelete_abs _ _ _ Himpl s key Hs) as (s' & E & ? & _).
    exists s'. by rewrite E.
  - left. unfold bind, ret. destruct (abs s !! key) as [w|] eqn:Hk.
    + rewrite (LoadOrStore_present _ _ _ Himpl s key value w Hs Hk). by exists s.
    + destruct (LoadOrStore_absent _ _ _ Himpl s key value Hs Hk) as (s' & E & _ & ? & _).
      exists s'. by rewrite E.
  - left. destruct (Range_abs _ _ _ Himpl s Hs) as (pairs & s' & _ & ? & _ & R).
    exists s'. rewrite R. by destruct (range_loop _ pairs ()).
  - left. destruct (Keys_abs _ _ _ Himpl s Hs) as (pairs & s' & _ & ? & _ & R).
    exists s'. rewrite R. by destruct (range_loop _ pairs ()).
  - left. destruct (Values_abs _ _ _ Himpl s Hs) as (pairs & s' & _ & ? & _ & R).
    exists s'. rewrite R. by destruct (range_loop _ pairs ()).
  - left. destruct (Store_abs _ _ _ Himpl s key value Hs) as (s' & E & ? & _). by exists s'.
  - left. unfold bind, ret.
    destruct (Swap_abs _ _ _ Himpl s key value Hs) as (s' & E & _ & ? & _).
    exists s'. by rewrite E.
Qed.

Lemma run_returns_inv ops s s' :
  inv s → run (method_set d) ops s = Ok s' → inv s'.
Proof.
  revert s. induction ops as [|op ops IH]; intros s Hs E.
  - rewrite run_nil in E. congruence.
  - rewrite run_cons in E.
    destruct (call_returns_or_cannot_compare op s Hs) as [(s1 & E1 & Hs1)|E1];
      rewrite E1 in E; [by apply (IH s1)|done].
Qed.

Lemma found_lookup s key value :
  inv s → found d s key value ↔ abs s !! key = Some value.
Proof. intros Hs. apply (Load_true_abs _ _ _ Himpl s key value Hs). Qed.

Lemma missing_lookup s key :
  inv s → missing d s key ↔ abs s !! key = None.
Proof.
  intros Hs. unfold missing.
  pose proof (Load_false_abs _ _ _ Himpl s key inhabitant Hs) as E.
  cbn [method_set am_Load]. rewrite E. by split; [intros [? _]|].
Qed.

Lemma found_or_missing s key :
  inv s → (∃ cur, found d s key cur) ∨ missing d s key.
Proof.
  intros Hs. destruct (abs s !! key) as [cur|] eqn:Hk.
  - left. exists cur. by apply found_lookup.
  - right. by apply missing_lookup.
Qed.

Lemma same_elsewhere_lookup key s s' :
  inv s → inv s' → (∀ key', key' ≠ key → abs s' !! key' = abs s !! key') →
  same_elsewhere d key s s'.
Proof.
  intros Hs Hs' A key' Hne r. cbn [method_set am_Load].
  rewrite (Load_abs _ _ _ Himpl s key' Hs), (Load_abs _ _ _ Himpl s' key' Hs').
  unfold GoMap.index. rewrite A by done. naive_solver.
Qed.

Lemma CompareAndSwap_any_contract_holds s : inv s → CompareAndSwap_any_contract d s.
Proof.
  intros Hs key old new. split; [by apply found_or_missing|]. split.
  - intros Hk%missing_lookup; [|done]. by apply CompareAndSwap_absent.
  - intros cur Hk%found_lookup; [|done].
    cbn [method_set am_CompareAndSwap am_Store].
    rewrite (CompareAndSwap_bound s key cur old new Hs Hk).
    split; [|split].
    + intros Hdef Heq. rewrite (any_eq_equal cur old Hdef Heq).
      destruct (Store_abs _ _ _ Himpl s key new Hs) as (s' & E & Hs' & A).
      exists s'. rewrite E. split; [done|]. split; [done|]. split.
      * apply found_lookup; [done|]. by rewrite A, lookup_insert_eq.
      * apply same_elsewhere_lookup; [done..|].
        intros key' Hne. by rewrite A, lookup_insert_ne.
    + intros Hdef Hne. by rewrite (any_eq_differ cur old Hdef Hne).
    + by intros ->.
Qed.

Lemma CompareAndDelete_any_contract_holds s : inv s → CompareAndDelete_any_contract d s.
Proof.
  intros Hs key old. split; [by apply found_or_missing|]. split.
  - intros Hk%missing_lookup; [|done]. by apply CompareAndDelete_absent.
  - intros cur Hk%found_lookup; [|done].
    cbn [method_set am_CompareAndDelete am_Delete].
    rewrite (CompareAndDelete_bound s key cur old Hs Hk).
    split; [|split].
    + intros Hdef Heq. rewrite (any_eq_equal cur old Hdef Heq).
      destruct (Delete_abs _ _ _ Himpl s key Hs) as (s' & E & Hs' & A).
      exists s'. rewrite E. split; [done|]. split; [done|]. split.
      * apply missing_lookup; [done|]. by rewrite A, lookup_delete_eq.
      * apply same_elsewhere_lookup; [done..|].
        intros key' Hne. by rewrite A, lookup_delete_ne.
    + intros Hdef Hne. by rewrite (any_eq_differ cur old Hdef Hne).
    + by intros ->.
Qed.
End any_values.

(** ** The keys a sequence of unconditional calls leaves *)

Section live_keys.
Context {K V : Type} `{Countable K} `{EqDecision V}.

Lemma dom_model_call (op : Op K V) (m : gmap K V) :
  unconditional op = true → dom (model_call op m) = live_call op (dom m).
Proof.
  intros Hop. destruct op as [|k old|k old new|k| |k|k|k v|f|f|f|k v|k v];
    simpl in *; try done.
  - case_bool_decide as Hk; [|done]. rewrite dom_insert_L.
    apply (elem_of_dom_2 (D:=gset K)) in Hk.
    by apply subseteq_union_1_L, singleton_subseteq_l.
  - by rewrite dom_delete_L.
  - by rewrite dom_delete_L.
  - destruct (m !! k) eqn:Hk; [|by rewrite dom_insert_L].
    apply (elem_of_dom_2 (D:=gset K)) in Hk. symmetry.
    by apply subseteq_union_1_L, singleton_subseteq_l.
  - by rewrite dom_insert_L.
  - by rewrite dom_insert_L.
Qed.

Lemma dom_model_run_from (ops : list (Op K V)) (m : gmap K V) :
  forallb unconditional ops = true →
  dom (model_run ops m) = foldl (λ X op, live_call op X) (dom m) ops.
Proof.
  revert m. induction ops as [|op ops IH]; intros m Hops; [done|].
  simpl in Hops. apply andb_prop in Hops as [Hop Hops].
  unfold model_run. simpl. rewrite <- dom_model_call by done. by apply IH.
Qed.

Lemma dom_model_run (ops : list (Op K V)) :
  forallb unconditional ops = true → dom (model_run ops (∅ : gmap K V)) = live_keys ops.
Proof. intros Hops. rewrite dom_model_run_from by done. by rewrite dom_empty_L. Qed.
End live_keys.

(** ** The maps a client can build *)

Section reachable.
Context {K V : Type} `{Countable K} `{EqDecision V} `{Inhabited V}.
Context `{!GoMap.Iteration K V}.
Import DefaultAbstractMap.

Lemma UnorderedMap_HLen (um : UnorderedMap.t K V) :
  True → am_Len (method_set UnorderedMap.declared) um = Ok (size (UnorderedMap.m um), um).
Proof. done. Qed.

Lemma OrderedMap_HLen (om : OrderedMap.t K V) :
  OrderedMap.inv om →
  am_Len (method_set OrderedMap.declared) om = Ok (size (OrderedMap.abs om), om).
Proof.
  intros Hinv. cbn [method_set am_Len selector OrderedMap.declared own_Len].
  unfold OrderedMap.Len. by rewrite abs_size.
Qed.

Lemma UnorderedMap_reach (ops : list (Op K V)) :
  ∃ um, run UnorderedMap.methods ops UnorderedMap.NewUnorderedMap = Ok um ∧
        UnorderedMap.m um = model_run ops ∅.
Proof.
  destruct (run_abs UnorderedMap.declared (λ _, True) UnorderedMap.m
              UnorderedMap_Implements UnorderedMap_Len_abs ops
              UnorderedMap.NewUnorderedMap I) as (um & E & _ & A).
  by exists um.
Qed.

Lemma OrderedMap_reach (ops : list (Op K V)) :
  ∃ om, run OrderedMap.methods ops OrderedMap.NewOrderedMap = Ok om ∧
        OrderedMap.inv om ∧ OrderedMap.abs om = model_run ops ∅ ∧
        OrderedMap.entries om = order_run ops [].
Proof.
  destruct (OrderedMap_run_entries ops OrderedMap.NewOrderedMap inv_New)
    as (om & E & Hinv & En).
  destruct (run_abs OrderedMap.declared OrderedMap.inv OrderedMap.abs
              OrderedMap_Implements OrderedMap_Len_abs ops
              OrderedMap.NewOrderedMap inv_New) as (om' & E' & _ & A).
  assert (om' = om) as -> by (unfold OrderedMap.methods in E; congruence).
  by exists om.
Qed.
End reachable.

(** ** The keys of an ordered map and the calls that inserted them *)

Section insertion_order.
Context {K V : Type} `{Countable K} `{EqDecision V} `{Inhabited V}.
Import DefaultAbstractMap.

Lemma present_after_model (ops : list (Op K V)) n key :
  present_after ops n key ↔ key ∈ (order_run (take n ops) []).*1.
Proof.
  destruct (OrderedMap_reach (take n ops)) as (om & E & Hinv & _ & En).
  rewrite <- En, elem_of_keys_abs by done. split.
  - intros (om' & value & E' & Hf). assert (om' = om) as -> by congruence.
    apply (found_abs _ _ _ OrderedMap_Implements om key value Hinv) in Hf. eauto.
  - intros [value Hv]. exists om, value. split; [done|].
    by apply (found_abs _ _ _ OrderedMap_Implements om key value Hinv).
Qed.

(** What one call does to the sequence of the keys. *)
Lemma order_call_keys (op : Op K V) (pairs : list (K * V)) :
  (order_call op pairs).*1 = pairs.*1 ∨
  (∃ k, (k ∉ pairs.*1) ∧ (order_call op pairs).*1 = pairs.*1 ++ [k]) ∨
  (∃ k, (order_call op pairs).*1 = filter (λ k', k' ≠ k) pairs.*1) ∨
  (order_call op pairs).*1 = [].
Proof.
  assert (Hstore : ∀ k v,
    (assoc_store k v pairs).*1 = pairs.*1 ∨
    (∃ k0, (k0 ∉ pairs.*1) ∧ (assoc_store k v pairs).*1 = pairs.*1 ++ [k0])).
  { intros k v. destruct (decide (k ∈ pairs.*1)) as [Hin|Hnot].
    - left. by apply assoc_store_keys_present.
    - right. exists k. split; [done|]. rewrite assoc_store_absent by done.
      by rewrite fmap_app. }
  assert (Hdelete : ∀ k,
    ∃ k0, (assoc_delete k pairs).*1 = filter (λ k', k' ≠ k0) pairs.*1).
  { intros k. exists k. apply assoc_delete_keys. }
  destruct op as [|k old|k old new|k| |k|k|k v|f|f|f|k v|k v]; cbn [order_call];
    try (by left); try (right; right; left; by apply Hdelete).
  - by right; right; right.
  - case_bool_decide; [right; right; left; apply Hdelete | by left].
  - case_bool_decide; [|by left]. destruct (Hstore k new) as [?|?]; [by left|by right; left].
  - case_bool_decide; [by left|]. destruct (Hstore k v) as [?|?]; [by left|by right; left].
  - destruct (Hstore k v) as [?|?]; [by left|by right; left].
  - destruct (Hstore k v) as [?|?]; [by left|by right; left].
Qed.

Lemma inserted_at_later (ops : list (Op K V)) op i key :
  inserted_at ops i key → key ∈ (order_run (ops ++ [op]) []).*1 →
  inserted_at (ops ++ [op]) i key.
Proof.
  intros (Hi & Hbefore & Hafter) Hin. unfold inserted_at. rewrite length_app. simpl.
  split; [lia|]. split.
  - rewrite present_after_model, take_app_le by lia.
    by rewrite <- present_after_model.
  - intros j Hj. destruct (decide (j ≤ length ops)) as [Hle|Hgt].
    + rewrite present_after_model, take_app_le by lia.
      rewrite <- present_after_model. apply Hafter. lia.
    + rewrite present_after_model, take_ge; [done|]. rewrite length_app. simpl. lia.
Qed.

Lemma inserted_at_last (ops : list (Op K V)) op key :
  key ∉ (order_run ops []).*1 → key ∈ (order_run (ops ++ [op]) []).*1 →
  inserted_at (ops ++ [op]) (length ops) key.
Proof.
  intros Hnot Hin. unfold inserted_at. rewrite length_app. simpl.
  split; [lia|]. split.
  - by rewrite present_after_model, take_app_length.
  - intros j Hj. rewrite present_after_model, take_ge; [done|].
    rewrite length_app. simpl. lia.
Qed.

Lemma filter_births (k : K) (kb : list (K * nat)) :
  StronglySorted lt kb.*2 →
  (filter (λ p, p.1 ≠ k) kb).*1 = filter (λ k', k' ≠ k) kb.*1 ∧
  StronglySorted lt (filter (λ p, p.1 ≠ k) kb).*2.
Proof.
  induction kb as [|[k0 b0] rest IH]; intros Hs; [split; [done|constructor]|].
  rewrite !fmap_cons in Hs. apply StronglySorted_inv in Hs as [Hs Hall].
  destruct (IH Hs) as [IH1 IH2]. rewrite fmap_cons, !filter_cons. cbn [fst].
  destruct (decide (k0 ≠ k)); [|done]. rewrite !fmap_cons. cbn [fst snd].
  split; [by rewrite IH1|]. constructor; [done|].
  apply Forall_forall. intros b Hb.
  apply list_elem_of_fmap in Hb as ([k1 b1] & -> & Hb).
  apply list_elem_of_filter in Hb as [_ Hb].
  rewrite Forall_forall in Hall. apply Hall.
  apply list_elem_of_fmap. by exists (k1, b1).
Qed.

(** Every key of the traversal has the number of the call that inserted
    it, and these numbers increase along the traversal. *)
Lemma insertion_births (ops : list (Op K V)) :
  ∃ kb : list (K * nat),
    kb.*1 = (order_run ops []).*1 ∧ StronglySorted lt kb.*2 ∧
    Forall (λ p, inserted_at ops p.2 p.1) kb.
Proof.
  induction ops as [|op ops IH] using rev_ind.
  { exists []. repeat split; constructor. }
  destruct IH as (kb & Hkeys & Hsorted & Hall).
  assert (Hkeep : ∀ kb', kb' ⊆ kb → kb'.*1 ⊆ (order_run (ops ++ [op]) []).*1 →
    Forall (λ p, inserted_at (ops ++ [op]) p.2 p.1) kb').
  { intros kb' Hsub Hin. apply Forall_forall. intros [k b] Hp.
    rewrite Forall_forall in Hall. apply inserted_at_later.
    - by apply (Hall (k, b)), Hsub.
    - apply Hin. apply list_elem_of_fmap. by exists (k, b). }
  pose proof (order_call_keys op (order_run ops [])) as Hop.
  replace (order_call op (order_run ops [])) with (order_run (ops ++ [op]) [])
    in Hop by (by rewrite order_run_app).
  destruct Hop as [Hsame|[(k & Hnot & Happ)|[(k & Hfilter)|Hnil]]].
  - exists kb. split; [by rewrite Hsame|]. split; [done|].
    apply Hkeep; [done|]. by rewrite Hsame, Hkeys.
  - exists (kb ++ [(k, length ops)]). rewrite !fmap_app. simpl.
    split; [by rewrite Happ, Hkeys|]. split.
    + apply StronglySorted_app_2; [|done|repeat constructor].
      intros b1 b2 Hb1 ->%list_elem_of_singleton.
      apply list_elem_of_fmap in Hb1 as ([k1 b1'] & -> & Hp).
      rewrite Forall_forall in Hall. by destruct (Hall _ Hp) as [? _].
    + apply Forall_app. split.
      * apply Hkeep; [done|]. rewrite Happ, Hkeys. intros x Hx. apply elem_of_app. by left.
      * apply Forall_singleton. simpl. apply inserted_at_last; [done|].
        rewrite Happ. apply elem_of_app. right. by apply list_elem_of_singleton.
  - destruct (filter_births k kb Hsorted) as [Hk Hs].
    exists (filter (λ p, p.1 ≠ k) kb). split; [by rewrite Hk, Hfilter, Hkeys|].
    split; [done|]. apply Hkeep.
    + intros p Hp. by apply list_elem_of_filter in Hp as [_ ?].
    + by rewrite Hk, Hfilter, Hkeys.
  - exists []. split; [by rewrite Hnil|]. split; constructor.
Qed.
End insertion_order.

(** * The claims *)

Section claims.
Context {K V : Type} `{Countable K} `{EqDecision V} `{Inhabited V}.
Context `{!GoMap.Iteration K V}.
Import DefaultAbstractMap.

(** C1. After any sequence of calls on a new OrderedMap, a full [Range]
    (a visitor that never answers [false]) is invoked on the pairs of
    [order_run ops []], in that order, and leaves the map as it is.  These
    are the keys in the order of their insertion: no key occurs twice, and
    the calls that inserted the keys (each found its key absent, and the key
    has been present since) come one after the other as the keys do in the
    traversal; a [Store] to a key that is present leaves the sequence of
    keys as it is and puts the new value at the key; a [Store] to a key that
    is absent (never stored, deleted, or cleared) adds the pair at the tail;
    a [Delete] removes the key and keeps the others in their order; [Clear]
    leaves nothing. *)
Theorem OrderedMap_Range_in_insertion_order (ops : list (Op K V)) :
  ∃ om, run OrderedMap.methods ops OrderedMap.NewOrderedMap = Ok om ∧
    (∀ (T : Type) (f : visitor K V T) (t : T), (∀ k v t, (f k v t).1 = true) →
       ∃ t', am_Range OrderedMap.methods _ (traced f) ([], t) om
               = Ok ((order_run ops [], t'), om)) ∧
    am_Range OrderedMap.methods _ collect [] om = Ok (order_run ops [], om) ∧
    NoDup (order_run ops []).*1 ∧
    (∃ births : list nat, StronglySorted lt births ∧
       Forall2 (inserted_at ops) births (order_run ops []).*1) ∧
    (∀ k v, k ∈ (order_run ops []).*1 →
       (order_run (ops ++ [OpStore k v]) []).*1 = (order_run ops []).*1 ∧
       (k, v) ∈ order_run (ops ++ [OpStore k v]) []) ∧
    (∀ k v, k ∉ (order_run ops []).*1 →
       order_run (ops ++ [OpStore k v]) [] = order_run ops [] ++ [(k, v)]) ∧
    (∀ k, (order_run (ops ++ [OpDelete k]) []).*1
            = filter (λ k', k' ≠ k) (order_run ops []).*1) ∧
    order_run (ops ++ [OpClear]) [] = [].
Proof.
  destruct (OrderedMap_reach ops) as (om & E & Hinv & A & En).
  exists om. split; [done|].
  split; [|split; [|split; [|split; [|split; [|split; [|split]]]]]].
  - intros T f t Hf.
    change (am_Range OrderedMap.methods) with (OrderedMap.Range (K:=K) (V:=V)).
    rewrite OrderedMap_Range_entries by done. rewrite En.
    pose proof (range_loop_traced_full f (order_run ops []) [] t Hf) as Hlog.
    destruct (range_loop _ _ _) as [log t']. simpl in Hlog. subst log. by exists t'.
  - change (am_Range OrderedMap.methods) with (OrderedMap.Range (K:=K) (V:=V)).
    rewrite OrderedMap_Range_entries by done. by rewrite range_loop_collect, En.
  - rewrite <- En. by apply inv_keys_NoDup.
  - destruct (insertion_births ops) as (kb & Hkeys & Hsorted & Hall).
    exists kb.*2. split; [done|]. rewrite <- Hkeys. clear Hkeys Hsorted.
    induction Hall as [|[k b] kb Hp Hall IH]; constructor; by simpl.
  - intros k v Hk. rewrite order_run_app. cbn [order_run foldl order_call].
    split; [by apply assoc_store_keys_present|].
    apply (elem_of_list_to_map_2 (M:=gmap K)).
    rewrite list_to_map_assoc_store. apply lookup_insert_eq.
  - intros k v Hk. rewrite order_run_app. cbn [order_run foldl order_call].
    by apply assoc_store_absent.
  - intros k. rewrite order_run_app. cbn [order_run foldl order_call].
    apply assoc_delete_keys.
  - by rewrite order_run_app.
Qed.

(** C2. On every OrderedMap reached from a new one by any sequence of
    calls, the index and the list are in one-to-one correspondence: no
    element is linked twice; every key of the index points to an element
    that is linked, the only linked element whose entry bears this key, and
    this entry holds the current value of the key, which is the value the
    calls have left at the key ([model_run ops ∅]) and the one [Load]
    answers; the keys of the index are the keys the calls have left; every
    linked element has an entry whose key the index sends back to the
    element; the index has as many keys as the list has elements. *)
Theorem OrderedMap_index_and_list_correspond (ops : list (Op K V)) :
  ∃ om, run OrderedMap.methods ops OrderedMap.NewOrderedMap = Ok om ∧
    NoDup (List_.order (OrderedMap.l om)) ∧
    (∀ k element, OrderedMap.m om !! k = Some element →
       element ∈ List_.order (OrderedMap.l om) ∧
       (∀ element' en', element' ∈ List_.order (OrderedMap.l om) →
          List_.Value element' (OrderedMap.l om) = Some en' →
          OrderedMap.key en' = k → element' = element) ∧
       ∃ en, List_.Value element (OrderedMap.l om) = Some en ∧
             OrderedMap.key en = k ∧
             model_run ops ∅ !! k = Some (OrderedMap.value en) ∧
             found OrderedMap.declared om k (OrderedMap.value en)) ∧
    (∀ k, is_Some (OrderedMap.m om !! k) ↔ is_Some (model_run ops ∅ !! k)) ∧
    (∀ element, element ∈ List_.order (OrderedMap.l om) →
       ∃ en, List_.Value element (OrderedMap.l om) = Some en ∧
             OrderedMap.m om !! OrderedMap.key en = Some element) ∧
    size (OrderedMap.m om) = length (List_.order (OrderedMap.l om)).
Proof.
  destruct (OrderedMap_reach ops) as (om & E & Hinv & A & _).
  assert (HL : ∀ k, OrderedMap.Load k om = Ok (GoMap.index (OrderedMap.abs om) k, om)).
  { intros k. apply (Load_abs _ _ _ OrderedMap_Implements om k Hinv). }
  exists om. split; [done|]. split; [apply (OrderedMap.inv_NoDup om Hinv)|].
  split; [|split; [|split; [apply (OrderedMap.inv_list om Hinv)|by apply inv_size]]].
  - intros k element Hk.
    destruct (OrderedMap.inv_index om Hinv k element Hk) as (Hin & en & C & Hkey).
    split; [done|]. split.
    + intros element' en' Hin' C' Hkey'.
      destruct (OrderedMap.inv_list om Hinv element' Hin') as (en'' & C'' & Hback).
      rewrite C' in C''. injection C'' as <-. rewrite Hkey' in Hback. congruence.
    + exists en. split; [done|]. split; [done|].
      pose proof (HL k) as HLk. unfold OrderedMap.Load in HLk. rewrite Hk, C in HLk.
      split.
      * rewrite <- A. apply index_inv_true. congruence.
      * unfold found. cbn [method_set am_Load NewDefaultAbstractMap impl_Load selector
          OrderedMap.declared own_Load]. unfold OrderedMap.Load. by rewrite Hk, C.
  - intros k. rewrite <- A. pose proof (HL k) as HLk. unfold OrderedMap.Load in HLk.
    destruct (OrderedMap.m om !! k) as [element|] eqn:Hk.
    + destruct (OrderedMap.inv_index om Hinv k element Hk) as (_ & en & C & _).
      rewrite C in HLk. split; [intros _|by eauto].
      exists (OrderedMap.value en). apply index_inv_true. congruence.
    + split; [by intros [? ?]|]. intros [v Hv].
      assert (GoMap.index (OrderedMap.abs om) k = (inhabitant, false)) as Hi by congruence.
      apply index_inv_false in Hi as [Hnone _]. congruence.
Qed.

(** C3. On an UnorderedMap and on an OrderedMap, after [Store(key, value)]
    and any calls that neither delete [key] nor store to it again,
    [Load(key)] answers [(value, true)]. *)
Theorem Load_after_Store_returns_stored :
  (∀ um : UnorderedMap.t K V, Load_after_Store_contract UnorderedMap.declared um) ∧
  (∀ pre : list (Op K V),
     ∃ om, run OrderedMap.methods pre OrderedMap.NewOrderedMap = Ok om ∧
           Load_after_Store_contract OrderedMap.declared om).
Proof.
  split.
  - intros um. apply (Load_after_Store_contract_holds _ _ _
      UnorderedMap_Implements UnorderedMap_HLen um I).
  - intros pre. destruct (OrderedMap_reach pre) as (om & E & Hinv & _).
    exists om. split; [done|]. apply (Load_after_Store_contract_holds _ _ _
      OrderedMap_Implements OrderedMap_HLen om Hinv).
Qed.

End claims.

(** C4, amended.  The value type of a map is any type, and the two methods
    compare the value bound to [key] with [old] as interface values.

    For every value type and every map: [key] is bound or absent; on an
    absent key [CompareAndSwap(key, old, new)] and
    [CompareAndDelete(key, old)] answer [false] and the map is the same; on
    a key bound to [cur], when [cur] and [old] can be compared,
    [CompareAndSwap] answers [true] and stores [new] at [key] if they are
    equal ([CompareAndDelete] answers [true] and deletes [key]), and the
    call answers [false] and the map is the same if they are not; when they
    cannot be compared (values of a type that is not comparable) the call
    panics.

    For a comparable value type: after any sequence of calls,
    [CompareAndSwap(key, old, new)] answers [true] and stores [new] at [key]
    exactly when [Load(key)] answers [(old, true)]; otherwise it answers
    [false] and the map is the same; likewise [CompareAndDelete(key, old)]
    answers [true] and deletes [key] exactly then, and otherwise answers
    [false] and the map is the same. *)
Theorem CompareAndSwap_CompareAndDelete_exact
    {K V : Type} `{Countable K} `{Inhabited V} `{!GoMap.Iteration K V} :
  (∀ C : Comparison V,
     (∀ um : UnorderedMap.t K V,
        CompareAndSwap_any_contract UnorderedMap.declared um ∧
        CompareAndDelete_any_contract UnorderedMap.declared um) ∧
     (∀ (ops : list (Op K V)) (om : OrderedMap.t K V),
        run OrderedMap.methods ops OrderedMap.NewOrderedMap = Ok om →
        CompareAndSwap_any_contract OrderedMap.declared om ∧
        CompareAndDelete_any_contract OrderedMap.declared om)) ∧
  (∀ E : EqDecision V,
     (∀ um : UnorderedMap.t K V,
        CompareAndSwap_contract UnorderedMap.declared um ∧
        CompareAndDelete_contract UnorderedMap.declared um) ∧
     (∀ ops : list (Op K V),
        ∃ om, run OrderedMap.methods ops OrderedMap.NewOrderedMap = Ok om ∧
              CompareAndSwap_contract OrderedMap.declared om ∧
              CompareAndDelete_contract OrderedMap.declared om)).
Proof.
  split.
  - intros C. split.
    + intros um. split.
      * apply (CompareAndSwap_any_contract_holds _ _ _ UnorderedMap_Implements um I).
      * apply (CompareAndDelete_any_contract_holds _ _ _ UnorderedMap_Implements um I).
    + intros ops om E.
      assert (Hinv : OrderedMap.inv om).
      { apply (run_returns_inv OrderedMap.declared OrderedMap.inv OrderedMap.abs
                 OrderedMap_Implements) with ops OrderedMap.NewOrderedMap;
          [|apply inv_New|exact E].
        intros s _. by exists (size (OrderedMap.m s)). }
      split.
      * apply (CompareAndSwap_any_contract_holds _ _ _ OrderedMap_Implements om Hinv).
      * apply (CompareAndDelete_any_contract_holds _ _ _ OrderedMap_Implements om Hinv).
  - intros E. split.
    + intros um. split.
      * apply (CompareAndSwap_contract_holds _ _ _ UnorderedMap_Implements um I).
      * apply (CompareAndDelete_contract_holds _ _ _ UnorderedMap_Implements um I).
    + intros ops. destruct (OrderedMap_reach ops) as (om & Eom & Hinv & _).
      exists om. split; [done|]. split.
      * apply (CompareAndSwap_contract_holds _ _ _ OrderedMap_Implements om Hinv).
      * apply (CompareAndDelete_contract_holds _ _ _ OrderedMap_Implements om Hinv).
Qed.

Section claims_on_the_derived_operations.
Context {K V : Type} `{Countable K} `{EqDecision V} `{Inhabited V}.
Context `{!GoMap.Iteration K V}.
Import DefaultAbstractMap.

(** C5. [LoadOrStore(key, value)] answers [(w, true)] and leaves the map as
    it is when [key] is bound to [w]; it stores [value] and answers
    [(value, false)] when [key] is absent.  Two calls in a row on an absent
    key answer [(v1, false)] then [(v1, true)], and [v1] stays. *)
Theorem LoadOrStore_keeps_first_value :
  (∀ um : UnorderedMap.t K V, LoadOrStore_contract UnorderedMap.declared um) ∧
  (∀ ops : list (Op K V),
     ∃ om, run OrderedMap.methods ops OrderedMap.NewOrderedMap = Ok om ∧
           LoadOrStore_contract OrderedMap.declared om).
Proof.
  split.
  - intros um. apply (LoadOrStore_contract_holds _ _ _ UnorderedMap_Implements um I).
  - intros ops. destruct (OrderedMap_reach ops) as (om & E & Hinv & _).
    exists om. split; [done|].
    apply (LoadOrStore_contract_holds _ _ _ OrderedMap_Implements om Hinv).
Qed.

(** C6. [Clear] collects the keys of the map in one [Range], each key that
    is present once, then deletes the collected keys one by one.  After it
    [Len] is 0 (the method of the map and the one of DefaultAbstractMap),
    [Load] finds no key, and [Range], [Keys] and [Values] invoke no
    visitor. *)
Theorem Clear_empties_in_two_phases :
  (∀ um : UnorderedMap.t K V, Clear_contract UnorderedMap.declared um) ∧
  (∀ ops : list (Op K V),
     ∃ om, run OrderedMap.methods ops OrderedMap.NewOrderedMap = Ok om ∧
           Clear_contract OrderedMap.declared om).
Proof.
  split.
  - intros um. apply (Clear_contract_holds _ _ _
      UnorderedMap_Implements UnorderedMap_HLen um I).
  - intros ops. destruct (OrderedMap_reach ops) as (om & E & Hinv & _).
    exists om. split; [done|]. apply (Clear_contract_holds _ _ _
      OrderedMap_Implements OrderedMap_HLen om Hinv).
Qed.

(** C7. On a map that holds no pair, and so on a new map, [Range], [Keys]
    and [Values] invoke no visitor; on a map that holds [n + 1] pairs, a
    visitor that answers [false] the first time is invoked once. *)
Theorem Range_empty_and_early_stop :
  (never_visits UnorderedMap.declared (UnorderedMap.NewUnorderedMap (K:=K) (V:=V)) ∧
   ∀ um : UnorderedMap.t K V, Range_contract UnorderedMap.declared um) ∧
  (never_visits OrderedMap.declared (OrderedMap.NewOrderedMap (K:=K) (V:=V)) ∧
   ∀ ops : list (Op K V),
     ∃ om, run OrderedMap.methods ops OrderedMap.NewOrderedMap = Ok om ∧
           Range_contract OrderedMap.declared om).
Proof.
  split; split.
  - by apply (never_visits_empty _ _ _ UnorderedMap_Implements).
  - intros um. apply (Range_contract_holds _ _ _
      UnorderedMap_Implements UnorderedMap_HLen um I).
  - by apply (never_visits_empty _ _ _ OrderedMap_Implements _ inv_New).
  - intros ops. destruct (OrderedMap_reach ops) as (om & E & Hinv & _).
    exists om. split; [done|]. apply (Range_contract_holds _ _ _
      OrderedMap_Implements OrderedMap_HLen om Hinv).
Qed.

(** C8. After any sequence of calls on a new map, the method [Len] of the
    map and the [Len] of DefaultAbstractMap, which counts by a full [Range],
    give the same number: the number of the keys [Load] finds, which is the
    size of the finite map the calls describe and, when no call is a
    [CompareAndDelete], the number of the keys stored and not deleted or
    cleared since. *)
Theorem Len_counts_present_keys (ops : list (Op K V)) :
  (∃ um, run UnorderedMap.methods ops UnorderedMap.NewUnorderedMap = Ok um ∧
         Len_contract UnorderedMap.declared um (size (model_run ops ∅))) ∧
  (∃ om, run OrderedMap.methods ops OrderedMap.NewOrderedMap = Ok om ∧
         Len_contract OrderedMap.declared om (size (model_run ops ∅))) ∧
  (forallb unconditional ops = true →
     size (model_run ops (∅ : gmap K V)) = size (live_keys ops)).
Proof.
  split; [|split].
  - destruct (UnorderedMap_reach ops) as (um & E & A).
    exists um. split; [done|]. rewrite <- A. apply (Len_contract_holds _ _ _
      UnorderedMap_Implements UnorderedMap_HLen um I).
  - destruct (OrderedMap_reach ops) as (om & E & Hinv & A & _).
    exists om. split; [done|]. rewrite <- A. apply (Len_contract_holds _ _ _
      OrderedMap_Implements OrderedMap_HLen om Hinv).
  - intros Hops. by rewrite <- dom_model_run, size_dom.
Qed.

(** C9. [Swap(key, value)] answers [(w, true)] when [key] was bound to [w]
    and the zero value with [false] when it was absent; one of the two is
    the case; in both [value] is stored, and [Load(key)] answers
    [(value, true)] afterwards. *)
Theorem Swap_returns_previous_and_stores :
  (∀ um : UnorderedMap.t K V, Swap_contract UnorderedMap.declared um) ∧
  (∀ ops : list (Op K V),
     ∃ om, run OrderedMap.methods ops OrderedMap.NewOrderedMap = Ok om ∧
           Swap_contract OrderedMap.declared om).
Proof.
  split.
  - intros um. apply (Swap_contract_holds _ _ _ UnorderedMap_Implements um I).
  - intros ops. destruct (OrderedMap_reach ops) as (om & E & Hinv & _).
    exists om. split; [done|].
    apply (Swap_contract_holds _ _ _ OrderedMap_Implements om Hinv).
Qed.

(** C10. On a map made by [NewUnorderedMap] or [NewOrderedMap], [impl]
    selects the [Delete], [Load], [Range] and [Store] of the map itself;
    every sequence of calls returns, and on the map reached no derived
    operation panics.  On the scaffold with no backend the stubs are
    reached: [Len] panics with the message of the stub. *)
Theorem concrete_maps_never_reach_stubs :
  (impl_Delete UnorderedMap.impl = UnorderedMap.Delete (K:=K) (V:=V) ∧
   impl_Load UnorderedMap.impl = UnorderedMap.Load (K:=K) (V:=V) ∧
   impl_Range UnorderedMap.impl = UnorderedMap.Range (K:=K) (V:=V) ∧
   impl_Store UnorderedMap.impl = UnorderedMap.Store (K:=K) (V:=V)) ∧
  (impl_Delete OrderedMap.impl = OrderedMap.Delete (K:=K) (V:=V) ∧
   impl_Load OrderedMap.impl = OrderedMap.Load (K:=K) (V:=V) ∧
   impl_Range OrderedMap.impl = OrderedMap.Range (K:=K) (V:=V) ∧
   impl_Store OrderedMap.impl = OrderedMap.Store (K:=K) (V:=V)) ∧
  (∀ ops : list (Op K V),
     ∃ um, run UnorderedMap.methods ops UnorderedMap.NewUnorderedMap = Ok um ∧
           never_aborts UnorderedMap.declared um) ∧
  (∀ ops : list (Op K V),
     ∃ om, run OrderedMap.methods ops OrderedMap.NewOrderedMap = Ok om ∧
           never_aborts OrderedMap.declared om) ∧
  not_implemented (am_Len (method_set (scaffold (K:=K) (V:=V))) ()).
Proof.
  split; [done|]. split; [done|]. split; [|split; [|done]].
  - intros ops. destruct (UnorderedMap_reach ops) as (um & E & _).
    exists um. split; [done|]. apply (never_aborts_holds _ _ _
      UnorderedMap_Implements UnorderedMap_HLen um I).
  - intros ops. destruct (OrderedMap_reach ops) as (om & E & Hinv & _).
    exists om. split; [done|]. apply (never_aborts_holds _ _ _
      OrderedMap_Implements OrderedMap_HLen om Hinv).
Qed.
End claims_on_the_derived_operations.

(** * Beyond the claims *)

(** ** More on loops *)

Section more_loops.
Context {K V T : Type}.

Lemma range_loop_traced1_keys_full (f : K → T → bool * T) (pairs : list (K * V)) log t :
  (∀ k t, (f k t).1 = true) →
  (range_loop (λ key (_ : V) st, traced1 f key st) pairs (log, t)).1 = log ++ pairs.*1.
Proof.
  intros Hf. revert log t. induction pairs as [|[k v] rest IH]; intros log t; simpl.
  - by rewrite app_nil_r.
  - specialize (Hf k t). destruct (f k t) as [c t1]; simpl in *; subst c.
    rewrite IH. by rewrite <- app_assoc.
Qed.

Lemma range_loop_traced1_values_full (f : V → T → bool * T) (pairs : list (K * V)) log t :
  (∀ v t, (f v t).1 = true) →
  (range_loop (λ (_ : K) value st, traced1 f value st) pairs (log, t)).1 = log ++ pairs.*2.
Proof.
  intros Hf. revert log t. induction pairs as [|[k v] rest IH]; intros log t; simpl.
  - by rewrite app_nil_r.
  - specialize (Hf v t). destruct (f v t) as [c t1]; simpl in *; subst c.
    rewrite IH. by rewrite <- app_assoc.
Qed.

Lemma range_loop_answered (f : visitor K V T) (pairs : list (K * V)) log0 t :
  ∃ new,
    range_loop (answered f) pairs (log0, t) = (log0 ++ new, range_loop f pairs t) ∧
    new.*1 = take (length new) pairs ∧
    Forall (λ e, e.2 = true) (take (length new - 1) new) ∧
    (length new < length pairs → ∃ k v, last new = Some (k, v, false)).
Proof.
  revert log0 t. induction pairs as [|[k v] rest IH]; intros log0 t.
  - exists []. simpl. rewrite app_nil_r. repeat split; [constructor|lia].
  - cbn [range_loop answered]. destruct (f k v t) as [[] t1] eqn:Ef.
    + destruct (IH (log0 ++ [(k, v, true)]) t1) as (new & E & Hpre & Hall & Hlast).
      exists ((k, v, true) :: new). rewrite E, <- app_assoc. simpl.
      split; [done|]. split; [by rewrite Hpre at 1|]. split.
      * rewrite Nat.sub_0_r. destruct new as [|e new]; [constructor|].
        simpl in *. rewrite Nat.sub_0_r in Hall. by constructor.
      * intros Hlt. destruct Hlast as (k' & v' & Hl); [lia|].
        exists k', v'. destruct new as [|e new]; [done|]. by rewrite last_cons_cons.
    + exists [(k, v, false)]. simpl. repeat split; [constructor|]. eauto.
Qed.
End more_loops.

(** ** The contracts the claims leave out, on every backend *)

Section more_contracts_hold.
Context {K V St : Type} `{Countable K} `{EqDecision V} `{Inhabited V}.
Import DefaultAbstractMap.
Variables (d : Declared K V St) (inv : St → Prop) (abs : St → gmap K V).
Local Abbreviation impl := (NewDefaultAbstractMap d).
Hypothesis Himpl : Implements impl inv abs.
Hypothesis HLen : ∀ s, inv s → am_Len (method_set d) s = Ok (size (abs s), s).
Hypothesis HDelete : ∀ s key, inv s → abs s !! key = None →
  impl_Delete impl key s = Ok ((), s).

Lemma reads_abs s key r :
  inv s → reads d s key r ↔ r = GoMap.index (abs s) key.
Proof.
  intros Hs. unfold reads. cbn [method_set am_Load].
  rewrite (Load_abs _ _ _ Himpl s key Hs). split; [by intros [= ->]|by intros ->].
Qed.

Lemma pairs_of_abs s pairs :
  inv s → pairs ≡ₚ map_to_list (abs s) → pairs_of d s pairs.
Proof.
  intros Hs Hp. split.
  - rewrite Hp. apply NoDup_fst_map_to_list.
  - intros k v. rewrite Hp, elem_of_map_to_list. symmetry.
    apply (found_abs d inv abs Himpl s k v Hs).
Qed.

Lemma LoadAndDelete_contract_holds s : inv s → LoadAndDelete_contract d s.
Proof.
  intros Hs key.
  assert (Habsent : ∀ s0, inv s0 → missing d s0 key →
            am_LoadAndDelete (method_set d) key s0 = Ok ((inhabitant, false), s0)).
  { intros s0 Hs0 Hm. cbn [method_set am_LoadAndDelete]. unfold LoadAndDelete, bind, ret.
    unfold missing in Hm. cbn [method_set am_Load] in Hm. by rewrite Hm. }
  split; [|by apply Habsent].
  intros w Hw.
  destruct (Delete_abs _ _ _ Himpl s key Hs) as (s' & E & Hs' & A).
  destruct (Load_after_Delete d inv abs Himpl s s' key Hs E) as (_ & Hm & Hse).
  exists s'. split; [|split; [done|split; [done|split; [done|by apply Habsent]]]].
  cbn [method_set am_LoadAndDelete]. unfold LoadAndDelete, bind, ret.
  unfold found in Hw. cbn [method_set am_Load] in Hw. by rewrite Hw, E.
Qed.

Lemma Delete_contract_holds s : inv s → Delete_contract d s.
Proof.
  intros Hs key. split.
  - intros Hm%(missing_abs d inv abs Himpl); [|done]. by apply HDelete.
  - destruct (Delete_abs _ _ _ Himpl s key Hs) as (s' & E & Hs' & A).
    destruct (Load_after_Delete d inv abs Himpl s s' key Hs E) as (_ & Hm & Hse).
    exists s'. split; [done|]. split; [done|]. split; [done|].
    apply HDelete; [done|]. by rewrite A, lookup_delete_eq.
Qed.

Lemma Len_step_contract_holds s : inv s → Len_step_contract d s.
Proof.
  intros Hs n Hn%(holds_abs d inv abs HLen); [|done]. intros key value. split.
  - destruct (Store_abs _ _ _ Himpl s key value Hs) as (s' & E & Hs' & A).
    exists s'. split; [done|]. split.
    + intros [w Hw%(found_abs d inv abs Himpl)]; [|done].
      apply (holds_abs d inv abs HLen); [done|].
      rewrite A, map_size_insert_Some; eauto.
    + intros Hm%(missing_abs d inv abs Himpl); [|done].
      apply (holds_abs d inv abs HLen); [done|].
      rewrite A, map_size_insert_None by done. lia.
  - destruct (Delete_abs _ _ _ Himpl s key Hs) as (s' & E & Hs' & A).
    exists s'. split; [done|]. split.
    + intros [w Hw%(found_abs d inv abs Himpl)]; [|done].
      assert (0 < size (abs s)).
      { apply Nat.neq_0_lt_0. intros E0. apply map_size_empty_inv in E0.
        by rewrite E0, lookup_empty in Hw. }
      split; [lia|]. apply (holds_abs d inv abs HLen); [done|].
      rewrite A, map_size_delete_Some by eauto. lia.
    + intros Hm%(missing_abs d inv abs Himpl); [|done].
      apply (holds_abs d inv abs HLen); [done|].
      by rewrite A, map_size_delete_None.
Qed.

Lemma full_traversal_contract_holds s : inv s → full_traversal_contract d s.
Proof.
  intros Hs.
  destruct (Range_abs _ _ _ Himpl s Hs) as (pairs & s' & Hp & _ & _ & R).
  pose proof (pairs_of_abs s pairs Hs Hp) as Hpairs.
  split; [|split]; intros T f t Hf.
  - exists pairs. cbn [method_set am_Range]. rewrite R.
    pose proof (range_loop_traced_full f pairs [] t Hf) as Hlog.
    destruct (range_loop _ _ _) as [log t']. simpl in Hlog. subst log.
    exists t', s'. split; [done|]. split; [done|].
    apply (holds_abs d inv abs HLen); [done|]. symmetry. by apply length_pairs.
  - exists pairs. cbn [method_set am_Keys]. unfold Keys. rewrite R.
    pose proof (range_loop_traced1_keys_full f pairs [] t Hf) as Hlog.
    destruct (range_loop _ _ _) as [log t']. simpl in Hlog. subst log. by exists t', s'.
  - exists pairs. cbn [method_set am_Values]. unfold Values. rewrite R.
    pose proof (range_loop_traced1_values_full f pairs [] t Hf) as Hlog.
    destruct (range_loop _ _ _) as [log t']. simpl in Hlog. subst log. by exists t', s'.
Qed.

Lemma early_stop_contract_holds s : inv s → early_stop_contract d s.
Proof.
  intros Hs T f t.
  destruct (Range_abs _ _ _ Himpl s Hs) as (pairs & s' & Hp & _ & _ & R).
  destruct (range_loop_answered f pairs [] t) as (log & E & Hpre & Hall & Hlast).
  exists pairs, log, (range_loop f pairs t), s'.
  split; [by apply pairs_of_abs|]. cbn [method_set am_Range]. rewrite !R, E.
  split; [done|]. split; [done|]. split; [done|]. split; [done|]. by exists s'.
Qed.
End more_contracts_hold.

(** ** The two maps and the contracts the claims leave out *)

Section more_on_maps.
Context {K V : Type} `{Countable K} `{EqDecision V} `{Inhabited V}.
Context `{!GoMap.Iteration K V}.
Import DefaultAbstractMap.

Lemma UnorderedMap_HDelete (um : UnorderedMap.t K V) key :
  True → UnorderedMap.m um !! key = None →
  impl_Delete (NewDefaultAbstractMap UnorderedMap.declared) key um = Ok ((), um).
Proof.
  intros _ Hk. cbn. unfold UnorderedMap.Delete. rewrite delete_id by done.
  by destruct um.
Qed.

Lemma OrderedMap_HDelete (om : OrderedMap.t K V) key :
  OrderedMap.inv om → OrderedMap.abs om !! key = None →
  impl_Delete (NewDefaultAbstractMap OrderedMap.declared) key om = Ok ((), om).
Proof.
  intros Hinv Hk. cbn. unfold OrderedMap.Delete.
  destruct (OrderedMap.m om !! key) as [element|] eqn:Hm; [|done].
  assert (is_Some (OrderedMap.abs om !! key)) as [? ?]; [|congruence].
  apply abs_dom; eauto.
Qed.

(** X1. [LoadAndDelete] on both maps: on a bound key it answers the value
    with [true] and leaves the map [Delete] leaves, where the key is
    missing, the other keys are as before, and a second [LoadAndDelete]
    answers the zero value with [false]; on an absent key it answers the
    zero value with [false] and the map is the same. *)
Theorem LoadAndDelete_takes_the_value_once :
  (∀ um : UnorderedMap.t K V, LoadAndDelete_contract UnorderedMap.declared um) ∧
  (∀ ops : list (Op K V),
     ∃ om, run OrderedMap.methods ops OrderedMap.NewOrderedMap = Ok om ∧
           LoadAndDelete_contract OrderedMap.declared om).
Proof.
  split.
  - intros um. apply (LoadAndDelete_contract_holds _ _ _ UnorderedMap_Implements um I).
  - intros ops. destruct (OrderedMap_reach ops) as (om & E & Hinv & _).
    exists om. split; [done|].
    apply (LoadAndDelete_contract_holds _ _ _ OrderedMap_Implements om Hinv).
Qed.

(** X2. [Delete] on both maps: it always returns; the key is missing
    afterwards and the other keys are as before; on an absent key, and so
    when it is called a second time, the map it leaves is the very same. *)
Theorem Delete_removes_one_key_and_is_idempotent :
  (∀ um : UnorderedMap.t K V, Delete_contract UnorderedMap.declared um) ∧
  (∀ ops : list (Op K V),
     ∃ om, run OrderedMap.methods ops OrderedMap.NewOrderedMap = Ok om ∧
           Delete_contract OrderedMap.declared om).
Proof.
  split.
  - intros um. apply (Delete_contract_holds _ _ _
      UnorderedMap_Implements UnorderedMap_HDelete um I).
  - intros ops. destruct (OrderedMap_reach ops) as (om & E & Hinv & _).
    exists om. split; [done|]. apply (Delete_contract_holds _ _ _
      OrderedMap_Implements OrderedMap_HDelete om Hinv).
Qed.

(** X3. On both maps [Store] to an absent key adds one to [Len] and
    [Store] to a bound key leaves [Len]; [Delete] of a bound key takes one
    from [Len], which was positive, and [Delete] of an absent key leaves
    [Len]. *)
Theorem Len_follows_Store_and_Delete :
  (∀ um : UnorderedMap.t K V, Len_step_contract UnorderedMap.declared um) ∧
  (∀ ops : list (Op K V),
     ∃ om, run OrderedMap.methods ops OrderedMap.NewOrderedMap = Ok om ∧
           Len_step_contract OrderedMap.declared om).
Proof.
  split.
  - intros um. apply (Len_step_contract_holds _ _ _
      UnorderedMap_Implements UnorderedMap_HLen um I).
  - intros ops. destruct (OrderedMap_reach ops) as (om & E & Hinv & _).
    exists om. split; [done|]. apply (Len_step_contract_holds _ _ _
      OrderedMap_Implements OrderedMap_HLen om Hinv).
Qed.

(** X4. On both maps, in every state, [Store(key, v1)] followed by
    [Store(key, v2)] leaves what [Store(key, v2)] alone leaves: the first
    value leaves no trace, and an ordered map allocates one element at
    most. *)
Theorem Store_twice_is_the_last_Store (key : K) (v1 v2 : V) :
  (∀ um : UnorderedMap.t K V,
     (am_Store UnorderedMap.methods key v1 ;;; am_Store UnorderedMap.methods key v2) um
       = am_Store UnorderedMap.methods key v2 um) ∧
  (∀ om : OrderedMap.t K V,
     (am_Store OrderedMap.methods key v1 ;;; am_Store OrderedMap.methods key v2) om
       = am_Store OrderedMap.methods key v2 om).
Proof.
  split.
  - intros um. cbn. unfold bind, UnorderedMap.Store. simpl. by rewrite insert_insert_eq.
  - intros om. cbn. unfold bind, OrderedMap.Store.
    destruct (OrderedMap.m om !! key) as [element|] eqn:Hm.
    + destruct (List_.Value element (OrderedMap.l om)) as [en|] eqn:C; [|done].
      simpl. rewrite Hm. unfold List_.Value, List_.set_Value. simpl.
      rewrite lookup_insert_eq. simpl. by rewrite insert_insert_eq.
    + unfold List_.PushBack. simpl. rewrite lookup_insert_eq.
      unfold List_.Value, List_.set_Value. simpl.
      rewrite lookup_insert_eq. simpl. by rewrite insert_insert_eq.
Qed.

(** X6. On both maps a visitor that never answers [false] is invoked by
    [Range] once on every pair of the map, as many times as [Len] says;
    [Keys] invokes it on the keys and [Values] on the values of such a
    traversal, every key once. *)
Theorem full_traversal_shows_every_pair_once :
  (∀ um : UnorderedMap.t K V, full_traversal_contract UnorderedMap.declared um) ∧
  (∀ ops : list (Op K V),
     ∃ om, run OrderedMap.methods ops OrderedMap.NewOrderedMap = Ok om ∧
           full_traversal_contract OrderedMap.declared om).
Proof.
  split.
  - intros um. apply (full_traversal_contract_holds _ _ _
      UnorderedMap_Implements UnorderedMap_HLen um I).
  - intros ops. destruct (OrderedMap_reach ops) as (om & E & Hinv & _).
    exists om. split; [done|]. apply (full_traversal_contract_holds _ _ _
      OrderedMap_Implements OrderedMap_HLen om Hinv).
Qed.

(** X8. On both maps the invocations [Range] makes are on the first pairs
    of a full traversal, in its order (for an ordered map, the order of
    insertion); every answer of the visitor is [true] but the last; pairs
    are left unvisited only when the last answer is [false]. *)
Theorem Range_stops_at_the_first_false :
  (∀ um : UnorderedMap.t K V, early_stop_contract UnorderedMap.declared um) ∧
  (∀ ops : list (Op K V),
     ∃ om, run OrderedMap.methods ops OrderedMap.NewOrderedMap = Ok om ∧
           early_stop_contract OrderedMap.declared om ∧
           ∀ (T : Type) (f : visitor K V T) (t : T),
             ∃ log t', am_Range OrderedMap.methods _ (traced f) ([], t) om
                         = Ok ((log, t'), om) ∧
                       log = take (length log) (order_run ops [])).
Proof.
  split.
  - intros um. apply (early_stop_contract_holds _ _ _ UnorderedMap_Implements um I).
  - intros ops. destruct (OrderedMap_reach ops) as (om & E & Hinv & _ & En).
    exists om. split; [done|]. split.
    + apply (early_stop_contract_holds _ _ _ OrderedMap_Implements om Hinv).
    + intros T f t.
      change (am_Range OrderedMap.methods) with (OrderedMap.Range (K:=K) (V:=V)).
      rewrite OrderedMap_Range_entries by done. rewrite En.
      destruct (range_loop_traced_prefix f (order_run ops []) [] t) as (n & Hn).
      destruct (range_loop _ _ _) as [log t']. simpl in Hn. subst log.
      exists (take n (order_run ops [])), t'. split; [done|].
      rewrite length_take.
      destruct (Nat.min_spec n (length (order_run ops ([] : list (K * V)))))
        as [[? ->]|[? ->]]; [done|].
      by rewrite !take_ge by lia.
Qed.
End more_on_maps.

(** ** Maps that read the same *)

Section same_answers.
Context {K V : Type} `{Countable K} `{EqDecision V} `{Inhabited V}.
Import DefaultAbstractMap.

Lemma same_answers_abs {St1 St2 : Type}
    (d1 : Declared K V St1) (inv1 : St1 → Prop) (abs1 : St1 → gmap K V)
    (d2 : Declared K V St2) (inv2 : St2 → Prop) (abs2 : St2 → gmap K V) s1 s2 :
  Implements (NewDefaultAbstractMap d1) inv1 abs1 →
  (∀ s, inv1 s → am_Len (method_set d1) s = Ok (size (abs1 s), s)) →
  Implements (NewDefaultAbstractMap d2) inv2 abs2 →
  (∀ s, inv2 s → am_Len (method_set d2) s = Ok (size (abs2 s), s)) →
  inv1 s1 → inv2 s2 → abs1 s1 = abs2 s2 → same_answers d1 s1 d2 s2.
Proof.
  intros Himpl1 HLen1 Himpl2 HLen2 Hs1 Hs2 A. split.
  - intros key r. rewrite (reads_abs d1 inv1 abs1 Himpl1) by done.
    rewrite (reads_abs d2 inv2 abs2 Himpl2) by done. by rewrite A.
  - intros n. rewrite (holds_abs d1 inv1 abs1 HLen1) by done.
    rewrite (holds_abs d2 inv2 abs2 HLen2) by done. by rewrite A.
Qed.

Lemma traversal_entries (om : OrderedMap.t K V) :
  OrderedMap.inv om → traversal om (OrderedMap.entries om).
Proof.
  intros Hinv. unfold traversal.
  change (am_Range OrderedMap.methods) with (OrderedMap.Range (K:=K) (V:=V)).
  rewrite OrderedMap_Range_entries by done. by rewrite range_loop_collect.
Qed.

Lemma Clear_then_run {St : Type} (d : Declared K V St) (inv : St → Prop)
    (abs : St → gmap K V) (ops : list (Op K V)) s0 s :
  Implements (NewDefaultAbstractMap d) inv abs →
  (∀ s, inv s → am_Len (method_set d) s = Ok (size (abs s), s)) →
  inv s0 → abs s0 = ∅ → inv s →
  ∃ s' sA sB, am_Clear (method_set d) s = Ok ((), s') ∧ inv s' ∧ abs s' = ∅ ∧
    run (method_set d) ops s' = Ok sA ∧ run (method_set d) ops s0 = Ok sB ∧
    inv sA ∧ inv sB ∧ abs sA = abs sB.
Proof.
  intros Himpl HLen Hs0 A0 Hs.
  destruct (Clear_abs _ _ _ Himpl s Hs) as (? & ? & s' & _ & _ & _ & E & Hs' & A).
  destruct (run_abs d inv abs Himpl (HLen_run d inv abs HLen) ops s' Hs')
    as (sA & EA & HsA & AA).
  destruct (run_abs d inv abs Himpl (HLen_run d inv abs HLen) ops s0 Hs0)
    as (sB & EB & HsB & AB).
  exists s', sA, sB. repeat split; try done. by rewrite AA, AB, A, A0.
Qed.
End same_answers.

Section more_on_order.
Context {K V : Type} `{Countable K} `{EqDecision V} `{Inhabited V}.
Context `{!GoMap.Iteration K V}.
Import DefaultAbstractMap.

(** X5. [Store] then [Delete] of a key that was absent: an unordered map
    is the very same afterwards; an ordered map answers [Load] and [Len] as
    before, and its traversal is the one before. *)
Theorem Store_then_Delete_restores :
  (∀ (um : UnorderedMap.t K V) key value, missing UnorderedMap.declared um key →
     ∃ um1, am_Store UnorderedMap.methods key value um = Ok ((), um1) ∧
            am_Delete UnorderedMap.methods key um1 = Ok ((), um)) ∧
  (∀ ops : list (Op K V),
     ∃ om, run OrderedMap.methods ops OrderedMap.NewOrderedMap = Ok om ∧
       traversal om (order_run ops []) ∧
       ∀ key value, missing OrderedMap.declared om key →
         ∃ om1 om2, am_Store OrderedMap.methods key value om = Ok ((), om1) ∧
                    am_Delete OrderedMap.methods key om1 = Ok ((), om2) ∧
                    same_answers OrderedMap.declared om OrderedMap.declared om2 ∧
                    traversal om2 (order_run ops [])).
Proof.
  split.
  - intros um key value Hm.
    apply (missing_abs _ _ _ UnorderedMap_Implements um key I) in Hm.
    eexists. split; [done|]. cbn. unfold UnorderedMap.Delete. simpl.
    rewrite delete_insert_id by done. by destruct um.
  - intros ops. destruct (OrderedMap_reach ops) as (om & E & Hinv & _ & En).
    exists om. split; [done|]. split; [rewrite <- En; by apply traversal_entries|].
    intros key value Hm.
    apply (missing_abs _ _ _ OrderedMap_Implements om key Hinv) in Hm.
    destruct (OrderedMap_Store_entries om key value Hinv) as (om1 & E1 & Hinv1 & En1).
    destruct (OrderedMap_Delete_entries om1 key Hinv1) as (om2 & E2 & Hinv2 & En2).
    assert (Hsame : OrderedMap.entries om2 = OrderedMap.entries om).
    { rewrite En2, En1.
      assert (Hnot : key ∉ (OrderedMap.entries om).*1).
      { rewrite elem_of_keys_abs by done. rewrite Hm. by intros [? ?]. }
      rewrite assoc_store_absent by done. unfold assoc_delete.
      rewrite filter_app, filter_cons, filter_nil. cbn [fst].
      rewrite decide_False by (intros ?; done). rewrite app_nil_r.
      by apply assoc_delete_absent. }
    exists om1, om2. split; [done|]. split; [done|]. split.
    + apply (same_answers_abs _ OrderedMap.inv OrderedMap.abs
               _ OrderedMap.inv OrderedMap.abs);
        try done; try apply OrderedMap_Implements; try apply OrderedMap_HLen.
      unfold OrderedMap.abs. by rewrite Hsame.
    + rewrite <- En, <- Hsame. by apply traversal_entries.
Qed.

(** X7. After any sequence of calls on a new OrderedMap, [Keys] shows a
    visitor that never answers [false] the keys in the order of insertion,
    and [Values] the values in the order of the insertion of their keys;
    both leave the map as it is. *)
Theorem OrderedMap_Keys_and_Values_in_insertion_order (ops : list (Op K V)) :
  ∃ om, run OrderedMap.methods ops OrderedMap.NewOrderedMap = Ok om ∧
    (∀ (T : Type) (f : K → T → bool * T) (t : T), (∀ k t, (f k t).1 = true) →
       ∃ t', am_Keys OrderedMap.methods _ (traced1 f) ([], t) om
               = Ok (((order_run ops []).*1, t'), om)) ∧
    (∀ (T : Type) (f : V → T → bool * T) (t : T), (∀ v t, (f v t).1 = true) →
       ∃ t', am_Values OrderedMap.methods _ (traced1 f) ([], t) om
               = Ok (((order_run ops []).*2, t'), om)).
Proof.
  destruct (OrderedMap_reach ops) as (om & E & Hinv & _ & En).
  exists om. split; [done|]. split; intros T f t Hf.
  - change (am_Keys OrderedMap.methods _ (traced1 f) ([], t) om)
      with (OrderedMap.Range _ (λ key (_ : V) st, traced1 f key st) ([], t) om).
    rewrite OrderedMap_Range_entries by done. rewrite En.
    pose proof (range_loop_traced1_keys_full (V:=V) f (order_run ops []) [] t Hf) as Hlog.
    destruct (range_loop _ _ _) as [log t']. simpl in Hlog. subst log. by exists t'.
  - change (am_Values OrderedMap.methods _ (traced1 f) ([], t) om)
      with (OrderedMap.Range _ (λ (_ : K) value st, traced1 f value st) ([], t) om).
    rewrite OrderedMap_Range_entries by done. rewrite En.
    pose proof (range_loop_traced1_values_full (K:=K) f (order_run ops []) [] t Hf) as Hlog.
    destruct (range_loop _ _ _) as [log t']. simpl in Hlog. subst log. by exists t'.
Qed.

(** X9. After [Clear] a map is as good as new: any sequence of calls on
    it returns, and [Load] and [Len] then answer what they answer after the
    same calls on a new map; for an ordered map the traversal is the same
    as well. *)
Theorem Clear_makes_the_map_as_new (ops : list (Op K V)) :
  (∀ um : UnorderedMap.t K V,
     ∃ um' umA umB, am_Clear UnorderedMap.methods um = Ok ((), um') ∧
       run UnorderedMap.methods ops um' = Ok umA ∧
       run UnorderedMap.methods ops UnorderedMap.NewUnorderedMap = Ok umB ∧
       same_answers UnorderedMap.declared umA UnorderedMap.declared umB) ∧
  (∀ pre : list (Op K V),
     ∃ om om' omA omB, run OrderedMap.methods pre OrderedMap.NewOrderedMap = Ok om ∧
       am_Clear OrderedMap.methods om = Ok ((), om') ∧
       run OrderedMap.methods ops om' = Ok omA ∧
       run OrderedMap.methods ops OrderedMap.NewOrderedMap = Ok omB ∧
       same_answers OrderedMap.declared omA OrderedMap.declared omB ∧
       traversal omA (order_run ops []) ∧ traversal omB (order_run ops [])).
Proof.
  split.
  - intros um.
    destruct (Clear_then_run UnorderedMap.declared (λ _, True) UnorderedMap.m ops
                UnorderedMap.NewUnorderedMap um UnorderedMap_Implements
                UnorderedMap_HLen I eq_refl I)
      as (um' & umA & umB & E & _ & _ & EA & EB & _ & _ & A).
    exists um', umA, umB. split; [done|]. split; [done|]. split; [done|].
    by apply (same_answers_abs _ (λ _, True) UnorderedMap.m _ (λ _, True) UnorderedMap.m);
      try done; try apply UnorderedMap_Implements.
  - intros pre. destruct (OrderedMap_reach pre) as (om & E & Hinv & _).
    destruct (Clear_then_run OrderedMap.declared OrderedMap.inv OrderedMap.abs ops
                OrderedMap.NewOrderedMap om OrderedMap_Implements
                OrderedMap_HLen inv_New eq_refl Hinv)
      as (om' & omA & omB & EC & Hinv' & A' & EA & EB & HinvA & HinvB & A).
    exists om, om', omA, omB. split; [done|]. split; [done|]. split; [done|].
    split; [done|]. split.
    { apply (same_answers_abs _ OrderedMap.inv OrderedMap.abs
               _ OrderedMap.inv OrderedMap.abs);
        try done; try apply OrderedMap_Implements; try apply OrderedMap_HLen. }
    destruct (OrderedMap_run_entries ops om' Hinv') as (omA' & EA' & _ & EnA).
    destruct (OrderedMap_run_entries ops OrderedMap.NewOrderedMap inv_New)
      as (omB' & EB' & _ & EnB).
    assert (omA' = omA) as -> by (unfold OrderedMap.methods in *; congruence).
    assert (omB' = omB) as -> by (unfold OrderedMap.methods in *; congruence).
    apply list_to_map_empty_inv in A'. rewrite A' in EnA.
    change (OrderedMap.entries OrderedMap.NewOrderedMap) with ([] : list (K * V)) in EnB.
    split; [rewrite <- EnA|rewrite <- EnB]; by apply traversal_entries.
Qed.

(** X10. The same calls on a new UnorderedMap and on a new OrderedMap
    leave maps on which [Load] and [Len] answer the same; a full [Range]
    over the one collects the pairs a full [Range] over the other does, in
    another order. *)
Theorem the_two_maps_answer_the_same (ops : list (Op K V)) :
  ∃ um om,
    run UnorderedMap.methods ops UnorderedMap.NewUnorderedMap = Ok um ∧
    run OrderedMap.methods ops OrderedMap.NewOrderedMap = Ok om ∧
    same_answers UnorderedMap.declared um OrderedMap.declared om ∧
    ∃ pairs um', am_Range UnorderedMap.methods _ collect [] um = Ok (pairs, um') ∧
                 traversal om (order_run ops []) ∧ pairs ≡ₚ order_run ops [].
Proof.
  destruct (UnorderedMap_reach ops) as (um & Eu & Au).
  destruct (OrderedMap_reach ops) as (om & Eo & Hinv & Ao & En).
  exists um, om. split; [done|]. split; [done|]. split.
  { apply (same_answers_abs _ (λ _, True) UnorderedMap.m
             _ OrderedMap.inv OrderedMap.abs); try done;
      try apply UnorderedMap_Implements; try apply OrderedMap_Implements;
      try apply OrderedMap_HLen. by rewrite Au, Ao. }
  eexists _, _. split; [cbn; unfold UnorderedMap.Range; by rewrite range_loop_collect|].
  split; [rewrite <- En; by apply traversal_entries|]. simpl.
  rewrite GoMap.range_order_perm, Au, <- Ao, <- En. unfold OrderedMap.abs.
  apply map_to_list_to_map. by apply inv_keys_NoDup.
Qed.
End more_on_order.

(** X11. The order in which the built-in map is traversed does not show
    in an UnorderedMap: under any two iteration orders the same calls
    return and leave the same pairs, so [Load] and [Len] answer the
    same. *)
Theorem UnorderedMap_contents_do_not_depend_on_the_order
    {K V : Type} `{Countable K} `{EqDecision V} `{Inhabited V}
    (I1 I2 : GoMap.Iteration K V) (ops : list (Op K V)) :
  ∃ um1 um2,
    run (@UnorderedMap.methods K V _ _ _ _ I1) ops UnorderedMap.NewUnorderedMap = Ok um1 ∧
    run (@UnorderedMap.methods K V _ _ _ _ I2) ops UnorderedMap.NewUnorderedMap = Ok um2 ∧
    UnorderedMap.m um1 = UnorderedMap.m um2 ∧
    same_answers (@UnorderedMap.declared K V _ _ _ I1) um1
                 (@UnorderedMap.declared K V _ _ _ I2) um2.
Proof.
  destruct (@UnorderedMap_reach K V _ _ _ _ I1 ops) as (um1 & E1 & A1).
  destruct (@UnorderedMap_reach K V _ _ _ _ I2 ops) as (um2 & E2 & A2).
  exists um1, um2. split; [done|]. split; [done|].
  assert (A : UnorderedMap.m um1 = UnorderedMap.m um2) by by rewrite A1, A2.
  split; [done|].
  by apply (same_answers_abs _ (λ _, True) UnorderedMap.m _ (λ _, True) UnorderedMap.m);
    try done; try apply UnorderedMap_Implements.
Qed.

(** ** The bulk loaders, on every backend *)

Section bulk_loads.
Context {K V St : Type} `{Countable K} `{EqDecision V} `{Inhabited V}.
Context `{!GoMap.Iteration K V}.
Import DefaultAbstractMap.
Variables (d : Declared K V St) (inv : St → Prop) (abs : St → gmap K V).
Hypothesis Himpl : Implements (NewDefaultAbstractMap d) inv abs.

Lemma for_each_Store_abs (pairs : list (K * V)) s :
  inv s →
  ∃ s', for_each (λ '(k, v), am_Store (method_set d) k v) pairs s = Ok ((), s') ∧
        inv s' ∧ abs s' = foldl (λ m p, <[p.1 := p.2]> m) (abs s) pairs.
Proof.
  revert s. induction pairs as [|[k v] rest IH]; intros s Hs.
  - by exists s.
  - destruct (Store_abs _ _ _ Himpl s k v Hs) as (s1 & E1 & Hs1 & A1).
    destruct (IH s1 Hs1) as (s2 & E2 & Hs2 & A2).
    exists s2. cbn [for_each]. unfold bind. cbn [method_set am_Store] in *.
    rewrite E1, E2, A2, A1. done.
Qed.

Lemma foldl_insert_union (pairs : list (K * V)) (m : gmap K V) :
  NoDup pairs.*1 →
  foldl (λ m p, <[p.1 := p.2]> m) m pairs = list_to_map pairs ∪ m.
Proof.
  revert m. induction pairs as [|[k v] rest IH]; intros m Hnd.
  - simpl. by rewrite (left_id_L ∅ (∪)).
  - rewrite fmap_cons in Hnd. apply NoDup_cons in Hnd as [Hk Hnd].
    cbn [foldl fst snd] in *. rewrite IH by done. rewrite list_to_map_cons.
    apply map_eq. intros i. rewrite !lookup_union.
    destruct (decide (i = k)) as [->|Hne].
    + rewrite !lookup_insert_eq.
      rewrite (not_elem_of_list_to_map_1 (M:=gmap K) rest k Hk).
      by destruct (m !! k).
    + by rewrite !lookup_insert_ne.
Qed.

Lemma store_all_abs n (gm : gmap K V) s :
  inv s →
  ∃ s', store_all (method_set d) n gm s = Ok ((), s') ∧ inv s' ∧ abs s' = gm ∪ abs s.
Proof.
  intros Hs. destruct (for_each_Store_abs (GoMap.range_order n gm) s Hs)
    as (s' & E & Hs' & A).
  exists s'. split; [done|]. split; [done|]. rewrite A.
  pose proof (GoMap.range_order_perm n gm) as Hp.
  assert (Hnd : NoDup (GoMap.range_order n gm).*1).
  { rewrite Hp. apply NoDup_fst_map_to_list. }
  rewrite foldl_insert_union by done. f_equal.
  rewrite (list_to_map_proper _ (map_to_list gm)) by done.
  apply list_to_map_to_list.
Qed.

Lemma FromGoMaps_from_abs n (gms : list (gmap K V)) s :
  inv s →
  ∃ s', FromGoMaps_from (method_set d) n gms s = Ok ((), s') ∧ inv s' ∧
        abs s' = merged (abs s) gms.
Proof.
  revert n s. induction gms as [|gm rest IH]; intros n s Hs.
  - by exists s.
  - destruct (store_all_abs n gm s Hs) as (s1 & E1 & Hs1 & A1).
    destruct (IH (n + 1) s1 Hs1) as (s2 & E2 & Hs2 & A2).
    exists s2. cbn [FromGoMaps_from]. unfold bind. rewrite E1, E2, A2, A1. done.
Qed.

Lemma range_loop_store_into (pairs : list (K * V)) s :
  inv s →
  ∃ s', range_loop (store_into (method_set d)) pairs (Ok s) = Ok s' ∧
        for_each (λ '(k, v), am_Store (method_set d) k v) pairs s = Ok ((), s').
Proof.
  revert s. induction pairs as [|[k v] rest IH]; intros s Hs.
  - by exists s.
  - destruct (Store_abs _ _ _ Himpl s k v Hs) as (s1 & E1 & Hs1 & _).
    destruct (IH s1 Hs1) as (s2 & E2 & F2).
    exists s2. cbn [range_loop for_each store_into]. unfold bind.
    cbn [method_set am_Store] in *. by rewrite E1.
Qed.

Lemma load_from_for_each (am : Source K V) (pairs : list (K * V)) state' s :
  (∀ (T : Type) (f : visitor K V T) (t : T),
     am_Range (src_am am) T f t (src_state am) = Ok (range_loop f pairs t, state')) →
  inv s →
  ∃ s', load_from (method_set d) am s
          = Ok (s', {| src_St := src_St am; src_am := src_am am; src_state := state' |}) ∧
        for_each (λ '(k, v), am_Store (method_set d) k v) pairs s = Ok ((), s').
Proof.
  intros R Hs. destruct (range_loop_store_into pairs s Hs) as (s' & E & F).
  exists s'. split; [|done]. unfold load_from. by rewrite R, E.
Qed.

(** One source of one of the two kinds. *)
Lemma map_source_traversal (c : UnorderedMap.t K V + OrderedMap.t K V) :
  map_reached c →
  ∃ pairs c',
    pairs ≡ₚ map_to_list (map_contents c) ∧ map_contents c' = map_contents c ∧
    map_reached c' ∧ (∀ om, c = inr om → c' = c ∧ pairs = OrderedMap.entries om) ∧
    ∀ s, inv s →
      ∃ s', load_from (method_set d) (map_source c) s = Ok (s', map_source c') ∧
            for_each (λ '(k, v), am_Store (method_set d) k v) pairs s = Ok ((), s').
Proof.
  destruct c as [um|om]; intros Hc.
  - exists (GoMap.range_order (UnorderedMap.ranges um) (UnorderedMap.m um)).
    exists (inl {| UnorderedMap.m := UnorderedMap.m um;
                   UnorderedMap.ranges := UnorderedMap.ranges um + 1 |}).
    split; [apply GoMap.range_order_perm|]. split; [done|]. split; [done|].
    split; [done|]. intros s Hs.
    by apply (load_from_for_each (map_source (inl um))).
  - destruct Hc as [ops Hops].
    destruct (OrderedMap_reach ops) as (om' & E & Hinv & _).
    assert (om' = om) as -> by (unfold OrderedMap.methods in E; congruence).
    exists (OrderedMap.entries om), (inr om).
    split; [symmetry; apply map_to_list_to_map; by apply inv_keys_NoDup|].
    split; [done|]. split; [by exists ops|]. split; [by intros ? [= <-]|].
    intros s Hs. apply (load_from_for_each (map_source (inr om))); [|done].
    intros T f t. by apply OrderedMap_Range_entries.
Qed.

Lemma FromAbstractMap_for_each (cs : list (UnorderedMap.t K V + OrderedMap.t K V)) s :
  Forall map_reached cs → inv s →
  ∃ s' cs' pairss,
    FromAbstractMap (method_set d) (map_source <$> cs) s = Ok (s', map_source <$> cs') ∧
    for_each (λ '(k, v), am_Store (method_set d) k v) (concat pairss) s = Ok ((), s') ∧
    inv s' ∧ abs s' = merged (abs s) (map_contents <$> cs) ∧
    map_contents <$> cs' = map_contents <$> cs ∧ Forall map_reached cs' ∧
    ((∀ c, c ∈ cs → ∃ om, c = inr om) →
       cs' = cs ∧ Forall2 (λ c pairs, ∃ om, c = inr om ∧ pairs = OrderedMap.entries om)
                          cs pairss).
Proof.
  intros Hcs. revert s. induction Hcs as [|c cs Hc Hcs IH]; intros s Hs.
  - exists s, [], []. repeat split; try done; constructor.
  - destruct (map_source_traversal c Hc) as (pairs & c' & Hp & Hc' & Hr' & Hord & Hload).
    destruct (Hload s Hs) as (s1 & E1 & F1).
    destruct (for_each_Store_abs pairs s Hs) as (s1' & F1' & Hs1 & A1).
    assert (s1' = s1) as -> by congruence.
    destruct (IH s1 Hs1) as (s2 & cs' & pairss & E2 & F2 & Hs2 & A2 & Hcs' & Hrs' & Hords).
    exists s2, (c' :: cs'), (pairs :: pairss).
    split; [cbn [fmap list_fmap FromAbstractMap]; rewrite E1; by rewrite E2|].
    split.
    { cbn [concat]. clear -F1 F2. revert s F1.
      induction pairs as [|[k v] rest IHp]; intros s F1.
      - cbn in F1. by injection F1 as ->.
      - cbn [for_each app] in *. unfold bind in *.
        destruct (am_Store (method_set d) k v s) as [[[] s0]|]; [|done]. by apply IHp. }
    split; [done|]. split.
    { rewrite A2, A1. cbn [fmap list_fmap merged foldl]. f_equal.
      assert (Hnd : NoDup pairs.*1) by (rewrite Hp; apply NoDup_fst_map_to_list).
      rewrite foldl_insert_union by done. f_equal.
      rewrite (list_to_map_proper _ (map_to_list (map_contents c))) by done.
      apply list_to_map_to_list. }
    split; [cbn [fmap list_fmap]; by rewrite Hc', Hcs'|].
    split; [by constructor|].
    intros Hall. destruct (Hall c) as [om ->]; [by left|].
    destruct (Hord om eq_refl) as [-> ->].
    destruct Hords as [-> Hf2]; [intros c0 Hc0; apply Hall; by right|].
    split; [done|]. constructor; [by exists om|done].
Qed.
End bulk_loads.

(** ** Last write wins *)

Section merged.
Context {K V : Type} `{Countable K}.

Lemma merged_snoc (base : gmap K V) gms g : merged base (gms ++ [g]) = g ∪ merged base gms.
Proof. unfold merged. by rewrite foldl_app. Qed.

(** [merged] binds a key to what the last source that has the key binds it
    to, and to what the base binds it to when no source has it. *)
Lemma lookup_merged (base : gmap K V) gms key value :
  merged base gms !! key = Some value ↔
  (∃ i g, gms !! i = Some g ∧ g !! key = Some value ∧
          ∀ j g', i < j → gms !! j = Some g' → g' !! key = None) ∨
  (base !! key = Some value ∧ ∀ g, g ∈ gms → g !! key = None).
Proof.
  induction gms as [|g gms IH] using rev_ind.
  - simpl. split.
    + intros Hb. right. split; [done|]. by intros g ?%elem_of_nil.
    + intros [(i & g & Hi & _)|[Hb _]]; [by rewrite lookup_nil in Hi|done].
  - rewrite merged_snoc, lookup_union_Some_raw, IH. split.
    + intros [Hg|[Hg [(i & g0 & Hi & Hv & Hlater)|[Hb Hnone]]]].
      * left. exists (length gms), g. split; [by rewrite list_lookup_middle|].
        split; [done|]. intros j g' Hj Hj'. apply lookup_lt_Some in Hj'.
        rewrite length_app in Hj'. simpl in Hj'. lia.
      * left. exists i, g0. split; [by apply lookup_app_l_Some|]. split; [done|].
        intros j g' Hj Hj'. destruct (decide (j < length gms)) as [Hlt|Hge].
        -- rewrite lookup_app_l in Hj' by done. by eapply Hlater.
        -- apply lookup_lt_Some in Hj' as Hlen. rewrite length_app in Hlen.
           simpl in Hlen. assert (j = length gms) as -> by lia.
           rewrite list_lookup_middle in Hj' by done. congruence.
      * right. split; [done|]. intros g0 [?| ->%list_elem_of_singleton]%elem_of_app; auto.
    + intros [(i & g0 & Hi & Hv & Hlater)|[Hb Hnone]].
      * destruct (decide (i < length gms)) as [Hlt|Hge].
        -- right. split.
           { apply (Hlater (length gms) g); [done|]. by rewrite list_lookup_middle. }
           left. exists i, g0. rewrite lookup_app_l in Hi by done.
           split; [done|]. split; [done|]. intros j g' Hj Hj'.
           apply (Hlater j g'); [done|]. by apply lookup_app_l_Some.
        -- apply lookup_lt_Some in Hi as Hlen. rewrite length_app in Hlen.
           simpl in Hlen. assert (i = length gms) as -> by lia.
           rewrite list_lookup_middle in Hi by done. left. congruence.
      * right. split.
        { apply Hnone. apply elem_of_app. right. by apply list_elem_of_singleton. }
        right. split; [done|]. intros g0 Hg0. apply Hnone. apply elem_of_app. by left.
Qed.
End merged.

(** ** The bulk loaders on the two maps *)

Section bulk_on_maps.
Context {K V : Type} `{Countable K} `{EqDecision V} `{Inhabited V}.
Context `{!GoMap.Iteration K V}.
Import DefaultAbstractMap.

Lemma UnorderedMap_for_each_Store (pairs : list (K * V)) (um : UnorderedMap.t K V) :
  for_each (λ '(k, v), am_Store UnorderedMap.methods k v) pairs um
    = Ok ((), {| UnorderedMap.m := foldl (λ m p, <[p.1 := p.2]> m) (UnorderedMap.m um) pairs;
                 UnorderedMap.ranges := UnorderedMap.ranges um |}).
Proof.
  revert um. induction pairs as [|[k v] rest IH]; intros um.
  - by destruct um.
  - cbn [for_each]. unfold bind. cbn. unfold UnorderedMap.Store at 1.
    by rewrite IH.
Qed.

Lemma UnorderedMap_FromGoMaps_from n (gms : list (gmap K V)) (um : UnorderedMap.t K V) :
  FromGoMaps_from UnorderedMap.methods n gms um
    = Ok ((), {| UnorderedMap.m := merged (UnorderedMap.m um) gms;
                 UnorderedMap.ranges := UnorderedMap.ranges um |}).
Proof.
  revert n um. induction gms as [|gm rest IH]; intros n um.
  - by destruct um.
  - cbn [FromGoMaps_from]. unfold bind, store_all.
    rewrite UnorderedMap_for_each_Store, IH. cbn [UnorderedMap.m UnorderedMap.ranges].
    do 3 f_equal. cbn [merged foldl]. f_equal.
    pose proof (GoMap.range_order_perm n gm) as Hp.
    assert (Hnd : NoDup (GoMap.range_order n gm).*1).
    { rewrite Hp. apply NoDup_fst_map_to_list. }
    rewrite foldl_insert_union by done. f_equal.
    rewrite (list_to_map_proper _ (map_to_list gm)) by done.
    apply list_to_map_to_list.
Qed.

Lemma OrderedMap_for_each_Store (pairs : list (K * V)) (om : OrderedMap.t K V) :
  OrderedMap.inv om →
  ∃ om', for_each (λ '(k, v), am_Store OrderedMap.methods k v) pairs om = Ok ((), om') ∧
         OrderedMap.inv om' ∧
         OrderedMap.entries om'
           = foldl (λ acc p, assoc_store p.1 p.2 acc) (OrderedMap.entries om) pairs.
Proof.
  revert om. induction pairs as [|[k v] rest IH]; intros om Hinv.
  - by exists om.
  - destruct (OrderedMap_Store_entries om k v Hinv) as (om1 & E1 & Hinv1 & En1).
    destruct (IH om1 Hinv1) as (om2 & E2 & Hinv2 & En2).
    exists om2. cbn [for_each]. unfold bind.
    change (am_Store OrderedMap.methods k v om) with (OrderedMap.Store k v om).
    rewrite E1, E2, En2, En1. done.
Qed.

Lemma assoc_store_prefix key value (pairs : list (K * V)) :
  pairs.*1 `prefix_of` (assoc_store key value pairs).*1.
Proof.
  destruct (decide (key ∈ pairs.*1)) as [Hin|Hnot].
  - by rewrite assoc_store_keys_present.
  - rewrite assoc_store_absent by done. rewrite fmap_app. by apply prefix_app_r.
Qed.

Lemma foldl_assoc_store_prefix (base pairs : list (K * V)) :
  base.*1 `prefix_of` (foldl (λ acc p, assoc_store p.1 p.2 acc) base pairs).*1.
Proof.
  revert base. induction pairs as [|[k v] rest IH]; intros base; [done|].
  cbn [foldl]. etrans; [apply (assoc_store_prefix k v)|apply IH].
Qed.

Lemma foldl_assoc_store_nil (pairs : list (K * V)) :
  NoDup pairs.*1 → foldl (λ acc p, assoc_store p.1 p.2 acc) [] pairs = pairs.
Proof.
  induction pairs as [|[k v] rest IH] using rev_ind; intros Hnd; [done|].
  rewrite fmap_app in Hnd. apply NoDup_app in Hnd as (Hnd & Hnot & _).
  rewrite foldl_app. cbn [foldl fst snd]. rewrite IH by done.
  apply assoc_store_absent. intros Hin. apply (Hnot k Hin). by left.
Qed.

Lemma OrderedMap_FromGoMaps_from_prefix n (gms : list (gmap K V)) (om : OrderedMap.t K V) :
  OrderedMap.inv om →
  ∃ om', FromGoMaps_from OrderedMap.methods n gms om = Ok ((), om') ∧
         OrderedMap.inv om' ∧
         (OrderedMap.entries om).*1 `prefix_of` (OrderedMap.entries om').*1.
Proof.
  revert n om. induction gms as [|gm rest IH]; intros n om Hinv.
  - by exists om.
  - destruct (OrderedMap_for_each_Store (GoMap.range_order n gm) om Hinv)
      as (om1 & E1 & Hinv1 & En1).
    destruct (IH (n + 1) om1 Hinv1) as (om2 & E2 & Hinv2 & Hpre).
    exists om2. cbn [FromGoMaps_from]. unfold bind, store_all. rewrite E1, E2.
    split; [done|]. split; [done|]. etrans; [|exact Hpre].
    rewrite En1. apply foldl_assoc_store_prefix.
Qed.

(** X12. [FromGoMaps] stores into the map every pair of the built-in maps
    it is given, in turn.  An unordered map ends with the merge of the
    sources over what it held, the later source winning at a key, whatever
    the order each source is traversed in.  An ordered map answers [Load]
    by the same merge, and the keys it held stay first in its traversal, in
    their order.  The merge binds a key to what the last source that has
    the key binds it to, and to what the map held when no source has it. *)
Theorem FromGoMaps_last_write_wins (gms : list (gmap K V)) :
  (∀ um : UnorderedMap.t K V,
     FromGoMaps UnorderedMap.methods gms um
       = Ok ((), {| UnorderedMap.m := merged (UnorderedMap.m um) gms;
                    UnorderedMap.ranges := UnorderedMap.ranges um |})) ∧
  (∀ ops : list (Op K V),
     ∃ om om', run OrderedMap.methods ops OrderedMap.NewOrderedMap = Ok om ∧
       FromGoMaps OrderedMap.methods gms om = Ok ((), om') ∧
       (∀ key, reads OrderedMap.declared om' key
                 (GoMap.index (merged (model_run ops ∅) gms) key)) ∧
       ∃ pairs, traversal om' pairs ∧ (order_run ops []).*1 `prefix_of` pairs.*1) ∧
  (∀ (base : gmap K V) key value,
     merged base gms !! key = Some value ↔
     (∃ i g, gms !! i = Some g ∧ g !! key = Some value ∧
             ∀ j g', i < j → gms !! j = Some g' → g' !! key = None) ∨
     (base !! key = Some value ∧ ∀ g, g ∈ gms → g !! key = None)).
Proof.
  split; [|split].
  - intros um. apply UnorderedMap_FromGoMaps_from.
  - intros ops. destruct (OrderedMap_reach ops) as (om & E & Hinv & A & En).
    destruct (FromGoMaps_from_abs OrderedMap.declared OrderedMap.inv OrderedMap.abs
                OrderedMap_Implements 0 gms om Hinv) as (om' & E' & Hinv' & A').
    destruct (OrderedMap_FromGoMaps_from_prefix 0 gms om Hinv) as (om'' & E'' & _ & Hpre).
    assert (om'' = om') as -> by (unfold OrderedMap.methods in *; congruence).
    exists om, om'. split; [done|]. split; [done|]. split.
    + intros key. apply (reads_abs _ _ _ OrderedMap_Implements); [done|].
      by rewrite A', A.
    + exists (OrderedMap.entries om'). split; [by apply traversal_entries|].
      by rewrite <- En.
  - intros base key value. apply lookup_merged.
Qed.

(** X13. [FromAbstractMap] stores into the map every pair of the maps it
    is given, in turn, the sources being unordered maps or ordered maps
    built by calls, objects other than the destination.  The destination
    ends with the merge of what the sources hold over what it held, the
    later source winning at a key; the sources hold what they held. *)
Theorem FromAbstractMap_last_write_wins
    (cs : list (UnorderedMap.t K V + OrderedMap.t K V)) :
  Forall map_reached cs →
  (∀ um : UnorderedMap.t K V,
     ∃ um' cs', FromAbstractMap UnorderedMap.methods (map_source <$> cs) um
                  = Ok (um', map_source <$> cs') ∧
                UnorderedMap.m um' = merged (UnorderedMap.m um) (map_contents <$> cs) ∧
                map_contents <$> cs' = map_contents <$> cs) ∧
  (∀ ops : list (Op K V),
     ∃ om om' cs', run OrderedMap.methods ops OrderedMap.NewOrderedMap = Ok om ∧
       FromAbstractMap OrderedMap.methods (map_source <$> cs) om
         = Ok (om', map_source <$> cs') ∧
       (∀ key, reads OrderedMap.declared om' key
                 (GoMap.index (merged (model_run ops ∅) (map_contents <$> cs)) key)) ∧
       map_contents <$> cs' = map_contents <$> cs).
Proof.
  intros Hcs. split.
  - intros um.
    destruct (FromAbstractMap_for_each UnorderedMap.declared (λ _, True) UnorderedMap.m
                UnorderedMap_Implements cs um Hcs I)
      as (um' & cs' & _ & E & _ & _ & A & Hc & _).
    by exists um', cs'.
  - intros ops. destruct (OrderedMap_reach ops) as (om & E & Hinv & A & _).
    destruct (FromAbstractMap_for_each OrderedMap.declared OrderedMap.inv OrderedMap.abs
                OrderedMap_Implements cs om Hcs Hinv)
      as (om' & cs' & _ & E' & _ & Hinv' & A' & Hc & _).
    exists om, om', cs'. split; [done|]. split; [done|]. split; [|done].
    intros key. apply (reads_abs _ _ _ OrderedMap_Implements); [done|].
    by rewrite A', A.
Qed.

Lemma built_sources (srcs_ops : list (list (Op K V))) :
  ∃ srcs : list (OrderedMap.t K V),
    Forall2 (λ ops om, run OrderedMap.methods ops OrderedMap.NewOrderedMap = Ok om)
            srcs_ops srcs.
Proof.
  induction srcs_ops as [|ops rest [srcs IH]].
  - exists []. constructor.
  - destruct (OrderedMap_reach ops) as (om & E & _). exists (om :: srcs). by constructor.
Qed.

Lemma built_sources_entries (srcs_ops : list (list (Op K V))) srcs pairss :
  Forall2 (λ ops om, run OrderedMap.methods ops OrderedMap.NewOrderedMap = Ok om)
          srcs_ops srcs →
  Forall2 (λ (c : UnorderedMap.t K V + OrderedMap.t K V) pairs,
             ∃ om, c = inr om ∧ pairs = OrderedMap.entries om) (inr <$> srcs) pairss →
  pairss = (λ ops, order_run ops []) <$> srcs_ops.
Proof.
  intros Hb. revert pairss. induction Hb as [|ops om rest srcs Hrun Hb IH]; intros pairss Hp.
  - by apply Forall2_nil_inv_l in Hp.
  - rewrite fmap_cons in Hp. apply Forall2_cons_inv_l in Hp
      as (pairs & pairss' & (om' & [= <-] & ->) & Hp & ->).
    rewrite fmap_cons. f_equal; [|by apply IH].
    destruct (OrderedMap_reach ops) as (om'' & E & _ & _ & En).
    assert (om'' = om) as -> by (unfold OrderedMap.methods in *; congruence). done.
Qed.

(** X14. [FromAbstractMap] from ordered maps into an ordered map, all
    built by calls: the sources are left as they are, and the traversal of
    the destination is the one it had, with the pairs of the sources
    stored in turn, each source in the order of its traversal.  A copy
    into a new map has the traversal of its source. *)
Theorem FromAbstractMap_follows_the_order_of_the_sources
    (dst_ops : list (Op K V)) (srcs_ops : list (list (Op K V))) :
  ∃ dst srcs dst',
    run OrderedMap.methods dst_ops OrderedMap.NewOrderedMap = Ok dst ∧
    Forall2 (λ ops om, run OrderedMap.methods ops OrderedMap.NewOrderedMap = Ok om)
            srcs_ops srcs ∧
    FromAbstractMap OrderedMap.methods (OrderedMap_source <$> srcs) dst
      = Ok (dst', OrderedMap_source <$> srcs) ∧
    traversal dst' (stored_in_turn (order_run dst_ops [])
                      ((λ ops, order_run ops []) <$> srcs_ops)) ∧
    (dst_ops = [] → ∀ ops, srcs_ops = [ops] → traversal dst' (order_run ops [])).
Proof.
  destruct (OrderedMap_reach dst_ops) as (dst & E & Hinv & _ & En).
  destruct (built_sources srcs_ops) as (srcs & Hb).
  assert (Hcs : Forall map_reached
                  (inr <$> srcs : list (UnorderedMap.t K V + OrderedMap.t K V))).
  { apply Forall_fmap, Forall_forall. intros om Hom. simpl.
    apply list_elem_of_lookup in Hom as [i Hi].
    destruct (Forall2_lookup_r _ _ _ _ _ Hb Hi) as (ops & _ & Hrun). by exists ops. }
  destruct (FromAbstractMap_for_each OrderedMap.declared OrderedMap.inv OrderedMap.abs
              OrderedMap_Implements _ dst Hcs Hinv)
    as (dst' & cs' & pairss & E' & F & Hinv' & _ & _ & _ & Hord).
  destruct Hord as [-> Hp].
  { intros c [om [-> _]]%list_elem_of_fmap. by exists om. }
  apply (built_sources_entries srcs_ops) in Hp; [|done]. subst pairss.
  destruct (OrderedMap_for_each_Store
              (concat ((λ ops, order_run ops ([] : list (K * V))) <$> srcs_ops)) dst Hinv)
    as (dst'' & F' & _ & En').
  assert (dst'' = dst') as -> by (unfold OrderedMap.methods in *; congruence).
  rewrite <- !list_fmap_compose in E'.
  assert (Htrav : traversal dst' (stored_in_turn (order_run dst_ops [])
                    ((λ ops, order_run ops []) <$> srcs_ops))).
  { unfold stored_in_turn. rewrite <- En, <- En'. by apply traversal_entries. }
  exists dst, srcs, dst'. split; [done|]. split; [done|]. split; [exact E'|].
  split; [done|]. intros -> ops ->.
  unfold stored_in_turn in Htrav. cbn in Htrav. rewrite app_nil_r in Htrav.
  rewrite foldl_assoc_store_nil in Htrav; [done|].
  destruct (OrderedMap_reach ops) as (om & _ & Hinv0 & _ & En0).
  rewrite <- En0. by apply inv_keys_NoDup.
Qed.
End bulk_on_maps.

(** * The claims on examples *)

#[local] Existing Instance alternating.

Import DefaultAbstractMap.

Ltac by_computation := by apply (bool_decide_unpack _); vm_compute.

(** The example: the traversal yields "charlie", "alpha", "beta"; a store
    to "alpha" keeps the order, a store to "delta" goes to the tail. *)
Lemma OrderedMap_Range_in_insertion_order_witness :
  ∃ om, run OrderedMap.methods example_ops OrderedMap.NewOrderedMap = Ok om ∧
    am_Range OrderedMap.methods _ collect [] om
      = Ok ([("charlie", 1); ("alpha", 5); ("beta", 4)]%string, om) ∧
    (∃ t', am_Range OrderedMap.methods _ (traced collect) ([], []) om
             = Ok (([("charlie", 1); ("alpha", 5); ("beta", 4)]%string, t'), om)) ∧
    (order_run (example_ops ++ [OpStore "alpha"%string 6]) []).*1
      = ["charlie"; "alpha"; "beta"]%string ∧
    order_run (example_ops ++ [OpStore "delta"%string 7]) []
      = [("charlie", 1); ("alpha", 5); ("beta", 4); ("delta", 7)]%string.
Proof.
  destruct (OrderedMap_Range_in_insertion_order example_ops)
    as (om & E & Hfull & Hcollect & _ & _ & Hpresent & Habsent & _).
  exists om. split; [exact E|]. split; [exact Hcollect|].
  split; [exact (Hfull _ collect [] (λ _ _ _, eq_refl))|].
  split.
  - apply (Hpresent "alpha"%string 6). by_computation.
  - apply (Habsent "delta"%string 7). by_computation.
Defined.

(** On the example, "alpha" points to the second element allocated, the
    only one that bears this key; it holds 5, the value of the second store
    to "alpha", not 2, the value of the first. *)
Lemma OrderedMap_index_and_list_correspond_witness :
  ∃ om, run OrderedMap.methods example_ops OrderedMap.NewOrderedMap = Ok om ∧
    OrderedMap.m om !! "alpha"%string = Some 1 ∧
    1 ∈ List_.order (OrderedMap.l om) ∧
    (∀ element' en', element' ∈ List_.order (OrderedMap.l om) →
       List_.Value element' (OrderedMap.l om) = Some en' →
       OrderedMap.key en' = "alpha"%string → element' = 1) ∧
    (is_Some (OrderedMap.m om !! "delta"%string)
       ↔ is_Some (model_run example_ops ∅ !! "delta"%string)) ∧
    ∃ en, List_.Value 1 (OrderedMap.l om) = Some en ∧
          OrderedMap.key en = "alpha"%string ∧
          OrderedMap.value en = 5 ∧
          found OrderedMap.declared om "alpha"%string 5.
Proof.
  destruct (OrderedMap_index_and_list_correspond example_ops)
    as (om & E & _ & Hindex & Hkeys & _).
  exists om. split; [exact E|].
  assert (Hm : OrderedMap.m om !! "alpha"%string = Some 1).
  { vm_compute in E. injection E as <-. reflexivity. }
  split; [exact Hm|].
  destruct (Hindex _ _ Hm) as (Hin & Honly & en & C & Hkey & Hmodel & Hfound).
  split; [exact Hin|]. split; [exact Honly|]. split; [exact (Hkeys _)|].
  assert (Hfive : model_run example_ops ∅ !! "alpha"%string = Some 5).
  { vm_compute. reflexivity. }
  rewrite Hfive in Hmodel. injection Hmodel as Hv. rewrite <- Hv in Hfound.
  exists en. split; [exact C|]. split; [exact Hkey|]. split; [by symmetry|exact Hfound].
Defined.

(** [keeping_ops] keeps the key 1 on both maps. *)
Lemma Load_after_Store_returns_stored_witness :
  forallb (keeps 1) keeping_ops = true ∧
  (∃ um, run UnorderedMap.methods (OpStore 1 10 :: keeping_ops) small_um = Ok um ∧
         found UnorderedMap.declared um 1 10) ∧
  (∃ om0, run OrderedMap.methods small_ops OrderedMap.NewOrderedMap = Ok om0 ∧
     ∃ om, run OrderedMap.methods (OpStore 1 12 :: keeping_ops) om0 = Ok om ∧
           found OrderedMap.declared om 1 12).
Proof.
  split; [reflexivity|]. split.
  - apply (proj1 Load_after_Store_returns_stored small_um 1 10 keeping_ops). reflexivity.
  - destruct (proj2 Load_after_Store_returns_stored small_ops) as (om0 & E & Hc).
    exists om0. split; [exact E|]. apply (Hc 1 12 keeping_ops). reflexivity.
Defined.

(** Hits and misses of [CompareAndSwap] and [CompareAndDelete] on maps of
    integers; the panic on maps of slices, where an absent key still answers
    [false]. *)
Lemma CompareAndSwap_CompareAndDelete_exact_witness :
  found UnorderedMap.declared small_um 1 10 ∧
  missing UnorderedMap.declared small_um 5 ∧
  ¬ found UnorderedMap.declared small_um 1 99 ∧
  (∃ um', am_CompareAndSwap UnorderedMap.methods 1 10 11 small_um = Ok (true, um') ∧
          am_Store UnorderedMap.methods 1 11 small_um = Ok ((), um') ∧
          found UnorderedMap.declared um' 1 11 ∧
          same_elsewhere UnorderedMap.declared 1 small_um um') ∧
  am_CompareAndSwap UnorderedMap.methods 1 99 11 small_um = Ok (false, small_um) ∧
  am_CompareAndSwap UnorderedMap.methods 5 10 11 small_um = Ok (false, small_um) ∧
  (∃ um', am_CompareAndDelete UnorderedMap.methods 1 10 small_um = Ok (true, um') ∧
          am_Delete UnorderedMap.methods 1 small_um = Ok ((), um') ∧
          missing UnorderedMap.declared um' 1 ∧
          same_elsewhere UnorderedMap.declared 1 small_um um') ∧
  am_CompareAndDelete UnorderedMap.methods 1 99 small_um = Ok (false, small_um) ∧
  (∃ om, run OrderedMap.methods small_ops OrderedMap.NewOrderedMap = Ok om ∧
     (∃ om', am_CompareAndSwap OrderedMap.methods 2 20 22 om = Ok (true, om') ∧
             am_Store OrderedMap.methods 2 22 om = Ok ((), om') ∧
             found OrderedMap.declared om' 2 22 ∧
             same_elsewhere OrderedMap.declared 2 om om') ∧
     am_CompareAndDelete OrderedMap.methods 5 20 om = Ok (false, om)) ∧
  found UnorderedMap.declared slices_um 1 (SliceOf [7]) ∧
  missing UnorderedMap.declared slices_um 5 ∧
  am_CompareAndSwap UnorderedMap.methods 1 (SliceOf [7]) (SliceOf [9]) slices_um
    = Panic uncomparable ∧
  am_CompareAndDelete UnorderedMap.methods 1 (SliceOf [8]) slices_um
    = Panic uncomparable ∧
  am_CompareAndSwap UnorderedMap.methods 5 (SliceOf [7]) (SliceOf [9]) slices_um
    = Ok (false, slices_um) ∧
  am_CompareAndDelete UnorderedMap.methods 5 (SliceOf [7]) slices_um
    = Ok (false, slices_um) ∧
  ∀ om, run OrderedMap.methods slices_ops OrderedMap.NewOrderedMap = Ok om →
    am_CompareAndSwap OrderedMap.methods 1 (SliceOf [8]) (SliceOf [9]) om
      = Panic uncomparable ∧
    am_CompareAndDelete OrderedMap.methods 5 (SliceOf [7]) om = Ok (false, om).
Proof.
  assert (Hfound : found UnorderedMap.declared small_um 1 10) by reflexivity.
  assert (Hmissing : missing UnorderedMap.declared small_um 5) by reflexivity.
  assert (Hnot : ¬ found UnorderedMap.declared small_um 1 99).
  { intros Hf. vm_compute in Hf. discriminate Hf. }
  assert (Hten : is_Some (any_eq 10 10)) by (by exists true).
  assert (Hother : is_Some (any_eq 10 99)) by (by exists false).
  assert (Hne : 10 ≠ 99) by discriminate.
  destruct (proj1 (proj1 (CompareAndSwap_CompareAndDelete_exact (K:=nat) (V:=nat))
                     comparable) small_um) as [Hcas Hcad].
  split; [exact Hfound|]. split; [exact Hmissing|]. split; [exact Hnot|].
  split; [exact (proj1 (proj2 (proj2 (Hcas 1 10 11)) 10 Hfound) Hten eq_refl)|].
  split; [exact (proj1 (proj2 (proj2 (proj2 (Hcas 1 99 11)) 10 Hfound)) Hother Hne)|].
  split; [exact (proj1 (proj2 (Hcas 5 10 11)) Hmissing)|].
  split; [exact (proj1 (proj2 (proj2 (Hcad 1 10)) 10 Hfound) Hten eq_refl)|].
  split; [exact (proj1 (proj2 (proj2 (proj2 (Hcad 1 99)) 10 Hfound)) Hother Hne)|].
  split.
  { destruct (proj2 (proj2 (CompareAndSwap_CompareAndDelete_exact (K:=nat) (V:=nat)) _)
                small_ops) as (om & E & Hcas' & Hcad').
    exists om. split; [exact E|].
    assert (Hom : found OrderedMap.declared om 2 20 ∧ ¬ found OrderedMap.declared om 5 20).
    { vm_compute in E. injection E as <-. split; [reflexivity|].
      intros Hf. vm_compute in Hf. discriminate Hf. }
    split; [exact (proj1 (Hcas' 2 20 22) (proj1 Hom))|].
    exact (proj2 (Hcad' 5 20) (proj2 Hom)). }
  assert (Hslice : found UnorderedMap.declared slices_um 1 (SliceOf [7])) by reflexivity.
  assert (Hnone : missing UnorderedMap.declared slices_um 5) by reflexivity.
  destruct (proj1 (proj1 (CompareAndSwap_CompareAndDelete_exact (K:=nat) (V:=IntSlice))
                     IntSlice_Comparison) slices_um) as [Scas Scad].
  split; [exact Hslice|]. split; [exact Hnone|].
  split; [exact (proj2 (proj2 (proj2 (proj2 (Scas 1 (SliceOf [7]) (SliceOf [9])))
                                 (SliceOf [7]) Hslice)) eq_refl)|].
  split; [exact (proj2 (proj2 (proj2 (proj2 (Scad 1 (SliceOf [8])))
                                 (SliceOf [7]) Hslice)) eq_refl)|].
  split; [exact (proj1 (proj2 (Scas 5 (SliceOf [7]) (SliceOf [9]))) Hnone)|].
  split; [exact (proj1 (proj2 (Scad 5 (SliceOf [7]))) Hnone)|].
  intros om E.
  destruct (proj2 (proj1 (CompareAndSwap_CompareAndDelete_exact (K:=nat) (V:=IntSlice))
                     IntSlice_Comparison) slices_ops om E) as [Ocas Ocad].
  assert (Hom : found OrderedMap.declared om 1 (SliceOf [7]) ∧
                missing OrderedMap.declared om 5).
  { vm_compute in E. injection E as <-. split; reflexivity. }
  split.
  - exact (proj2 (proj2 (proj2 (proj2 (Ocas 1 (SliceOf [8]) (SliceOf [9])))
                           (SliceOf [7]) (proj1 Hom))) eq_refl).
  - exact (proj1 (proj2 (Ocad 5 (SliceOf [7]))) (proj2 Hom)).
Defined.

(** C4 as it is stated fails on a map of slices.  The key 1 is bound to a
    slice: [CompareAndSwap] and [CompareAndDelete] on this key answer
    neither [true] nor [false], they panic, whether [old] has the elements
    of the slice that is bound or not. *)
Lemma CompareAndSwap_CompareAndDelete_panic_on_slices :
  found UnorderedMap.declared slices_um 1 (SliceOf [7]) ∧
  ¬ found UnorderedMap.declared slices_um 1 (SliceOf [8]) ∧
  am_CompareAndSwap UnorderedMap.methods 1 (SliceOf [7]) (SliceOf [9]) slices_um
    = Panic uncomparable ∧
  am_CompareAndSwap UnorderedMap.methods 1 (SliceOf [8]) (SliceOf [9]) slices_um
    = Panic uncomparable ∧
  am_CompareAndDelete UnorderedMap.methods 1 (SliceOf [7]) slices_um
    = Panic uncomparable ∧
  am_CompareAndDelete UnorderedMap.methods 1 (SliceOf [8]) slices_um
    = Panic uncomparable ∧
  ¬ CompareAndSwap_contract UnorderedMap.declared slices_um ∧
  ¬ CompareAndDelete_contract UnorderedMap.declared slices_um ∧
  ∃ om, run OrderedMap.methods slices_ops OrderedMap.NewOrderedMap = Ok om ∧
    found OrderedMap.declared om 1 (SliceOf [7]) ∧
    am_CompareAndSwap OrderedMap.methods 1 (SliceOf [7]) (SliceOf [9]) om
      = Panic uncomparable ∧
    am_CompareAndDelete OrderedMap.methods 1 (SliceOf [8]) om = Panic uncomparable ∧
    ¬ CompareAndSwap_contract OrderedMap.declared om ∧
    ¬ CompareAndDelete_contract OrderedMap.declared om.
Proof.
  assert (Hfound : found UnorderedMap.declared slices_um 1 (SliceOf [7])) by reflexivity.
  split; [exact Hfound|]. split; [intros Hf; vm_compute in Hf; discriminate Hf|].
  split; [reflexivity|]. split; [reflexivity|]. split; [reflexivity|].
  split; [reflexivity|]. split; [|split].
  - intros Hc. destruct (Hc 1 (SliceOf [7]) (SliceOf [9])) as [Hhit _].
    destruct (Hhit Hfound) as (um' & E & _). vm_compute in E. discriminate E.
  - intros Hc. destruct (Hc 1 (SliceOf [7])) as [Hhit _].
    destruct (Hhit Hfound) as (um' & E & _). vm_compute in E. discriminate E.
  - eexists. split; [vm_compute; reflexivity|].
    assert (Hfound' : found OrderedMap.declared
              {| OrderedMap.m := {[1 := 0]};
                 OrderedMap.l := {| List_.cells :=
                     {[0 := {| OrderedMap.key := 1; OrderedMap.value := SliceOf [7] |}]};
                   List_.order := [0] |} |} 1 (SliceOf [7])) by reflexivity.
    split; [exact Hfound'|]. split; [reflexivity|]. split; [reflexivity|]. split.
    + intros Hc. destruct (Hc 1 (SliceOf [7]) (SliceOf [9])) as [Hhit _].
      destruct (Hhit Hfound') as (om' & E & _). vm_compute in E. discriminate E.
    + intros Hc. destruct (Hc 1 (SliceOf [7])) as [Hhit _].
      destruct (Hhit Hfound') as (om' & E & _). vm_compute in E. discriminate E.
Qed.

(** [LoadOrStore] on a bound key, on an absent key, and twice. *)
Lemma LoadOrStore_keeps_first_value_witness :
  found UnorderedMap.declared small_um 1 10 ∧
  missing UnorderedMap.declared small_um 5 ∧
  am_LoadOrStore UnorderedMap.methods 1 77 small_um = Ok ((10, true), small_um) ∧
  (∃ um', am_LoadOrStore UnorderedMap.methods 5 50 small_um = Ok ((50, false), um') ∧
          am_Store UnorderedMap.methods 5 50 small_um = Ok ((), um') ∧
          found UnorderedMap.declared um' 5 50 ∧
          same_elsewhere UnorderedMap.declared 5 small_um um') ∧
  (∃ um', am_LoadOrStore UnorderedMap.methods 5 50 small_um = Ok ((50, false), um') ∧
          am_LoadOrStore UnorderedMap.methods 5 51 um' = Ok ((50, true), um') ∧
          found UnorderedMap.declared um' 5 50) ∧
  ∃ om, run OrderedMap.methods small_ops OrderedMap.NewOrderedMap = Ok om ∧
    ∃ om', am_LoadOrStore OrderedMap.methods 5 50 om = Ok ((50, false), om') ∧
           am_LoadOrStore OrderedMap.methods 5 51 om' = Ok ((50, true), om') ∧
           found OrderedMap.declared om' 5 50.
Proof.
  assert (Hfound : found UnorderedMap.declared small_um 1 10) by reflexivity.
  assert (Hmissing : missing UnorderedMap.declared small_um 5) by reflexivity.
  split; [exact Hfound|]. split; [exact Hmissing|].
  destruct (proj1 LoadOrStore_keeps_first_value small_um 1 77) as (Hp & _ & _).
  destruct (proj1 LoadOrStore_keeps_first_value small_um 5 50) as (_ & Ha & Ht).
  split; [exact (Hp 10 Hfound)|]. split; [exact (Ha Hmissing)|].
  split; [exact (Ht Hmissing 51)|].
  destruct (proj2 LoadOrStore_keeps_first_value small_ops) as (om & E & Hc).
  exists om. split; [exact E|].
  apply (proj2 (proj2 (Hc 5 50))).
  vm_compute in E. injection E as <-. reflexivity.
Defined.

(** [Clear] on two maps of two pairs. *)
Lemma Clear_empties_in_two_phases_witness :
  (∃ um', am_Clear UnorderedMap.methods small_um = Ok ((), um') ∧
          holds UnorderedMap.declared um' 0 ∧
          missing UnorderedMap.declared um' 1 ∧
          never_visits UnorderedMap.declared um') ∧
  ∃ om, run OrderedMap.methods small_ops OrderedMap.NewOrderedMap = Ok om ∧
    ∃ om', am_Clear OrderedMap.methods om = Ok ((), om') ∧
           holds OrderedMap.declared om' 0 ∧
           missing OrderedMap.declared om' 1 ∧
           never_visits OrderedMap.declared om'.
Proof.
  split.
  - destruct (proj1 Clear_empties_in_two_phases small_um)
      as (keys & um1 & um' & _ & _ & _ & _ & E & Hlen & _ & Hmiss & Hnever).
    exists um'. split; [exact E|]. split; [exact Hlen|]. split; [exact (Hmiss 1)|].
    exact Hnever.
  - destruct (proj2 Clear_empties_in_two_phases small_ops) as (om & Erun & Hc).
    exists om. split; [exact Erun|].
    destruct Hc as (keys & om1 & om' & _ & _ & _ & _ & E & Hlen & _ & Hmiss & Hnever).
    exists om'. split; [exact E|]. split; [exact Hlen|]. split; [exact (Hmiss 1)|].
    exact Hnever.
Defined.

(** [stop_at_once] is invoked once on maps of two pairs, never on a new map. *)
Lemma Range_empty_and_early_stop_witness :
  holds UnorderedMap.declared small_um 2 ∧
  (∃ log n um', am_Range UnorderedMap.methods _ (traced stop_at_once) ([], 0) small_um
                  = Ok ((log, n), um') ∧ length log = 1) ∧
  (∃ um', am_Range UnorderedMap.methods _ (traced stop_at_once) ([], 0)
            UnorderedMap.NewUnorderedMap = Ok (([], 0), um')) ∧
  ∃ om, run OrderedMap.methods small_ops OrderedMap.NewOrderedMap = Ok om ∧
    ∃ log n om', am_Keys OrderedMap.methods _ (traced1 (λ _ n, (false, n + 1))) ([], 0) om
                   = Ok ((log, n), om') ∧ length log = 1.
Proof.
  assert (Hholds : holds UnorderedMap.declared small_um 2) by (by exists small_um).
  split; [exact Hholds|].
  destruct (Range_empty_and_early_stop (K:=nat) (V:=nat)) as [[Hnew Hum] [_ Hom]].
  split.
  { exact (proj1 (proj2 (Hum small_um) 1 Hholds) _ stop_at_once 0 (λ _ _, eq_refl)). }
  split; [exact (proj1 Hnew _ stop_at_once 0)|].
  destruct (Hom small_ops) as (om & E & Hc).
  exists om. split; [exact E|].
  assert (Hholds' : holds OrderedMap.declared om 2).
  { vm_compute in E. injection E as <-. eexists. reflexivity. }
  exact (proj1 (proj2 (proj2 Hc 1 Hholds')) _ (λ _ n, (false, n + 1)) 0 (λ _, eq_refl)).
Defined.

(** After [keeping_ops] one key is left. *)
Lemma Len_counts_present_keys_witness :
  forallb unconditional keeping_ops = true ∧
  size (model_run keeping_ops (∅ : gmap nat nat)) = size (live_keys keeping_ops) ∧
  ∃ um, run UnorderedMap.methods keeping_ops UnorderedMap.NewUnorderedMap = Ok um ∧
        am_Len UnorderedMap.methods um = Ok (1, um) ∧
        ∃ um', Len UnorderedMap.impl um = Ok (1, um').
Proof.
  split; [reflexivity|].
  destruct (Len_counts_present_keys keeping_ops) as ((um & E & Hmethod & Hgeneric & _) & _ & Hlive).
  split; [exact (Hlive eq_refl)|].
  exists um. split; [exact E|]. split; [exact Hmethod|]. exact Hgeneric.
Defined.

(** [Swap] on a bound key and on an absent key. *)
Lemma Swap_returns_previous_and_stores_witness :
  found UnorderedMap.declared small_um 1 10 ∧
  missing UnorderedMap.declared small_um 5 ∧
  (∃ um', am_Swap UnorderedMap.methods 1 11 small_um = Ok ((10, true), um') ∧
          am_Store UnorderedMap.methods 1 11 small_um = Ok ((), um') ∧
          found UnorderedMap.declared um' 1 11 ∧
          same_elsewhere UnorderedMap.declared 1 small_um um') ∧
  (∃ um', am_Swap UnorderedMap.methods 5 50 small_um = Ok ((0, false), um') ∧
          am_Store UnorderedMap.methods 5 50 small_um = Ok ((), um') ∧
          found UnorderedMap.declared um' 5 50 ∧
          same_elsewhere UnorderedMap.declared 5 small_um um') ∧
  ∃ om, run OrderedMap.methods small_ops OrderedMap.NewOrderedMap = Ok om ∧
    ∃ om', am_Swap OrderedMap.methods 2 22 om = Ok ((20, true), om') ∧
           am_Store OrderedMap.methods 2 22 om = Ok ((), om') ∧
           found OrderedMap.declared om' 2 22 ∧
           same_elsewhere OrderedMap.declared 2 om om'.
Proof.
  assert (Hfound : found UnorderedMap.declared small_um 1 10) by reflexivity.
  assert (Hmissing : missing UnorderedMap.declared small_um 5) by reflexivity.
  split; [exact Hfound|]. split; [exact Hmissing|].
  split; [exact (proj1 (proj2 (proj1 Swap_returns_previous_and_stores small_um 1 11)) 10 Hfound)|].
  split; [exact (proj2 (proj2 (proj1 Swap_returns_previous_and_stores small_um 5 50)) Hmissing)|].
  destruct (proj2 Swap_returns_previous_and_stores small_ops) as (om & E & Hc).
  exists om. split; [exact E|].
  apply (proj1 (proj2 (Hc 2 22)) 20).
  vm_compute in E. injection E as <-. reflexivity.
Defined.

(** * Beyond the claims, on examples *)

(** [LoadAndDelete] on a bound key, twice, and on an absent key. *)
Lemma LoadAndDelete_takes_the_value_once_witness :
  found UnorderedMap.declared small_um 1 10 ∧
  missing UnorderedMap.declared small_um 5 ∧
  (∃ um', am_LoadAndDelete UnorderedMap.methods 1 small_um = Ok ((10, true), um') ∧
          am_Delete UnorderedMap.methods 1 small_um = Ok ((), um') ∧
          missing UnorderedMap.declared um' 1 ∧
          same_elsewhere UnorderedMap.declared 1 small_um um' ∧
          am_LoadAndDelete UnorderedMap.methods 1 um' = Ok ((0, false), um')) ∧
  am_LoadAndDelete UnorderedMap.methods 5 small_um = Ok ((0, false), small_um).
Proof.
  assert (Hfound : found UnorderedMap.declared small_um 1 10) by reflexivity.
  assert (Hmissing : missing UnorderedMap.declared small_um 5) by reflexivity.
  split; [exact Hfound|]. split; [exact Hmissing|].
  split; [exact (proj1 (proj1 LoadAndDelete_takes_the_value_once small_um 1) 10 Hfound)|].
  exact (proj2 (proj1 LoadAndDelete_takes_the_value_once small_um 5) Hmissing).
Defined.

(** [Delete] of an absent key of an unordered and of an ordered map. *)
Lemma Delete_removes_one_key_and_is_idempotent_witness :
  missing UnorderedMap.declared small_um 5 ∧
  am_Delete UnorderedMap.methods 5 small_um = Ok ((), small_um) ∧
  ∃ om, run OrderedMap.methods small_ops OrderedMap.NewOrderedMap = Ok om ∧
        am_Delete OrderedMap.methods 5 om = Ok ((), om).
Proof.
  assert (Hmissing : missing UnorderedMap.declared small_um 5) by reflexivity.
  split; [exact Hmissing|].
  split; [exact (proj1 (proj1 Delete_removes_one_key_and_is_idempotent small_um 5) Hmissing)|].
  destruct (proj2 Delete_removes_one_key_and_is_idempotent small_ops) as (om & E & Hc).
  exists om. split; [exact E|]. apply (proj1 (Hc 5)).
  vm_compute in E. injection E as <-. reflexivity.
Defined.

(** [Len] of a map of two pairs after a [Store] and after a [Delete]. *)
Lemma Len_follows_Store_and_Delete_witness :
  holds UnorderedMap.declared small_um 2 ∧
  (∃ um', am_Store UnorderedMap.methods 5 50 small_um = Ok ((), um') ∧
          holds UnorderedMap.declared um' 3) ∧
  (∃ um', am_Delete UnorderedMap.methods 1 small_um = Ok ((), um') ∧
          holds UnorderedMap.declared um' 1).
Proof.
  assert (Hholds : holds UnorderedMap.declared small_um 2) by (by exists small_um).
  assert (Hfound : ∃ w, found UnorderedMap.declared small_um 1 w) by (by exists 10).
  assert (Hmissing : missing UnorderedMap.declared small_um 5) by reflexivity.
  split; [exact Hholds|].
  destruct (proj1 Len_follows_Store_and_Delete small_um 2 Hholds 5 50)
    as [(um1 & E1 & _ & H1) _].
  destruct (proj1 Len_follows_Store_and_Delete small_um 2 Hholds 1 0)
    as [_ (um2 & E2 & H2 & _)].
  split; [exists um1; split; [exact E1|exact (H1 Hmissing)]|].
  exists um2. split; [exact E2|exact (proj2 (H2 Hfound))].
Defined.

(** [Store] then [Delete] of the absent key 5. *)
Lemma Store_then_Delete_restores_witness :
  missing UnorderedMap.declared small_um 5 ∧
  (∃ um1, am_Store UnorderedMap.methods 5 50 small_um = Ok ((), um1) ∧
          am_Delete UnorderedMap.methods 5 um1 = Ok ((), small_um)) ∧
  ∃ om, run OrderedMap.methods small_ops OrderedMap.NewOrderedMap = Ok om ∧
    ∃ om1 om2, am_Store OrderedMap.methods 5 50 om = Ok ((), om1) ∧
               am_Delete OrderedMap.methods 5 om1 = Ok ((), om2) ∧
               same_answers OrderedMap.declared om OrderedMap.declared om2 ∧
               traversal om2 [(1, 10); (2, 20)].
Proof.
  assert (Hmissing : missing UnorderedMap.declared small_um 5) by reflexivity.
  split; [exact Hmissing|].
  split; [exact (proj1 Store_then_Delete_restores small_um 5 50 Hmissing)|].
  destruct (proj2 Store_then_Delete_restores small_ops) as (om & E & _ & Hc).
  exists om. split; [exact E|]. apply (Hc 5 50).
  vm_compute in E. injection E as <-. reflexivity.
Defined.

(** A full [Range] over a map of two pairs. *)
Lemma full_traversal_shows_every_pair_once_witness :
  ∃ pairs n um', am_Range UnorderedMap.methods _ (traced count_all) ([], 0) small_um
                   = Ok ((pairs, n), um') ∧
                 pairs_of UnorderedMap.declared small_um pairs ∧
                 holds UnorderedMap.declared small_um (length pairs).
Proof.
  exact (proj1 (proj1 full_traversal_shows_every_pair_once small_um)
           _ count_all 0 (λ _ _ _, eq_refl)).
Defined.

(** [Keys] on the example of the ordered map. *)
Lemma OrderedMap_Keys_and_Values_in_insertion_order_witness :
  ∃ om, run OrderedMap.methods example_ops OrderedMap.NewOrderedMap = Ok om ∧
    (∃ n, am_Keys OrderedMap.methods _ (traced1 (λ _ n, (true, n + 1))) ([], 0) om
            = Ok ((["charlie"; "alpha"; "beta"]%string, n), om)) ∧
    (∃ n, am_Values OrderedMap.methods _ (traced1 (λ _ n, (true, n + 1))) ([], 0) om
            = Ok (([1; 5; 4], n), om)).
Proof.
  destruct (OrderedMap_Keys_and_Values_in_insertion_order example_ops)
    as (om & E & Hkeys & Hvalues).
  exists om. split; [exact E|]. split.
  - exact (Hkeys _ (λ _ n, (true, n + 1)) 0 (λ _ _, eq_refl)).
  - exact (Hvalues _ (λ _ n, (true, n + 1)) 0 (λ _ _, eq_refl)).
Defined.

(** [stop_at_once] on the ordered map of two pairs sees the first pair. *)
Lemma Range_stops_at_the_first_false_witness :
  ∃ om, run OrderedMap.methods small_ops OrderedMap.NewOrderedMap = Ok om ∧
    ∃ log n, am_Range OrderedMap.methods _ (traced stop_at_once) ([], 0) om
               = Ok ((log, n), om) ∧
             log = take (length log) [(1, 10); (2, 20)].
Proof.
  destruct (proj2 Range_stops_at_the_first_false small_ops) as (om & E & _ & Hprefix).
  exists om. split; [exact E|]. exact (Hprefix _ stop_at_once 0).
Defined.

(** An unordered and an ordered source, loaded into a new unordered map. *)
Lemma FromAbstractMap_last_write_wins_witness :
  Forall map_reached [inl small_um; inr small_om] ∧
  ∃ um' cs',
    FromAbstractMap UnorderedMap.methods (map_source <$> [inl small_um; inr small_om])
      UnorderedMap.NewUnorderedMap = Ok (um', map_source <$> cs') ∧
    UnorderedMap.m um'
      = merged ∅ (map_contents <$> [inl small_um; inr small_om]) ∧
    map_contents <$> cs' = map_contents <$> [inl small_um; inr small_om].
Proof.
  assert (Hcs : Forall map_reached [inl small_um; inr small_om]).
  { repeat constructor. exists small_ops. reflexivity. }
  split; [exact Hcs|].
  exact (proj1 (FromAbstractMap_last_write_wins _ Hcs) UnorderedMap.NewUnorderedMap).
Defined.

(** The copy of the example into a new ordered map has its traversal. *)
Lemma FromAbstractMap_follows_the_order_of_the_sources_witness :
  ∃ dst srcs dst',
    run OrderedMap.methods [] OrderedMap.NewOrderedMap = Ok dst ∧
    Forall2 (λ ops om, run OrderedMap.methods ops OrderedMap.NewOrderedMap = Ok om)
            [example_ops] srcs ∧
    FromAbstractMap OrderedMap.methods (OrderedMap_source <$> srcs) dst
      = Ok (dst', OrderedMap_source <$> srcs) ∧
    traversal dst' [("charlie", 1); ("alpha", 5); ("beta", 4)]%string.
Proof.
  destruct (FromAbstractMap_follows_the_order_of_the_sources [] [example_ops])
    as (dst & srcs & dst' & E & Hsrcs & Hload & _ & Hcopy).
  exists dst, srcs, dst'. split; [exact E|]. split; [exact Hsrcs|].
  split; [exact Hload|]. exact (Hcopy eq_refl example_ops eq_refl).
Defined.
